(** * Text2SPARQL: the retrieval, ranking and enrichment engine

    A shallow embedding of [sparql_utils/knowledgeGraphSearch.py]
    (class [QueryRunner]), [sparql_utils/initializer.py] and
    [routers/set_mode.py], followed by the properties of the engine.

    Modelling conventions.
    - A Python [str] is a list of Unicode code points ([pystr]); [len] is
      [length], [a in b] on strings is [contains], [a in l] on lists is [mem].
    - A Python [dict] is an association list in insertion order; assigning
      to a key that is already present keeps the key's position.
    - A Python exception is a value of [exn]; a computation that can raise
      returns an [outcome].
    - The remote endpoint is an oracle from query text to a response or a
      failure; every query text handed to it is appended to a log, so that
      "this query was (never) issued" is a statement about the log.
    - Scores are Python floats produced by one division of two naturals;
      the dictionaries of the model keep the exact quotient in [Q]. The
      division is correctly rounded, hence monotone, and two different
      quotients of naturals below 2^26 round to different floats, so the
      comparisons of the scores are the comparisons of the quotients.
    - Where the value of a float matters (the mean of the category scores
      and the comparison with it), the model rounds: [float_round] is
      binary64 rounding to nearest, ties to even, with gradual underflow,
      on the rational a finite float denotes. [statistics.mean] is the
      exact mean of the floats, rounded once.
    - The two search threads of [runQuery] share the wrapper
      [self.sparql_server]: [setQuery] stores a text in it and [query()]
      sends the text it holds. [dispatch_threads] runs the threads under a
      schedule, step by step between these calls. [dispatch], and with it
      [runQuery], is the schedule that runs the relation thread to its end
      before the text thread takes a step
      ([dispatch_threads_sequential]); the properties stated on [runQuery]
      are properties of the request on that schedule. *)

From Stdlib Require Import String Ascii DecimalString.
From Stdlib Require Import List Bool Arith ZArith NArith Lia.
From Stdlib Require Import QArith Qminmax Qround Qpower Lqa Permutation Sorted.
Import ListNotations.

Local Open Scope nat_scope.
Local Open Scope list_scope.

(** ** Python strings *)

Module PyStr.

Definition char := N.
Definition pystr := list char.

(** An ASCII literal as a Python string. *)
Definition str (s : string) : pystr :=
  map N_of_ascii (list_ascii_of_string s).

Definition space : char := 32%N.
Definition dquote : char := 34%N.
Definition lparen : char := 40%N.
Definition rparen : char := 41%N.
Definition underscore : char := 95%N.
(** U+200C, ZERO WIDTH NON-JOINER. *)
Definition zwnj : char := 8204%N.

Fixpoint str_eqb (a b : pystr) : bool :=
  match a, b with
  | [], [] => true
  | x :: a', y :: b' => N.eqb x y && str_eqb a' b'
  | _, _ => false
  end.

(** [x in l] for a list [l] of strings. *)
Definition mem (x : pystr) (l : list pystr) : bool :=
  existsb (str_eqb x) l.

Fixpoint starts_with (p s : pystr) : bool :=
  match p, s with
  | [], _ => true
  | x :: p', y :: s' => N.eqb x y && starts_with p' s'
  | _ :: _, [] => false
  end.

(** [needle in hay] for strings: the substring test. *)
Fixpoint contains (needle hay : pystr) : bool :=
  starts_with needle hay ||
  match hay with
  | [] => false
  | _ :: hay' => contains needle hay'
  end.

(** [s.split(sep)] for a one-character separator: every occurrence cuts,
    so adjacent separators give empty pieces and [''.split(sep) = ['']]. *)
Fixpoint split (sep : char) (s : pystr) : list pystr :=
  match s with
  | [] => [[]]
  | c :: s' =>
      if N.eqb c sep then [] :: split sep s'
      else match split sep s' with
           | [] => [[c]]
           | p :: ps => (c :: p) :: ps
           end
  end.

(** [sep.join(pieces)]. *)
Fixpoint join (sep : char) (pieces : list pystr) : pystr :=
  match pieces with
  | [] => []
  | [p] => p
  | p :: ps => p ++ sep :: join sep ps
  end.

(** [s.replace(c, '')] for a one-character [c]. *)
Definition remove_char (c : char) (s : pystr) : pystr :=
  filter (fun x => negb (N.eqb x c)) s.

(** [str(n)] for an [int]. *)
Definition str_of_int (z : Z) : pystr :=
  str (NilZero.string_of_int (Z.to_int z)).

Definition str_of_nat (n : nat) : pystr :=
  str (NilZero.string_of_uint (Nat.to_uint n)).

End PyStr.
Import PyStr.

(** ** Exceptions *)

Inductive exn : Type :=
| EndpointFailure      (* the transport or protocol call raised *)
| KeyError
| IndexError
| AttributeError
| ZeroDivisionError
| StatisticsError.

Inductive outcome (A : Type) : Type :=
| Ret (a : A)
| Raise (e : exn).
Arguments Ret {A} a.
Arguments Raise {A} e.

Definition obind {A B} (o : outcome A) (k : A -> outcome B) : outcome B :=
  match o with
  | Ret a => k a
  | Raise e => Raise e
  end.

(** ** Python dictionaries and [sorted] *)

Definition dict (V : Type) := list (pystr * V).

(** [d[k] = v]. *)
Fixpoint dict_set {V} (k : pystr) (v : V) (d : dict V) : dict V :=
  match d with
  | [] => [(k, v)]
  | (k', v') :: d' =>
      if str_eqb k k' then (k', v) :: d' else (k', v') :: dict_set k v d'
  end.

(** [d[k]], raising [KeyError] on an absent key. *)
Fixpoint dict_get {V} (k : pystr) (d : dict V) : outcome V :=
  match d with
  | [] => Raise KeyError
  | (k', v) :: d' => if str_eqb k k' then Ret v else dict_get k d'
  end.

(** [n / len] on numbers, raising on a zero divisor. *)
Definition divide (n len : nat) : outcome Q :=
  match len with
  | O => Raise ZeroDivisionError
  | S _ => Ret (Z.of_nat n # Pos.of_nat len)
  end.

(** [sorted(l, key=key, reverse=True)]: descending by key, equal keys in
    their original order. *)
Fixpoint insert_desc {A} (key : A -> Q) (x : A) (l : list A) : list A :=
  match l with
  | [] => [x]
  | y :: ys =>
      if Qle_bool (key y) (key x) then x :: y :: ys
      else y :: insert_desc key x ys
  end.

Definition sorted_reverse {A} (key : A -> Q) (l : list A) : list A :=
  fold_right (insert_desc key) [] l.

(** ** Python floats

    A finite binary64 float is kept as the rational it denotes. The
    quotient of two integers and the conversion of a fraction to a float
    are both rounded to nearest, ties to even; scores are bounded by the
    length of a list, so the model has no overflow. *)

Definition pow2 (k : Z) : Q := (2 ^ k)%Q.

(** The largest [k] with [2^k <= q], for positive [q]. *)
Definition floor_log2 (q : Q) : Z :=
  let k := (Z.log2 (Qnum q) - Z.log2 (Zpos (Qden q)))%Z in
  if Qle_bool (pow2 k) q then k else (k - 1)%Z.

(** Rounding to the nearest integer, ties to even. *)
Definition round_half_even (x : Q) : Z :=
  let f := Qfloor x in
  match Qcompare (x - inject_Z f) (1 # 2) with
  | Lt => f
  | Gt => (f + 1)%Z
  | Eq => if Z.even f then f else (f + 1)%Z
  end.

(** The exponent of the last mantissa bit: 53 bits of precision, and the
    subnormal spacing [2^-1074] at the bottom. *)
Definition exponent (q : Q) : Z := Z.max (floor_log2 q - 52) (-1074).

Definition mantissa (q : Q) : Z := round_half_even (q / pow2 (exponent q)).

(** The float nearest to a positive rational. *)
Definition round_pos (q : Q) : Q :=
  (inject_Z (mantissa q) * pow2 (exponent q))%Q.

(** The float nearest to a rational. *)
Definition float_round (q : Q) : Q :=
  match Qcompare q 0 with
  | Eq => 0%Q
  | Gt => round_pos q
  | Lt => (- round_pos (- q))%Q
  end.

(** ** Tokenizer, merger and link filter *)

(** [QueryRunner.__tokenizer] *)
Definition tokenizer (text : pystr) : list pystr :=
  fold_left
    (fun temp token => if 2 <? length token then temp ++ [token] else temp)
    (split space text) [].

(** The inner loop of [__sortingTextPurResults]: [score += 1] for every
    token that occurs in the result. *)
Definition token_overlap (tokens : list pystr) (text_result : pystr) : nat :=
  fold_left
    (fun score token => if contains token text_result then S score else score)
    tokens 0.

(** The outer loop of [__sortingTextPurResults], filling the dictionary. *)
Fixpoint score_text_results (tokens relation_results text_results : list pystr)
    (txt_pur_scored_results : dict Q) : outcome (dict Q) :=
  match text_results with
  | [] => Ret txt_pur_scored_results
  | text_result :: rest =>
      if negb (mem text_result relation_results) then
        obind (divide (token_overlap tokens text_result) (length text_result))
          (fun score =>
             score_text_results tokens relation_results rest
               (dict_set text_result score txt_pur_scored_results))
      else score_text_results tokens relation_results rest txt_pur_scored_results
  end.

(** [QueryRunner.__sortingTextPurResults] *)
Definition sortingTextPurResults (query : pystr)
    (relation_results text_results : list pystr) : outcome (list pystr) :=
  let tokens := tokenizer query in
  obind (score_text_results tokens relation_results text_results [])
    (fun txt_pur_scored_results =>
       Ret (map fst (sorted_reverse snd txt_pur_scored_results))).

(** [QueryRunner.__mergeResults] *)
Definition mergeResults (query_text : pystr)
    (relation_results text_results : list pystr) : outcome (list pystr) :=
  obind (sortingTextPurResults query_text relation_results text_results)
    (fun sorted_text_pur_results =>
       Ret
         (if (length relation_results =? 0) && (length sorted_text_pur_results =? 0)
          then []
          else if length relation_results =? 0 then sorted_text_pur_results
          else if length sorted_text_pur_results =? 0 then relation_results
          else if (2 <? length relation_results) && (2 <? length sorted_text_pur_results)
          then firstn 2 relation_results ++ firstn 2 sorted_text_pur_results
               ++ skipn 2 relation_results ++ skipn 2 sorted_text_pur_results
          else if 2 <? length relation_results
          then firstn 2 relation_results ++ sorted_text_pur_results
               ++ skipn 2 relation_results
          else relation_results ++ sorted_text_pur_results)).

(** [token.replace('(', '').replace(')', '').replace(U+200C, '')] *)
Definition clean_token (token : pystr) : pystr :=
  remove_char zwnj (remove_char rparen (remove_char lparen token)).

(** The inner loop of [__removeBadLinks], leaving at the first match. *)
Fixpoint link_is_good (query_tokens tokens : list pystr) : bool :=
  match tokens with
  | [] => false
  | token :: rest =>
      if mem (clean_token token) query_tokens then true
      else link_is_good query_tokens rest
  end.

(** [QueryRunner.__removeBadLinks] *)
Definition removeBadLinks (links : list pystr) (query : pystr) : list pystr :=
  let query_tokens := tokenizer query in
  fold_left
    (fun good_links link =>
       if link_is_good query_tokens (split underscore (skipn 31 link))
       then good_links ++ [link] else good_links)
    links [].

(** ** The endpoint and the engine's state *)

(** A row of bindings maps a variable to its value. *)
Definition row := dict pystr.

(** The converted JSON response: [head.vars] and [results.bindings]. *)
Record response : Type := {
  head_vars : list pystr;
  bindings : list row
}.

(** The remote endpoint: [None] when the call raises. *)
Definition endpoint := pystr -> option response.

(** A strategy's result, [{'mode': ..., 'answer': ...}]. *)
Record result_set : Type := {
  mode : pystr;
  answer : list pystr
}.

(** A [QueryRunner] instance. The two result attributes exist only once
    the corresponding strategy has run. *)
Record QueryRunner : Type := {
  instance2labels : dict pystr;
  prefixes : dict pystr;
  relation_results : option result_set;
  text_results : option result_set
}.

(** The process: the queries issued so far and [initializer.query_handler]. *)
Record world : Type := {
  log : list pystr;
  query_handler : QueryRunner
}.

Definition M (A : Type) : Type := world -> outcome A * world.

Definition ret {A} (a : A) : M A := fun w => (Ret a, w).

Definition throw {A} (e : exn) : M A := fun w => (Raise e, w).

Definition bind {A B} (m : M A) (k : A -> M B) : M B :=
  fun w =>
    match m w with
    | (Ret a, w') => k a w'
    | (Raise e, w') => (Raise e, w')
    end.

Definition lift {A} (o : outcome A) : M A := fun w => (o, w).

(** [try: body except: handler], the bare [except] that catches everything. *)
Definition try_except {A} (body handler : M A) : M A :=
  fun w =>
    match body w with
    | (Ret a, w') => (Ret a, w')
    | (Raise _, w') => handler w'
    end.

(** [Thread(target=...)], started and joined: the target's return value and
    any exception it raises stay in the thread. *)
Definition run_thread {A} (target : M A) : M unit :=
  fun w => (Ret tt, snd (target w)).

Declare Scope py_scope.
Delimit Scope py_scope with py.
Notation "x <- m ;; k" := (bind m (fun x => k))
  (at level 100, m at next level, right associativity) : py_scope.
Notation "m ;;; k" := (bind m (fun _ => k))
  (at level 100, right associativity) : py_scope.
Local Open Scope py_scope.

Fixpoint mapM {A B} (f : A -> M B) (l : list A) : M (list B) :=
  match l with
  | [] => ret []
  | a :: l' => b <- f a ;; bs <- mapM f l' ;; ret (b :: bs)
  end.

(** A list comprehension whose element expression can raise. *)
Fixpoint mapO {A B} (f : A -> outcome B) (l : list A) : outcome (list B) :=
  match l with
  | [] => Ret []
  | a :: l' => obind (f a) (fun b => obind (mapO f l') (fun bs => Ret (b :: bs)))
  end.

Definition get_self : M QueryRunner := fun w => (Ret (query_handler w), w).

Definition set_relation_results (r : result_set) : M unit :=
  fun w =>
    let self := query_handler w in
    (Ret tt,
     {| log := log w;
        query_handler :=
          {| instance2labels := instance2labels self;
             prefixes := prefixes self;
             relation_results := Some r;
             text_results := text_results self |} |}).

Definition set_text_results (r : result_set) : M unit :=
  fun w =>
    let self := query_handler w in
    (Ret tt,
     {| log := log w;
        query_handler :=
          {| instance2labels := instance2labels self;
             prefixes := prefixes self;
             relation_results := relation_results self;
             text_results := Some r |} |}).

(** [global query_handler; query_handler = h] *)
Definition set_query_handler (h : QueryRunner) : M unit :=
  fun w => (Ret tt, {| log := log w; query_handler := h |}).

(** [self.prefixes[key]] *)
Definition prefix (key : string) : M pystr :=
  self <- get_self ;; lift (dict_get (str key) (prefixes self)).

(** [QueryRunner.__resultParser] *)
Definition resultParser (result : response) : outcome (list pystr) :=
  match head_vars result with
  | [] => Raise IndexError
  | var_idx :: _ => mapO (fun i => dict_get var_idx i) (bindings result)
  end.

Section Engine.

Variable ep : endpoint.

(** [self.sparql_server.setQuery(query)] ... [.query().convert()] *)
Definition query_convert (query : pystr) : M response :=
  fun w =>
    (match ep query with
     | Some r => Ret r
     | None => Raise EndpointFailure
     end,
     {| log := log w ++ [query]; query_handler := query_handler w |}).

(** [QueryRunner.__runSPARQL] with [pars=True] *)
Definition runSPARQL (query : pystr) : M (list pystr) :=
  results <- query_convert query ;; lift (resultParser results).

(** [QueryRunner.__runSPARQL] with [pars=False] *)
Definition runSPARQL_raw (query : pystr) : M response :=
  query_convert query.

(** *** Query text *)

Definition regex_first (token : pystr) : pystr :=
  str " regex(?label, " ++ [dquote] ++ token ++ [dquote] ++ str ", "
  ++ [dquote] ++ str "i" ++ [dquote] ++ str ") ".

Definition regex_and (token : pystr) : pystr :=
  str " && regex(?label, " ++ [dquote] ++ token ++ [dquote] ++ str ", "
  ++ [dquote] ++ str "i" ++ [dquote] ++ str ") ".

Definition regex_or (token : pystr) : pystr :=
  str " || regex(?label, " ++ [dquote] ++ token ++ [dquote] ++ str ", "
  ++ [dquote] ++ str "i" ++ [dquote] ++ str ") ".

(** One turn of the loops that conjoin tokens: the test ['regex' in sparql]
    picks the connective. *)
Definition add_token (sparql token : pystr) : pystr :=
  if contains (str "regex") sparql then sparql ++ regex_and token
  else sparql ++ regex_first token.

(** One turn of the loop over the middle tokens. *)
Definition add_mid_token (sparql3 token : pystr) : pystr :=
  if contains (str "regex") sparql3 then sparql3 ++ regex_and token
  else sparql3 ++ regex_or token.

(** [tokens[:-1]], [tokens[1:]] and [tokens[1:-1]]. *)
Definition start_tokens (tokens : list pystr) : list pystr := removelast tokens.
Definition end_tokens (tokens : list pystr) : list pystr := tl tokens.
Definition interior (tokens : list pystr) : list pystr := removelast (tl tokens).

Definition relationQuery_text (tokens : list pystr) (entity : pystr) (limit : Z)
    : pystr :=
  let sparql :=
    fold_left add_token tokens
      (str "SELECT ?o (COUNT(DISTINCT ?r) AS ?relationCount) WHERE { ?o rdfs:label ?label . FILTER (") in
  sparql
  ++ (str " && regex(str(?o), CONCAT(" ++ [dquote] ++ str "^" ++ [dquote] ++ str ", STR("
      ++ entity
      ++ str ":))) ) ?s ?r ?o . } GROUP BY ?o ORDER BY DESC(?relationCount) LIMIT "
      ++ str_of_int limit).

(** The third clause of [semiRelationQuery]. *)
Definition semiRelation_sparql3 (tokens : list pystr) : pystr :=
  let mid_tokens := if 2 <? length tokens then interior tokens else [] in
  if 1 <? length mid_tokens then fold_left add_mid_token mid_tokens [] else [].

Definition semiRelationQuery_text (tokens : list pystr) (entity : pystr) (limit : Z)
    : pystr :=
  let sparql1 := fold_left add_token (start_tokens tokens) [] in
  let sparql2 := fold_left add_token (end_tokens tokens) [] in
  let sparql3 := semiRelation_sparql3 tokens in
  str "SELECT ?o (COUNT(DISTINCT ?r) AS ?relationCount) WHERE {?o rdfs:label ?label . FILTER(("
  ++ sparql1 ++ str " || " ++ sparql2 ++ sparql3
  ++ str ") && regex(str(?o), CONCAT(" ++ [dquote] ++ str "^" ++ [dquote] ++ str ", STR("
  ++ entity
  ++ str ":))) ) ?s ?r ?o . } GROUP BY ?o ORDER BY DESC(?relationCount) LIMIT "
  ++ str_of_int limit.

Definition likeQuery_text (tokens : list pystr) (entity : pystr) (limit : Z)
    : pystr :=
  let sparql :=
    fold_left add_token tokens
      (str "SELECT DISTINCT ?o WHERE {?o rdfs:label ?label . FILTER (") in
  sparql
  ++ (str "&& regex(str(?o), CONCAT(" ++ [dquote] ++ str "^" ++ [dquote] ++ str ", STR("
      ++ entity ++ str ":))) ) } LIMIT " ++ str_of_int limit).

(** The third clause of [semiLikeQuery]. *)
Definition semiLike_sparql3 (tokens : list pystr) : pystr :=
  let mid_tokens := if 3 <? length tokens then interior tokens else [] in
  if 0 <? length mid_tokens then fold_left add_mid_token mid_tokens [] else [].

Definition semiLikeQuery_text (tokens : list pystr) (entity : pystr) (limit : Z)
    : pystr :=
  let sparql1 := fold_left add_token (start_tokens tokens) [] in
  let sparql2 := fold_left add_token (end_tokens tokens) [] in
  let sparql3 := semiLike_sparql3 tokens in
  str "SELECT DISTINCT ?o WHERE {?o rdfs:label ?label . FILTER (("
  ++ sparql1 ++ str " || " ++ sparql2 ++ sparql3
  ++ str ") && regex(str(?o), CONCAT(" ++ [dquote] ++ str "^" ++ [dquote] ++ str ", STR("
  ++ entity ++ str ":))) ) } LIMIT " ++ str_of_int limit.

(** *** The two strategies *)

(** [QueryRunner.relationQuery] *)
Definition relationQuery (text : pystr) (limit : Z) : M (list pystr) :=
  let tokens := tokenizer text in
  entity <- prefix "entity" ;;
  runSPARQL (relationQuery_text tokens entity limit).

(** [QueryRunner.semiRelationQuery] *)
Definition semiRelationQuery (text : pystr) (limit : Z) : M (list pystr) :=
  let tokens := tokenizer text in
  entity <- prefix "entity" ;;
  runSPARQL (semiRelationQuery_text tokens entity limit).

(** [QueryRunner.likeQuery] *)
Definition likeQuery (text : pystr) (limit : Z) : M (list pystr) :=
  let tokens := tokenizer text in
  entity <- prefix "entity" ;;
  runSPARQL (likeQuery_text tokens entity limit).

(** [QueryRunner.semiLikeQuery] *)
Definition semiLikeQuery (text : pystr) (limit : Z) : M (list pystr) :=
  let tokens := tokenizer text in
  entity <- prefix "entity" ;;
  runSPARQL (semiLikeQuery_text tokens entity limit).

Definition error_result : result_set := {| mode := str "error"; answer := [] |}.

(** The [try] block of [relationSearch]. *)
Definition relationSearch_try (query_text : pystr) (limit : Z) : M result_set :=
  answer <- relationQuery query_text limit ;;
  r <- (if length answer =? 0
        then answer' <- semiRelationQuery query_text limit ;;
             ret {| mode := str "semiRelationQuery"; answer := answer' |}
        else ret {| mode := str "relationQuery"; answer := answer |}) ;;
  set_relation_results r ;;; ret r.

(** [QueryRunner.relationSearch] *)
Definition relationSearch (query_text : pystr) (limit : Z) : M result_set :=
  try_except (relationSearch_try query_text limit)
    (set_relation_results error_result ;;; ret error_result).

(** The [try] block of [textSearch]. *)
Definition textSearch_try (query_text : pystr) (limit : Z) : M result_set :=
  answer <- likeQuery query_text limit ;;
  r <- (if length answer =? 0
        then answer' <- semiLikeQuery query_text limit ;;
             ret {| mode := str "semiLikeQuery"; answer := answer' |}
        else ret {| mode := str "likeQuery"; answer := answer |}) ;;
  set_text_results r ;;; ret r.

(** [QueryRunner.textSearch] *)
Definition textSearch (query_text : pystr) (limit : Z) : M result_set :=
  try_except (textSearch_try query_text limit)
    (set_text_results error_result ;;; ret error_result).

(** *** Enrichment *)

(** [list(set(l))]: the distinct elements in the set's iteration order,
    which the language leaves open. *)
Variable list_of_set : list pystr -> list pystr.

(** The inner loop of [__categoryScoring]. [labels] is the label string the
    index holds for the class, so the loop runs over its characters. *)
Definition label_overlap (labels category : pystr) : nat :=
  fold_left
    (fun score label => if contains [label] category then S score else score)
    labels 0.

(** The outer loop of [__categoryScoring]. *)
Fixpoint score_categories (labels : pystr) (categories : list pystr)
    (scored_categories : dict Q) : outcome (dict Q) :=
  match categories with
  | [] => Ret scored_categories
  | category :: rest =>
      obind (divide (label_overlap labels category) (length category))
        (fun score =>
           score_categories labels rest (dict_set category score scored_categories))
  end.

(** [QueryRunner.__categoryScoring] *)
Definition categoryScoring (self : QueryRunner) (ontology categories : list pystr)
    : outcome (list (pystr * Q)) :=
  obind (match ontology with
         | [] => Raise IndexError
         | o :: _ => dict_get o (instance2labels self)
         end)
    (fun labels =>
       obind (score_categories labels categories [])
         (fun scored_categories => Ret (sorted_reverse snd scored_categories))).

(** The triples for the ontology values, [categoriesQL0]. *)
Definition ontology_triples (ontology : list pystr) : pystr :=
  fold_left
    (fun categoriesQL0 io =>
       categoriesQL0 ++ (str " ?s ?p" ++ str_of_nat ((fst io + 1) * 100)
                         ++ str " <" ++ snd io ++ str ">. "))
    (combine (seq 0 (length ontology)) ontology) [].

(** [categoriesQL] with the first [num] categories added. The caller has
    more than 3 categories and [num] is at most 3, so [category[i]] exists
    for every [i] in [range(num)]. *)
Definition category_triples (categoriesQL0 : pystr) (num : nat)
    (category : list (pystr * Q)) : pystr :=
  fold_left
    (fun categoriesQL ic =>
       categoriesQL ++ (str " ?s ?p" ++ str_of_nat (fst ic + 1)
                        ++ str " <" ++ fst (snd ic) ++ str ">. "))
    (combine (seq 0 num) (firstn num category)) categoriesQL0.

Definition similar_query (categoriesQL : pystr) : pystr :=
  str "SELECT ?s WHERE {" ++ categoriesQL ++ str " }".

Definition other_than (entity : pystr) (l : list pystr) : list pystr :=
  filter (fun e => negb (str_eqb e entity)) l.

(** The [while num > 0] loop of [__getSimilarEntries]. *)
Fixpoint relax (categoriesQL0 : pystr) (category : list (pystr * Q))
    (entity : pystr) (num : nat) (sim_ents : list pystr) : M (list pystr) :=
  match num with
  | O => ret sim_ents
  | S num' =>
      found <- runSPARQL (similar_query (category_triples categoriesQL0 num category)) ;;
      let sim_ents := other_than entity (list_of_set found) in
      if 1 <? length sim_ents then ret sim_ents
      else relax categoriesQL0 category entity num' sim_ents
  end.

Definition cap10 (sim_ents : list pystr) : list pystr :=
  if 10 <? length sim_ents then firstn 10 sim_ents else sim_ents.

(** [QueryRunner.__getSimilarEntries] *)
Definition getSimilarEntries (ontology : list pystr) (category : list (pystr * Q))
    (entity : pystr) : M (list pystr) :=
  let categoriesQL0 := ontology_triples ontology in
  if 3 <? length category then
    sim_ents <- relax categoriesQL0 category entity 3 [] ;;
    ret (cap10 sim_ents)
  else
    sim_ents <- runSPARQL (similar_query categoriesQL0) ;;
    ret (cap10 sim_ents).

(** The mean of the data as a fraction. *)
Definition exact_mean (data : list Q) : Q :=
  (fold_right Qplus 0 data / inject_Z (Z.of_nat (length data)))%Q.

(** [statistics.mean] on floats: the exact mean, converted to a float. *)
Definition mean (data : list Q) : outcome Q :=
  match data with
  | [] => Raise StatisticsError
  | _ :: _ => Ret (float_round (exact_mean data))
  end.

(** The floats [i[1]] of the scored categories. *)
Definition float_scores (sorted_category : list (pystr * Q)) : list Q :=
  map (fun i => float_round (snd i)) sorted_category.

(** The last two statements of [__getEntityInformation]: the mean score and
    the categories that reach it. *)
Definition top_category (sorted_category : list (pystr * Q)) : outcome (list pystr) :=
  obind (mean (float_scores sorted_category))
    (fun mean_category_score =>
       Ret (map fst
              (filter (fun i => Qle_bool mean_category_score (float_round (snd i)))
                 sorted_category))).

Record entity_info : Type := {
  similar_entities : list pystr;
  categories : list pystr;
  ontology : list pystr;
  income_entities : list pystr;
  outcome_entities : list pystr
}.

Definition income_query (entity_uri entity : pystr) : pystr :=
  str "SELECT DISTINCT ?a WHERE { ?a ?b <" ++ entity_uri
  ++ str ">. FILTER (regex(str(?a), CONCAT(" ++ [dquote] ++ str "^" ++ [dquote]
  ++ str ", STR(" ++ entity ++ str ":)))) }".

Definition outcome_query (entity_uri entity : pystr) : pystr :=
  str "SELECT DISTINCT ?b WHERE { <" ++ entity_uri
  ++ str "> ?a ?b . FILTER (regex(str(?b), CONCAT(" ++ [dquote] ++ str "^" ++ [dquote]
  ++ str ", STR(" ++ entity ++ str ":)))) }".

Definition category_query (entity_uri category : pystr) : pystr :=
  str "SELECT DISTINCT ?b WHERE { <" ++ entity_uri
  ++ str "> ?a ?b . FILTER (regex(str(?b), CONCAT(" ++ [dquote] ++ str "^" ++ [dquote]
  ++ str ", STR(" ++ category ++ str ":)))) }".

Definition ontology_query (entity_uri type : pystr) : pystr :=
  str "SELECT DISTINCT ?b WHERE { <" ++ entity_uri ++ str "> " ++ type ++ str " ?b . }".

(** [QueryRunner.__getEntityInformation] *)
Definition getEntityInformation (entity_uri : pystr) : M entity_info :=
  entity <- prefix "entity" ;;
  let income_entities := income_query entity_uri entity in
  entity' <- prefix "entity" ;;
  let outcome_entities := outcome_query entity_uri entity' in
  category_prefix <- prefix "category" ;;
  let category := category_query entity_uri category_prefix in
  type <- prefix "type" ;;
  let ontology := ontology_query entity_uri type in
  category_links <- runSPARQL category ;;
  ontology_links <- runSPARQL ontology ;;
  income_entities_links <- runSPARQL income_entities ;;
  outcome_entities_links <- runSPARQL outcome_entities ;;
  self <- get_self ;;
  sorted_category <- lift (categoryScoring self ontology_links category_links) ;;
  sim_ents <- getSimilarEntries ontology_links sorted_category entity_uri ;;
  let similar_entities := other_than entity_uri sim_ents in
  top <- lift (top_category sorted_category) ;;
  ret {| similar_entities := similar_entities;
         categories := top;
         ontology := ontology_links;
         income_entities := income_entities_links;
         outcome_entities := outcome_entities_links |}.

(** *** The request *)

Record final_answer : Type := {
  relation_mode : pystr;
  text_mode : pystr;
  enriched : list (pystr * entity_info)   (* the ['answer'] entry *)
}.

(** [self.relation_results] and [self.text_results], read back after the
    threads are joined. *)
Definition get_relation_results : M result_set :=
  self <- get_self ;;
  match relation_results self with
  | Some r => ret r
  | None => throw AttributeError
  end.

Definition get_text_results : M result_set :=
  self <- get_self ;;
  match text_results self with
  | Some r => ret r
  | None => throw AttributeError
  end.

(** The search stage of [runQuery]: both threads started and joined, on the
    schedule that runs the relation thread to its end before the text
    thread takes a step. [dispatch_threads] below has every schedule. *)
Definition dispatch (query_text : pystr) : M unit :=
  run_thread (relationSearch query_text 10) ;;;
  run_thread (textSearch query_text 20).

(** [QueryRunner.runQuery] *)
Definition runQuery (query_text : pystr) : M final_answer :=
  dispatch query_text ;;;
  relation <- get_relation_results ;;
  text <- get_text_results ;;
  merge_results <- lift (mergeResults query_text (answer relation) (answer text)) ;;
  let removed_bad_links_result := removeBadLinks merge_results query_text in
  answer <- mapM (fun entity =>
                    info <- getEntityInformation entity ;; ret (entity, info))
              removed_bad_links_result ;;
  relation' <- get_relation_results ;;
  text' <- get_text_results ;;
  ret {| relation_mode := mode relation';
         text_mode := mode text';
         enriched := answer |}.

(** *** The two threads on the shared wrapper

    [runQuery] starts both threads before it joins either, and both call
    [__runSPARQL] on the one [self.sparql_server]: [setQuery] stores the
    query text in the wrapper, and [query()] sends the text the wrapper
    holds when it is called. A thread is followed here through the steps
    between which the other thread can run: the [setQuery] and the
    [query()] of each tier. What a thread does between two of them is local
    to it, or writes an attribute the other thread never touches. *)

Inductive thread_id : Type := relation_thread | text_thread.

(** Where a thread stands in the [try] block of its strategy. *)
Inductive position : Type :=
| at_start       (* started, nothing done *)
| exact_set      (* the exact-tier text is set, [query()] comes next *)
| exact_empty    (* the exact tier gave no rows, the semi tier comes next *)
| semi_set       (* the semi-tier text is set, [query()] comes next *)
| finished.      (* the result is stored and the thread has ended *)

Record threads : Type := {
  process : world;
  queryString : pystr;      (* the text [self.sparql_server] holds *)
  relation_at : position;
  text_at : position
}.

Definition position_of (id : thread_id) (st : threads) : position :=
  match id with
  | relation_thread => relation_at st
  | text_thread => text_at st
  end.

Definition move (id : thread_id) (p : position) (st : threads) : threads :=
  match id with
  | relation_thread =>
      {| process := process st; queryString := queryString st;
         relation_at := p; text_at := text_at st |}
  | text_thread =>
      {| process := process st; queryString := queryString st;
         relation_at := relation_at st; text_at := p |}
  end.

(** [self.sparql_server.setQuery(query)] *)
Definition setQuery (query : pystr) (st : threads) : threads :=
  {| process := process st; queryString := query;
     relation_at := relation_at st; text_at := text_at st |}.

(** A step of the thread on the process state. *)
Definition on_process {A} (m : M A) (st : threads) : outcome A * threads :=
  (fst (m (process st)),
   {| process := snd (m (process st)); queryString := queryString st;
      relation_at := relation_at st; text_at := text_at st |}).

(** [self.sparql_server.query().convert()] and the parser: the text sent
    is the one the wrapper holds. *)
Definition send (st : threads) : outcome (list pystr) * threads :=
  on_process (runSPARQL (queryString st)) st.

Definition exact_text (id : thread_id) (query_text entity : pystr) : pystr :=
  match id with
  | relation_thread => relationQuery_text (tokenizer query_text) entity 10
  | text_thread => likeQuery_text (tokenizer query_text) entity 20
  end.

Definition semi_text (id : thread_id) (query_text entity : pystr) : pystr :=
  match id with
  | relation_thread => semiRelationQuery_text (tokenizer query_text) entity 10
  | text_thread => semiLikeQuery_text (tokenizer query_text) entity 20
  end.

Definition exact_mode (id : thread_id) : pystr :=
  match id with
  | relation_thread => str "relationQuery"
  | text_thread => str "likeQuery"
  end.

Definition semi_mode (id : thread_id) : pystr :=
  match id with
  | relation_thread => str "semiRelationQuery"
  | text_thread => str "semiLikeQuery"
  end.

(** The assignment to [self.relation_results] or [self.text_results], in
    the [try] block or in the handler, which ends the thread. *)
Definition store (id : thread_id) (r : result_set) (st : threads) : threads :=
  move id finished
    (snd (on_process
            (match id with
             | relation_thread => set_relation_results r
             | text_thread => set_text_results r
             end) st)).

(** The text of a tier is built with the entity prefix and set on the
    wrapper; a missing prefix raises into the handler. *)
Definition set_tier (id : thread_id) (text : pystr -> pystr) (next : position)
    (st : threads) : threads :=
  match fst (prefix "entity" (process st)) with
  | Ret entity => move id next (setQuery (text entity) st)
  | Raise _ => store id error_result st
  end.

(** One step of a thread. *)
Definition thread_step (query_text : pystr) (st : threads) (id : thread_id)
    : threads :=
  match position_of id st with
  | at_start => set_tier id (exact_text id query_text) exact_set st
  | exact_set =>
      match send st with
      | (Ret answer, st') =>
          if length answer =? 0 then move id exact_empty st'
          else store id {| mode := exact_mode id; answer := answer |} st'
      | (Raise _, st') => store id error_result st'
      end
  | exact_empty => set_tier id (semi_text id query_text) semi_set st
  | semi_set =>
      match send st with
      | (Ret answer, st') =>
          store id {| mode := semi_mode id; answer := answer |} st'
      | (Raise _, st') => store id error_result st'
      end
  | finished => st
  end.

(** The threads run as the schedule names them; a thread that has ended
    does nothing. *)
Definition run_schedule (query_text : pystr) (schedule : list thread_id)
    (st : threads) : threads :=
  fold_left (thread_step query_text) schedule st.

(** [relation_thread.join(); text_thread.join()]: what is left of either
    thread runs, at most four steps each. *)
Definition join_threads (query_text : pystr) (st : threads) : threads :=
  run_schedule query_text
    (repeat relation_thread 4 ++ repeat text_thread 4) st.

(** The search stage of [runQuery] under a schedule of the two threads,
    with the text the wrapper holds before. *)
Definition dispatch_threads (schedule : list thread_id) (held : pystr)
    (query_text : pystr) : M unit :=
  fun w =>
    (Ret tt,
     process
       (join_threads query_text
          (run_schedule query_text schedule
             {| process := w; queryString := held;
                relation_at := at_start; text_at := at_start |}))).

(** [QueryRunner.runQuery] under a schedule of the two threads. *)
Definition runQuery_threads (schedule : list thread_id) (held : pystr)
    (query_text : pystr) : M final_answer :=
  dispatch_threads schedule held query_text ;;;
  relation <- get_relation_results ;;
  text <- get_text_results ;;
  merge_results <- lift (mergeResults query_text (answer relation) (answer text)) ;;
  let removed_bad_links_result := removeBadLinks merge_results query_text in
  answer <- mapM (fun entity =>
                    info <- getEntityInformation entity ;; ret (entity, info))
              removed_bad_links_result ;;
  relation' <- get_relation_results ;;
  text' <- get_text_results ;;
  ret {| relation_mode := mode relation';
         text_mode := mode text';
         enriched := answer |}.

(** *** Construction and mode update *)

(** The loop of [__instance2labels] over the bindings. *)
Fixpoint collect_labels (results : list row) (acc : dict pystr)
    : outcome (dict pystr) :=
  match results with
  | [] => Ret acc
  | entry :: rest =>
      obind (dict_get (str "instance") entry) (fun instance =>
      obind (dict_get (str "label") entry) (fun label =>
      collect_labels rest (dict_set instance label acc)))
  end.

(** The [query] of [__instance2labels]. *)
Definition instance2labels_query : pystr :=
  str "SELECT DISTINCT ?instance ?label WHERE { ?instance rdf:type owl:Class. ?instance rdfs:label ?label }".

(** [QueryRunner.__instance2labels] *)
Definition QueryRunner_instance2labels : M (dict pystr) :=
  results <- runSPARQL_raw instance2labels_query ;;
  lift (collect_labels (bindings results) []).

(** [QueryRunner.__init__]: the instance exists for its caller only once
    the index is built and the prefixes are stored. *)
Definition QueryRunner_init (prefixes : dict pystr) : M QueryRunner :=
  index <- QueryRunner_instance2labels ;;
  ret {| instance2labels := index;
         prefixes := prefixes;
         relation_results := None;
         text_results := None |}.

(** [initializer.update_mode] *)
Definition update_mode (mode : dict pystr) : M unit :=
  h <- QueryRunner_init mode ;;
  set_query_handler h.

Record http_response : Type := {
  content : pystr;
  status_code : nat
}.

(** [json.dumps] of a plain ASCII string. *)
Definition json_dumps (s : pystr) : pystr := [dquote] ++ s ++ [dquote].

(** [set_mode.set_mode] *)
Definition set_mode (request_mode : dict pystr) : M http_response :=
  rs <- try_except
          (update_mode request_mode ;;; ret (str "success", 200))
          (ret (str "failed", 401)) ;;
  ret {| content := json_dumps (fst rs); status_code := snd rs |}.

End Engine.

(** ** The query route *)

Section Router.

Variable ep : endpoint.
Variable list_of_set : list pystr -> list pystr.

(** [json.dumps] of the result dictionary. *)
Variable dumps : final_answer -> pystr.

(** [get_sparql.get_query] *)
Definition get_query (query_text : pystr) : M http_response :=
  result <- runQuery ep list_of_set query_text ;;
  let status_code := if 0 <=? length (enriched result) then 200 else 501 in
  ret {| content := dumps result; status_code := status_code |}.

End Router.

(** * Reference definitions

    The notions the statements below are phrased with. *)

(** The cleaned pieces of a link's local name. *)
Definition local_pieces (link : pystr) : list pystr :=
  map clean_token (split underscore (skipn 31 link)).

(** Some cleaned piece of the local name is a token of the query. *)
Definition shares_token (query link : pystr) : bool :=
  existsb (fun piece => mem piece (tokenizer query)) (local_pieces link).

(** U+200D, the zero width joiner, and the link filter as the description
    has it: the two parentheses and the joiner removed from each piece. *)
Definition zwj : char := 8205%N.

Definition clean_token_joiner (token : pystr) : pystr :=
  remove_char zwj (remove_char rparen (remove_char lparen token)).

Definition shares_token_joiner (query link : pystr) : bool :=
  existsb (fun piece => mem piece (tokenizer query))
    (map clean_token_joiner (split underscore (skipn 31 link))).

(** Two links whose local name is the word of the query with a joiner, and
    with a non-joiner, inside. *)
Definition link_with_joiner : pystr :=
  str "http://fkg.iust.ac.ir/resource/" ++ str "te" ++ [zwj] ++ str "hran".

Definition link_with_non_joiner : pystr :=
  str "http://fkg.iust.ac.ir/resource/" ++ str "te" ++ [zwnj] ++ str "hran".

(** How many of the query tokens occur in the URI. *)
Definition overlap (tokens : list pystr) (uri : pystr) : nat :=
  length (filter (fun token => contains token uri) tokens).

(** The text-purity score of a URI: the overlap over the URI's length. *)
Definition purity (query uri : pystr) : Q :=
  Z.of_nat (overlap (tokenizer query) uri) # Pos.of_nat (length uri).

(** The text results that are not relation results. *)
Definition outside (relation text : list pystr) : list pystr :=
  filter (fun uri => negb (mem uri relation)) text.

(** The first occurrence of every element, in order. *)
Fixpoint first_occurrences (l : list pystr) : list pystr :=
  match l with
  | [] => []
  | x :: l' => x :: filter (fun y => negb (str_eqb y x)) (first_occurrences l')
  end.

(** The text-purity list when every entry of the text list is scored. *)
Definition text_purity_of_entries (query : pystr) (relation text : list pystr)
    : list pystr :=
  sorted_reverse (purity query) (outside relation text).

(** The text-purity list when every distinct URI is scored once. *)
Definition text_purity (query : pystr) (relation text : list pystr)
    : list pystr :=
  sorted_reverse (purity query) (first_occurrences (outside relation text)).

(** The merge policy on a relation list and a text-purity list. *)
Definition merge_policy (relation textPurity : list pystr) : list pystr :=
  match relation, textPurity with
  | [], [] => []
  | [], _ :: _ => textPurity
  | _ :: _, [] => relation
  | _ :: _, _ :: _ =>
      if (2 <? length relation) && (2 <? length textPurity)
      then firstn 2 relation ++ firstn 2 textPurity
           ++ skipn 2 relation ++ skipn 2 textPurity
      else if 2 <? length relation
      then firstn 2 relation ++ textPurity ++ skipn 2 relation
      else relation ++ textPurity
  end.

(** Appending a key that is not there yet. *)
Definition add_key (keys : list pystr) (k : pystr) : list pystr :=
  if mem k keys then keys else keys ++ [k].

(** Tagging every key with its value. *)
Definition tagged {V} (f : pystr -> V) (keys : list pystr) : dict V :=
  map (fun k => (k, f k)) keys.

(** Descending order of the keys. *)
Definition descending {A} (key : A -> Q) : A -> A -> Prop :=
  fun a b => (key b <= key a)%Q.

(** What one query yields: the parsed rows, or the failure. *)
Definition tier (ep : endpoint) (query : pystr) : outcome (list pystr) :=
  match ep query with
  | Some r => resultParser r
  | None => Raise EndpointFailure
  end.

(** The result of a two-tier strategy, from what its two queries yield. *)
Definition strategy_outcome (exact_label semi_label : string)
    (exact semi : outcome (list pystr)) : result_set :=
  match exact with
  | Raise _ => error_result
  | Ret [] =>
      match semi with
      | Ret rows => {| mode := str semi_label; answer := rows |}
      | Raise _ => error_result
      end
  | Ret rows => {| mode := str exact_label; answer := rows |}
  end.

(** The queries a two-tier strategy issues. *)
Definition strategy_queries (exact_query semi_query : pystr)
    (exact : outcome (list pystr)) : list pystr :=
  match exact with
  | Ret [] => [exact_query; semi_query]
  | _ => [exact_query]
  end.

(** The world with more queries logged. *)
Definition issue (queries : list pystr) (w : world) : world :=
  {| log := log w ++ queries; query_handler := query_handler w |}.

(** The module-level instance of [initializer.py], over a given index. *)
Definition default_prefixes : dict pystr :=
  [(str "entity", str "fkgr"); (str "category", str "fkgc");
   (str "type", str "rdf:instanceOf")].

Definition initial_world (index : dict pystr) : world :=
  {| log := [];
     query_handler :=
       {| instance2labels := index;
          prefixes := default_prefixes;
          relation_results := None;
          text_results := None |} |}.

(** A well-formed response without rows, and one with the given values
    bound to [?o]. *)
Definition no_rows : response := {| head_vars := [str "o"]; bindings := [] |}.

Definition rows_of (values : list pystr) : response :=
  {| head_vars := [str "o"]; bindings := map (fun v => [(str "o", v)]) values |}.

(** An endpoint that finds nothing for the exact relation query of
    [tehran] and is down for every other query. *)
Definition endpoint_semi_down : endpoint :=
  fun query =>
    if str_eqb query (relationQuery_text (tokenizer (str "tehran")) (str "fkgr") 10)
       || str_eqb query (likeQuery_text (tokenizer (str "tehran")) (str "fkgr") 20)
    then Some no_rows else None.

(** The result of each strategy as a function of the endpoint's answers to
    that strategy's own two queries. *)
Definition relation_outcome (ep : endpoint) (prefixes : dict pystr)
    (query_text : pystr) (limit : Z) : result_set :=
  match dict_get (str "entity") prefixes with
  | Raise _ => error_result
  | Ret entity =>
      strategy_outcome "relationQuery" "semiRelationQuery"
        (tier ep (relationQuery_text (tokenizer query_text) entity limit))
        (tier ep (semiRelationQuery_text (tokenizer query_text) entity limit))
  end.

Definition text_outcome (ep : endpoint) (prefixes : dict pystr)
    (query_text : pystr) (limit : Z) : result_set :=
  match dict_get (str "entity") prefixes with
  | Raise _ => error_result
  | Ret entity =>
      strategy_outcome "likeQuery" "semiLikeQuery"
        (tier ep (likeQuery_text (tokenizer query_text) entity limit))
        (tier ep (semiLikeQuery_text (tokenizer query_text) entity limit))
  end.

(** A computation that leaves [initializer.query_handler] as it found it. *)
Definition preserves_handler {A} (m : M A) : Prop :=
  forall w, query_handler (snd (m w)) = query_handler w.

(** An entity, its class, and an endpoint that knows the entity under the
    query [Tehran], knows its class, and finds nothing else. *)
Definition tehran : pystr := str "http://fkg.iust.ac.ir/resource/Tehran".
Definition city : pystr := str "http://fkg.iust.ac.ir/ontology/City".

Definition endpoint_tehran : endpoint :=
  fun query =>
    if str_eqb query (relationQuery_text (tokenizer (str "Tehran")) (str "fkgr") 10)
    then Some (rows_of [tehran])
    else if str_eqb query (ontology_query tehran (str "rdf:instanceOf"))
    then Some (rows_of [city])
    else Some no_rows.

(** The same endpoint with every Relation Search query failing. *)
Definition endpoint_relation_down : endpoint :=
  fun query =>
    if starts_with (str "SELECT ?o (COUNT(DISTINCT ?r) AS ?relationCount)") query
    then None else endpoint_tehran query.

(** The search stage with the text thread scheduled first. *)
Definition dispatch_text_first (ep : endpoint) (query_text : pystr) : M unit :=
  bind (run_thread (textSearch ep query_text 20))
    (fun _ => run_thread (relationSearch ep query_text 10)).

(** The handler with both strategies' results stored. *)
Definition with_results (h : QueryRunner) (relation text : result_set) : QueryRunner :=
  {| instance2labels := instance2labels h;
     prefixes := prefixes h;
     relation_results := Some relation;
     text_results := Some text |}.

(** What building the index yields. *)
Definition index_build (ep : endpoint) : outcome (dict pystr) :=
  match ep instance2labels_query with
  | Some results => collect_labels (bindings results) []
  | None => Raise EndpointFailure
  end.

(** A freshly constructed instance. *)
Definition fresh_instance (index prefixes : dict pystr) : QueryRunner :=
  {| instance2labels := index;
     prefixes := prefixes;
     relation_results := None;
     text_results := None |}.

(** An endpoint that is down, and one that serves the class index. *)
Definition endpoint_down : endpoint := fun _ => None.

Definition endpoint_index : endpoint :=
  fun query =>
    if str_eqb query instance2labels_query
    then Some {| head_vars := [str "instance"; str "label"];
                 bindings := [[(str "instance", city); (str "label", str "City")]] |}
    else Some no_rows.

Definition other_prefixes : dict pystr :=
  [(str "entity", str "dbr"); (str "category", str "dbc"); (str "type", str "rdf:type")].

(** The similarity query with the first [num] categories required. *)
Definition relaxed_query (ontology : list pystr) (category : list (pystr * Q))
    (num : nat) : pystr :=
  similar_query (category_triples (ontology_triples ontology) num category).

(** The queries with [num], [num - 1], ..., 1 categories. *)
Fixpoint countdown (ontology : list pystr) (category : list (pystr * Q))
    (num : nat) : list pystr :=
  match num with
  | O => []
  | S n => relaxed_query ontology category num :: countdown ontology category n
  end.

(** More than one distinct result is left once the entity is excluded. *)
Definition enough (entity : pystr) (rows : list pystr) : bool :=
  1 <? length (first_occurrences (other_than entity rows)).

(** The queries of a list that are issued when the first that fails or
    yields enough ends the search. *)
Fixpoint issued_until_enough (ep : endpoint) (entity : pystr)
    (queries : list pystr) : list pystr :=
  match queries with
  | [] => []
  | query :: rest =>
      query ::
      match tier ep query with
      | Ret rows => if enough entity rows then [] else issued_until_enough ep entity rest
      | Raise _ => []
      end
  end.

(** What [list(set(l))] guarantees: the elements of [l], each once. *)
Definition set_iteration (list_of_set : list pystr -> list pystr) : Prop :=
  forall l, NoDup (list_of_set l) /\ forall x, In x (list_of_set l) <-> In x l.

(** Four scored categories. *)
Definition four_categories : list (pystr * Q) :=
  [(str "http://fkg.iust.ac.ir/category/A", 1 # 2);
   (str "http://fkg.iust.ac.ir/category/B", 1 # 3);
   (str "http://fkg.iust.ac.ir/category/C", 1 # 4);
   (str "http://fkg.iust.ac.ir/category/D", 0)]%Q.

(** The label clauses of a list of tokens, joined by conjunction. *)
Definition conjunction (tokens : list pystr) : pystr :=
  match tokens with
  | [] => []
  | t :: ts => regex_first t ++ concat (map regex_and ts)
  end.

(** The clause of the middle tokens: a disjunct that conjoins them. *)
Definition mid_clause (tokens : list pystr) : pystr :=
  match tokens with
  | [] => []
  | t :: ts => regex_or t ++ concat (map regex_and ts)
  end.

(** The test of one token against the label, as it stands in a query. *)
Definition label_test (token : pystr) : pystr :=
  str "regex(?label, " ++ [dquote] ++ token ++ [dquote] ++ str ", "
  ++ [dquote] ++ str "i" ++ [dquote] ++ str ")".

(** An endpoint whose class index has two labels for one class. *)
Definition endpoint_two_labels : endpoint :=
  fun query =>
    if str_eqb query instance2labels_query
    then Some {| head_vars := [str "instance"; str "label"];
                 bindings := [[(str "instance", city); (str "label", str "City")];
                              [(str "instance", city); (str "label", str "Shahr")]] |}
    else Some no_rows.

(** The score [__categoryScoring] gives a category. *)
Definition category_score (labels category : pystr) : Q :=
  Z.of_nat (label_overlap labels category) # Pos.of_nat (length category).

(** Two more entities, and an endpoint that answers every query with the
    same four rows. *)
Definition qom : pystr := str "http://fkg.iust.ac.ir/resource/Qom".
Definition shiraz : pystr := str "http://fkg.iust.ac.ir/resource/Shiraz".

Definition endpoint_neighbours : endpoint :=
  fun _ => Some (rows_of [tehran; qom; qom; shiraz]).

(** An endpoint for which the request [Tehran] succeeds: the entity has a
    class, a category and a neighbour of the same class. *)
Definition category_a : pystr := str "http://fkg.iust.ac.ir/category/A".

Definition endpoint_enriched : endpoint :=
  fun query =>
    if str_eqb query (relationQuery_text (tokenizer (str "Tehran")) (str "fkgr") 10)
    then Some (rows_of [tehran])
    else if str_eqb query (ontology_query tehran (str "rdf:instanceOf"))
    then Some (rows_of [city])
    else if str_eqb query (category_query tehran (str "fkgc"))
    then Some (rows_of [category_a])
    else if str_eqb query (similar_query (ontology_triples [city]))
    then Some (rows_of [tehran; qom])
    else Some no_rows.

(** A prefix configuration without the entity key. *)
Definition prefixes_without_entity : dict pystr :=
  [(str "category", str "fkgc"); (str "type", str "rdf:instanceOf")].

(** The answer of a request on which both strategies fail. *)
Definition error_answer : final_answer :=
  {| relation_mode := str "error"; text_mode := str "error"; enriched := [] |}.

(** A seven-letter class label, and three categories of 51, 36 and 34
    characters that hold seven, three and one of its letters. *)
Definition seven_letters : pystr := str "abcdefg".
Definition category_51 : pystr := str "abcdefg" ++ repeat 120%N 44.
Definition category_36 : pystr := str "abc" ++ repeat 120%N 33.
Definition category_34 : pystr := str "a" ++ repeat 120%N 33.

(** The strategy a thread runs. *)
Definition strategy_of (ep : endpoint) (query_text : pystr) (id : thread_id)
    : M result_set :=
  match id with
  | relation_thread => relationSearch ep query_text 10
  | text_thread => textSearch ep query_text 20
  end.

(** The threads after the text the wrapper holds has been sent. *)
Definition sent (st : threads) : threads :=
  {| process := issue [queryString st] (process st);
     queryString := queryString st;
     relation_at := relation_at st; text_at := text_at st |}.

(** How far a thread has come. *)
Definition rank (p : position) : nat :=
  match p with
  | at_start => 0 | exact_set => 1 | exact_empty => 2 | semi_set => 3
  | finished => 4
  end.

(** The result a thread has stored. *)
Definition stored (id : thread_id) (st : threads) : option result_set :=
  match id with
  | relation_thread => relation_results (query_handler (process st))
  | text_thread => text_results (query_handler (process st))
  end.

(** A thread that has ended has stored its result. *)
Definition ended_with_result (st : threads) : Prop :=
  forall id, position_of id st = finished -> stored id st <> None.

(** The schedule on which both threads set their query before either sends:
    the text thread first, then the relation thread, at each step. *)
Definition racing_schedule : list thread_id :=
  [text_thread; relation_thread; text_thread; relation_thread].

(** An endpoint on which every Relation Search query fails, Text Search
    finds the entity, and the enrichment of the entity succeeds. *)
Definition endpoint_text_only : endpoint :=
  fun query =>
    if starts_with (str "SELECT ?o (COUNT(DISTINCT ?r) AS ?relationCount)") query
    then None
    else if str_eqb query (likeQuery_text (tokenizer (str "Tehran")) (str "fkgr") 20)
    then Some (rows_of [tehran])
    else endpoint_enriched query.

(** The same endpoint with the Relation Search queries answered, without
    rows. *)
Definition endpoint_text_found : endpoint :=
  fun query =>
    if starts_with (str "SELECT ?o (COUNT(DISTINCT ?r) AS ?relationCount)") query
    then Some no_rows
    else endpoint_text_only query.

(** The top categories as the description has them: the categories whose
    score, as a fraction, is at least the mean of the scores as fractions. *)
Definition top_category_exact (sorted_category : list (pystr * Q)) : list pystr :=
  map fst
    (filter (fun i => Qle_bool (exact_mean (map snd sorted_category)) (snd i))
       sorted_category).

(** * Properties *)

(** ** Strings and lists *)

Lemma str_eqb_spec (a b : pystr) : reflect (a = b) (str_eqb a b).
Proof.
  revert b; induction a as [|x a IH]; intros [|y b]; simpl;
    try (constructor; congruence).
  destruct (N.eqb_spec x y) as [->|Hxy]; simpl.
  - destruct (IH b) as [->|Hab]; constructor; congruence.
  - constructor; congruence.
Qed.

Lemma str_eqb_refl (a : pystr) : str_eqb a a = true.
Proof. destruct (str_eqb_spec a a); congruence. Qed.

Lemma str_eqb_eq (a b : pystr) : str_eqb a b = true <-> a = b.
Proof. destruct (str_eqb_spec a b); split; congruence. Qed.

Lemma str_eqb_sym (a b : pystr) : str_eqb a b = str_eqb b a.
Proof.
  destruct (str_eqb_spec a b), (str_eqb_spec b a); congruence.
Qed.

Lemma mem_In (x : pystr) (l : list pystr) : mem x l = true <-> In x l.
Proof.
  unfold mem; rewrite existsb_exists; split.
  - intros (y & Hy & E); apply str_eqb_eq in E; now subst.
  - intros H; exists x; split; [assumption | apply str_eqb_refl].
Qed.

Lemma mem_false (x : pystr) (l : list pystr) : mem x l = false <-> ~ In x l.
Proof.
  rewrite <- mem_In; destruct (mem x l); split; congruence.
Qed.

(** A loop that appends the elements passing a test is a filter. *)
Lemma fold_left_append_filter {A} (p : A -> bool) (l acc : list A) :
  fold_left (fun acc x => if p x then acc ++ [x] else acc) l acc
  = acc ++ filter p l.
Proof.
  revert acc; induction l as [|x l IH]; intros acc; simpl.
  - now rewrite app_nil_r.
  - rewrite IH; destruct (p x); [now rewrite <- app_assoc | reflexivity].
Qed.

Lemma split_nonempty (sep : char) (s : pystr) : split sep s <> [].
Proof.
  destruct s as [|c s]; simpl; [discriminate|].
  destruct (N.eqb c sep); [discriminate|].
  destruct (split sep s); discriminate.
Qed.

(** Joining the pieces with the separator gives the text back. *)
Lemma join_split (sep : char) (s : pystr) : join sep (split sep s) = s.
Proof.
  induction s as [|c s IH]; [reflexivity|].
  simpl split. destruct (N.eqb_spec c sep) as [->|Hc].
  - pose proof (split_nonempty sep s) as Hne.
    destruct (split sep s) as [|p ps] eqn:E; [congruence|].
    simpl in *. now rewrite IH.
  - pose proof (split_nonempty sep s) as Hne.
    destruct (split sep s) as [|p ps] eqn:E; [congruence|].
    destruct ps as [|p' ps]; simpl in *; now rewrite <- IH.
Qed.

(** No piece contains the separator. *)
Lemma split_pieces_free (sep : char) (s : pystr) :
  Forall (fun piece => ~ In sep piece) (split sep s).
Proof.
  induction s as [|c s IH]; simpl.
  - constructor; [intros [] | constructor].
  - destruct (N.eqb_spec c sep) as [->|Hc].
    + constructor; [intros [] | assumption].
    + destruct (split sep s) as [|p ps]; [repeat constructor; intros [H|[]]; congruence|].
      inversion IH as [|? ? Hp Hps]; subst.
      constructor; [|assumption].
      intros [H|H]; [congruence | now apply Hp].
Qed.

(** ** Tokenizer *)

Lemma tokenizer_filter (text : pystr) :
  tokenizer text = filter (fun token => 2 <? length token) (split space text).
Proof. unfold tokenizer; now rewrite fold_left_append_filter. Qed.

Lemma tokenizer_long (text token : pystr) :
  In token (tokenizer text) -> 2 < length token.
Proof.
  rewrite tokenizer_filter, filter_In; intros [_ H]; now apply Nat.ltb_lt.
Qed.

(** C7, as the claim words it, at its own example: the three words of
    [the cat sat] all have three characters, so none is dropped and the
    output is not [cat; sat]. *)
Lemma tokenizer_the_cat_sat_keeps_the :
  tokenizer (str "the cat sat") = [str "the"; str "cat"; str "sat"]
  /\ tokenizer (str "the cat sat") <> [str "cat"; str "sat"].
Proof. split; [reflexivity | discriminate]. Qed.

(** Only the space character separates: a tab stays inside its token. *)
Lemma tokenizer_tab_is_no_separator :
  tokenizer (str "ab" ++ [9%N] ++ str "cd") = [str "ab" ++ [9%N] ++ str "cd"].
Proof. reflexivity. Qed.

(** C7 (amended): the tokenizer cuts the text at every space character
    (and at no other character) and returns exactly the pieces longer than
    two characters, in order, duplicates kept, unchanged; no token of two
    characters or fewer is returned; for [the cat sat] the output is
    [the; cat; sat]. *)
Theorem tokenizer_spec (text : pystr) :
  tokenizer text = filter (fun token => 2 <? length token) (split space text)
  /\ join space (split space text) = text
  /\ Forall (fun piece => ~ In space piece) (split space text)
  /\ (forall token, In token (tokenizer text) -> 2 < length token)
  /\ tokenizer (str "the cat sat") = [str "the"; str "cat"; str "sat"].
Proof.
  split; [apply tokenizer_filter|].
  split; [apply join_split|].
  split; [apply split_pieces_free|].
  split; [intros token; apply tokenizer_long | reflexivity].
Qed.

(** ** Link filter *)

Lemma link_is_good_existsb (query_tokens tokens : list pystr) :
  link_is_good query_tokens tokens
  = existsb (fun piece => mem piece query_tokens) (map clean_token tokens).
Proof.
  induction tokens as [|token rest IH]; simpl; [reflexivity|].
  rewrite IH; now destruct (mem (clean_token token) query_tokens).
Qed.

Lemma removeBadLinks_filter (links : list pystr) (query : pystr) :
  removeBadLinks links query = filter (shares_token query) links.
Proof.
  unfold removeBadLinks.
  rewrite (fold_left_append_filter
             (fun link => link_is_good (tokenizer query)
                            (split underscore (skipn 31 link)))).
  simpl. apply filter_ext; intros link.
  unfold shares_token, local_pieces. apply link_is_good_existsb.
Qed.

Lemma shares_token_iff (query link : pystr) :
  shares_token query link = true
  <-> exists piece, In piece (local_pieces link) /\ In piece (tokenizer query).
Proof.
  unfold shares_token; rewrite existsb_exists.
  split; intros (piece & H1 & H2); exists piece; split; try assumption;
    now apply mem_In.
Qed.

(** C5, as the claim words it, with the zero width joiner (U+200D) as the
    removed character: a link whose local name holds the joiner inside the
    word of the query would be kept, and the code drops it; a link with the
    non-joiner (U+200C) would be dropped, and the code keeps it. *)
Lemma removeBadLinks_strips_non_joiner :
  length (str "http://fkg.iust.ac.ir/resource/") = 31
  /\ shares_token_joiner (str "tehran") link_with_joiner = true
  /\ removeBadLinks [link_with_joiner] (str "tehran") = []
  /\ shares_token_joiner (str "tehran") link_with_non_joiner = false
  /\ removeBadLinks [link_with_non_joiner] (str "tehran") = [link_with_non_joiner].
Proof. repeat split; vm_compute; reflexivity. Qed.

(** C5 (amended): the link filter keeps a candidate exactly when some cleaned piece of
    its local name (the link from offset 31 on, cut at underscores, with
    the two parentheses and U+200C removed from each piece) equals a token
    of the query; the output is the input with the other candidates
    dropped, so the kept ones stay in their input order. *)
Theorem removeBadLinks_spec (links : list pystr) (query : pystr) :
  removeBadLinks links query = filter (shares_token query) links
  /\ (forall link,
        In link (removeBadLinks links query)
        <-> In link links
            /\ exists piece,
                 In piece (map clean_token (split underscore (skipn 31 link)))
                 /\ In piece (tokenizer query))
  /\ (forall piece,
        clean_token piece
        = filter (fun c => negb (N.eqb c lparen || N.eqb c rparen || N.eqb c zwnj))
            piece).
Proof.
  split; [apply removeBadLinks_filter|]. split.
  - intros link. rewrite removeBadLinks_filter, filter_In, shares_token_iff.
    reflexivity.
  - intros piece. unfold clean_token, remove_char.
    induction piece as [|c piece IH]; [reflexivity|]. simpl.
    destruct (N.eqb c lparen); simpl; [exact IH|].
    destruct (N.eqb c rparen); simpl; [exact IH|].
    destruct (N.eqb c zwnj); simpl; [exact IH|]. now rewrite IH.
Qed.

(** ** Sorting *)

Section Sorting.

Context {A : Type} (key : A -> Q).

Lemma insert_desc_In (x y : A) (l : list A) :
  In y (insert_desc key x l) <-> y = x \/ In y l.
Proof.
  induction l as [|z l IH]; simpl.
  - intuition.
  - destruct (Qle_bool (key z) (key x)); simpl; [intuition|].
    rewrite IH; intuition.
Qed.

Lemma insert_desc_perm (x : A) (l : list A) :
  Permutation (insert_desc key x l) (x :: l).
Proof.
  induction l as [|z l IH]; simpl; [reflexivity|].
  destruct (Qle_bool (key z) (key x)); [reflexivity|].
  rewrite IH; apply perm_swap.
Qed.

Lemma sorted_reverse_perm (l : list A) : Permutation (sorted_reverse key l) l.
Proof.
  induction l as [|x l IH]; simpl; [reflexivity|].
  rewrite insert_desc_perm; now constructor.
Qed.

Lemma insert_desc_sorted (x : A) (l : list A) :
  StronglySorted (descending key) l ->
  StronglySorted (descending key) (insert_desc key x l).
Proof.
  induction l as [|z l IH]; intros Hs; simpl.
  - repeat constructor.
  - inversion Hs as [|? ? Hl Hz]; subst.
    destruct (Qle_bool (key z) (key x)) eqn:E.
    + apply Qle_bool_iff in E.
      constructor; [assumption|].
      constructor; [exact E|].
      eapply Forall_impl; [|exact Hz].
      intros b Hb; unfold descending in *; now apply Qle_trans with (key z).
    + constructor; [now apply IH|].
      apply Forall_forall; intros b Hb.
      apply insert_desc_In in Hb as [->|Hb].
      * unfold descending. apply Qlt_le_weak, Qnot_le_lt.
        intros H; apply Qle_bool_iff in H; congruence.
      * rewrite Forall_forall in Hz; now apply Hz.
Qed.

Lemma sorted_reverse_sorted (l : list A) :
  StronglySorted (descending key) (sorted_reverse key l).
Proof.
  induction l as [|x l IH]; simpl; [constructor | now apply insert_desc_sorted].
Qed.

(** Stability: the elements of any one score keep their order. *)
Lemma insert_desc_stable (s : Q) (x : A) (l : list A) :
  filter (fun a => Qeq_bool (key a) s) (insert_desc key x l)
  = filter (fun a => Qeq_bool (key a) s) (x :: l).
Proof.
  induction l as [|z l IH]; [reflexivity|].
  simpl insert_desc. destruct (Qle_bool (key z) (key x)) eqn:E; [reflexivity|].
  change (filter (fun a => Qeq_bool (key a) s) (z :: insert_desc key x l))
    with (if Qeq_bool (key z) s
          then z :: filter (fun a => Qeq_bool (key a) s) (insert_desc key x l)
          else filter (fun a => Qeq_bool (key a) s) (insert_desc key x l)).
  rewrite IH. simpl.
  destruct (Qeq_bool (key z) s) eqn:Ez; [|reflexivity].
  destruct (Qeq_bool (key x) s) eqn:Ex; [|reflexivity].
  apply Qeq_bool_iff in Ez, Ex.
  assert (H : Qle_bool (key z) (key x) = true)
    by (apply Qle_bool_iff; rewrite Ez, Ex; apply Qle_refl).
  congruence.
Qed.

Lemma sorted_reverse_stable (s : Q) (l : list A) :
  filter (fun a => Qeq_bool (key a) s) (sorted_reverse key l)
  = filter (fun a => Qeq_bool (key a) s) l.
Proof.
  induction l as [|x l IH]; [reflexivity|].
  simpl sorted_reverse. rewrite insert_desc_stable. simpl. now rewrite IH.
Qed.

End Sorting.

(** Sorting tagged pairs by their tag sorts the untagged elements. *)
Lemma insert_desc_tagged (f : pystr -> Q) (k : pystr) (ks : list pystr) :
  insert_desc snd (k, f k) (tagged f ks) = tagged f (insert_desc f k ks).
Proof.
  induction ks as [|z ks IH]; [reflexivity|].
  change (tagged f (z :: ks)) with ((z, f z) :: tagged f ks).
  simpl insert_desc. destruct (Qle_bool (f z) (f k)); [reflexivity|].
  now rewrite IH.
Qed.

Lemma sorted_reverse_tagged (f : pystr -> Q) (ks : list pystr) :
  map fst (sorted_reverse snd (tagged f ks)) = sorted_reverse f ks.
Proof.
  assert (H : sorted_reverse snd (tagged f ks) = tagged f (sorted_reverse f ks)).
  { induction ks as [|k ks IH]; [reflexivity|].
    change (tagged f (k :: ks)) with ((k, f k) :: tagged f ks).
    simpl sorted_reverse. rewrite IH. apply insert_desc_tagged. }
  rewrite H. unfold tagged. rewrite map_map. simpl. apply map_id.
Qed.

(** ** Result merger *)

Lemma count_loop {A} (p : A -> bool) (l : list A) (n : nat) :
  fold_left (fun score x => if p x then S score else score) l n
  = n + length (filter p l).
Proof.
  revert n; induction l as [|x l IH]; intros n; simpl; [lia|].
  rewrite IH; destruct (p x); simpl; lia.
Qed.

Lemma token_overlap_overlap (tokens : list pystr) (uri : pystr) :
  token_overlap tokens uri = overlap tokens uri.
Proof. unfold token_overlap, overlap; now rewrite count_loop. Qed.

Lemma filter_filter_and {A} (p q : A -> bool) (l : list A) :
  filter p (filter q l) = filter (fun x => q x && p x) l.
Proof.
  induction l as [|x l IH]; [reflexivity|]. simpl.
  destruct (q x); simpl; [destruct (p x)|]; now rewrite IH.
Qed.

Lemma mem_app_one (x y : pystr) (l : list pystr) :
  mem x (l ++ [y]) = mem x l || str_eqb x y.
Proof. unfold mem; rewrite existsb_app; simpl; now rewrite orb_false_r. Qed.

(** Assigning a key its own tag appends the key unless it is present. *)
Lemma dict_set_tagged {V} (f : pystr -> V) (k : pystr) (ks : list pystr) :
  dict_set k (f k) (tagged f ks) = tagged f (add_key ks k).
Proof.
  unfold add_key. induction ks as [|z ks IH]; [reflexivity|].
  change (tagged f (z :: ks)) with ((z, f z) :: tagged f ks).
  simpl dict_set. change (mem k (z :: ks)) with (str_eqb k z || mem k ks).
  destruct (str_eqb_spec k z) as [->|Hkz]; simpl; [reflexivity|].
  rewrite IH. now destruct (mem k ks).
Qed.

(** Adding the keys one by one keeps the first occurrence of each new one. *)
Lemma add_keys_first_occurrences (l acc : list pystr) :
  fold_left add_key l acc
  = acc ++ filter (fun x => negb (mem x acc)) (first_occurrences l).
Proof.
  revert acc; induction l as [|x l IH]; intros acc; simpl.
  - now rewrite app_nil_r.
  - rewrite IH; unfold add_key. destruct (mem x acc) eqn:Hx; simpl.
    + f_equal. rewrite filter_filter_and. apply filter_ext; intros y.
      destruct (str_eqb_spec y x) as [->|Hyx]; simpl; [now rewrite Hx | reflexivity].
    + rewrite <- app_assoc; simpl. do 2 f_equal.
      rewrite filter_filter_and. apply filter_ext; intros y.
      rewrite mem_app_one. destruct (mem y acc), (str_eqb y x); reflexivity.
Qed.

Lemma first_occurrences_In (x : pystr) (l : list pystr) :
  In x (first_occurrences l) <-> In x l.
Proof.
  induction l as [|y l IH]; simpl; [reflexivity|].
  rewrite filter_In, IH, negb_true_iff.
  destruct (str_eqb_spec x y) as [->|Hxy]; intuition congruence.
Qed.

Lemma first_occurrences_NoDup (l : list pystr) : NoDup (first_occurrences l).
Proof.
  induction l as [|y l IH]; simpl; constructor.
  - rewrite filter_In, str_eqb_refl; intros [_ H]; discriminate.
  - now apply NoDup_filter.
Qed.

Lemma first_occurrences_id (l : list pystr) : NoDup l -> first_occurrences l = l.
Proof.
  induction 1 as [|y l Hy Hl IH]; simpl; [reflexivity|].
  rewrite IH. f_equal. apply forallb_filter_id, forallb_forall.
  intros z Hz. apply negb_true_iff.
  destruct (str_eqb_spec z y); [congruence | reflexivity].
Qed.

(** The scoring loop, when no scored URI is empty. *)
Lemma score_text_results_tagged (tokens relation text ks : list pystr) :
  let f := fun uri => Z.of_nat (overlap tokens uri) # Pos.of_nat (length uri) in
  ~ In [] (outside relation text) ->
  score_text_results tokens relation text (tagged f ks)
  = Ret (tagged f (fold_left add_key (outside relation text) ks)).
Proof.
  intros f. revert ks; induction text as [|t text IH]; intros ks Hne; [reflexivity|].
  unfold outside in *. simpl in *.
  destruct (mem t relation); simpl in *; [now apply IH|].
  destruct t as [|c t]; [tauto|].
  rewrite token_overlap_overlap.
  change (divide (overlap tokens (c :: t)) (length (c :: t))) with (Ret (f (c :: t))).
  simpl obind. rewrite dict_set_tagged. apply IH; tauto.
Qed.

(** The scoring loop stops with a division by zero at an empty URI. *)
Lemma score_text_results_empty_uri (tokens relation text : list pystr) (d : dict Q) :
  In [] (outside relation text) ->
  score_text_results tokens relation text d = Raise ZeroDivisionError.
Proof.
  revert d; induction text as [|t text IH]; intros d Hin; [destruct Hin|].
  unfold outside in *. simpl in *.
  destruct (mem t relation); simpl in *; [now apply IH|].
  destruct t as [|c t]; [reflexivity|].
  destruct Hin as [Hin|Hin]; [discriminate|].
  simpl. now apply IH.
Qed.

Lemma sortingTextPurResults_text_purity (query : pystr) (relation text : list pystr) :
  ~ In [] (outside relation text) ->
  sortingTextPurResults query relation text = Ret (text_purity query relation text).
Proof.
  intros Hne. unfold sortingTextPurResults.
  pose proof (score_text_results_tagged (tokenizer query) relation text [] Hne) as H.
  simpl in H. change (tagged _ []) with (@nil (pystr * Q)) in H.
  rewrite H. simpl. rewrite sorted_reverse_tagged, add_keys_first_occurrences.
  simpl. unfold text_purity, purity. do 2 f_equal.
  apply forallb_filter_id, forallb_forall; reflexivity.
Qed.

Lemma merge_policy_branches (relation sorted_text_pur_results : list pystr) :
  (if (length relation =? 0) && (length sorted_text_pur_results =? 0)
   then []
   else if length relation =? 0 then sorted_text_pur_results
   else if length sorted_text_pur_results =? 0 then relation
   else if (2 <? length relation) && (2 <? length sorted_text_pur_results)
   then firstn 2 relation ++ firstn 2 sorted_text_pur_results
        ++ skipn 2 relation ++ skipn 2 sorted_text_pur_results
   else if 2 <? length relation
   then firstn 2 relation ++ sorted_text_pur_results ++ skipn 2 relation
   else relation ++ sorted_text_pur_results)
  = merge_policy relation sorted_text_pur_results.
Proof. destruct relation, sorted_text_pur_results; reflexivity. Qed.

(** The two merge examples of the specification. *)
Example merge_policy_interleaves :
  merge_policy [str "a"; str "b"; str "c"; str "d"] [str "e"; str "f"; str "g"]
  = [str "a"; str "b"; str "e"; str "f"; str "c"; str "d"; str "g"].
Proof. reflexivity. Qed.

Example merge_policy_text_alone :
  merge_policy [] [str "x"; str "y"] = [str "x"; str "y"].
Proof. reflexivity. Qed.

(** C1, as the claim words it (every text-list URI outside the relation
    list is scored and sorted): a URI that the text list holds twice comes
    out once. *)
Lemma mergeResults_collapses_duplicates :
  mergeResults (str "abc") [] [str "abcd"; str "abcd"] = Ret [str "abcd"]
  /\ mergeResults (str "abc") [] [str "abcd"; str "abcd"]
     <> Ret (merge_policy []
               (text_purity_of_entries (str "abc") [] [str "abcd"; str "abcd"])).
Proof. split; [reflexivity | discriminate]. Qed.

(** C1 (amended): when no text-list URI outside the relation list is the
    empty string, the merge returns the merge policy applied to the
    relation list and the text-purity list, where the text-purity list
    holds every distinct text-list URI that is not in the relation list
    once (at its first occurrence), sorted by descending score (query
    tokens occurring in the URI over the URI's length), equal scores in
    their original order; on a text list without repetitions this is the
    sorted list of all its entries outside the relation list. *)
Theorem mergeResults_spec (query : pystr) (relation text : list pystr) :
  ~ In [] (outside relation text) ->
  mergeResults query relation text
  = Ret (merge_policy relation (text_purity query relation text))
  /\ Permutation (text_purity query relation text)
       (first_occurrences (outside relation text))
  /\ StronglySorted (descending (purity query)) (text_purity query relation text)
  /\ (forall s,
        filter (fun uri => Qeq_bool (purity query uri) s)
          (text_purity query relation text)
        = filter (fun uri => Qeq_bool (purity query uri) s)
            (first_occurrences (outside relation text)))
  /\ (NoDup text ->
      text_purity query relation text
      = text_purity_of_entries query relation text).
Proof.
  intros Hne. split.
  - unfold mergeResults. rewrite sortingTextPurResults_text_purity by assumption.
    simpl. now rewrite merge_policy_branches.
  - split; [apply sorted_reverse_perm|].
    split; [apply sorted_reverse_sorted|].
    split; [intros s; apply sorted_reverse_stable|].
    intros Hnd. unfold text_purity, text_purity_of_entries.
    rewrite first_occurrences_id; [reflexivity|].
    unfold outside; now apply NoDup_filter.
Qed.

Lemma mergeResults_spec_witness :
  ~ In [] (outside [str "r1"; str "r2"; str "r3"]
             [str "xxabc"; str "r1"; str "abc"; str "xxabc"; str "zabc"; str "zz"])
  /\ mergeResults (str "abc") [str "r1"; str "r2"; str "r3"]
       [str "xxabc"; str "r1"; str "abc"; str "xxabc"; str "zabc"; str "zz"]
     = Ret [str "r1"; str "r2"; str "abc"; str "zabc"; str "r3"; str "xxabc"; str "zz"].
Proof.
  assert (Hne : ~ In [] (outside [str "r1"; str "r2"; str "r3"]
             [str "xxabc"; str "r1"; str "abc"; str "xxabc"; str "zabc"; str "zz"])).
  { vm_compute. intros H. repeat (destruct H as [H|H]; [discriminate|]). exact H. }
  split; [exact Hne|].
  destruct (mergeResults_spec (str "abc") [str "r1"; str "r2"; str "r3"]
       [str "xxabc"; str "r1"; str "abc"; str "xxabc"; str "zabc"; str "zz"] Hne)
    as [H _].
  rewrite H. reflexivity.
Defined.

(** ** Query text of the semi tiers *)

Lemma interior_between (tokens : list pystr) :
  2 <= length tokens ->
  exists first last, tokens = first :: interior tokens ++ [last].
Proof.
  destruct tokens as [|a [|b l]]; simpl; try lia. intros _.
  destruct (exists_last (l := b :: l)) as (l' & z & E); [discriminate|].
  exists a, z. unfold interior. simpl tl. rewrite E.
  now rewrite removelast_last.
Qed.

Lemma interior_length (tokens : list pystr) :
  length (interior tokens) = length tokens - 2.
Proof.
  destruct tokens as [|a [|b l]]; try reflexivity.
  destruct (interior_between (a :: b :: l)) as (x & z & E); [simpl; lia|].
  rewrite E at 2. simpl. rewrite length_app. simpl. lia.
Qed.

(** The loop over the middle tokens only ever appends. *)
Lemma add_mid_tokens_prefix (mid_tokens : list pystr) (sparql3 : pystr) :
  exists rest, fold_left add_mid_token mid_tokens sparql3 = sparql3 ++ rest.
Proof.
  revert sparql3; induction mid_tokens as [|t l IH]; intros sparql3; simpl.
  - exists []; now rewrite app_nil_r.
  - destruct (IH (add_mid_token sparql3 t)) as (rest & E). rewrite E.
    unfold add_mid_token. destruct (contains (str "regex") sparql3);
      rewrite <- app_assoc; eexists; reflexivity.
Qed.

Lemma add_mid_tokens_first (t : pystr) (mid_tokens : list pystr) :
  exists rest, fold_left add_mid_token (t :: mid_tokens) [] = regex_or t ++ rest.
Proof.
  simpl. destruct (add_mid_tokens_prefix mid_tokens (add_mid_token [] t)) as (rest & E).
  exists rest. rewrite E. reflexivity.
Qed.

Lemma semiRelation_sparql3_guard (tokens : list pystr) :
  semiRelation_sparql3 tokens
  = if 3 <? length tokens then fold_left add_mid_token (interior tokens) [] else [].
Proof.
  unfold semiRelation_sparql3.
  destruct (Nat.ltb_spec 3 (length tokens)) as [H|H].
  - assert (H2 : (2 <? length tokens) = true) by (apply Nat.ltb_lt; lia).
    rewrite H2. rewrite interior_length.
    assert (H1 : (1 <? length tokens - 2) = true) by (apply Nat.ltb_lt; lia).
    now rewrite H1.
  - destruct (2 <? length tokens); [|reflexivity].
    rewrite interior_length.
    assert (H1 : (1 <? length tokens - 2) = false) by (apply Nat.ltb_ge; lia).
    now rewrite H1.
Qed.

Lemma semiLike_sparql3_guard (tokens : list pystr) :
  semiLike_sparql3 tokens
  = if 3 <? length tokens then fold_left add_mid_token (interior tokens) [] else [].
Proof.
  unfold semiLike_sparql3.
  destruct (Nat.ltb_spec 3 (length tokens)) as [H|H]; [|reflexivity].
  rewrite interior_length.
  assert (H1 : (0 <? length tokens - 2) = true) by (apply Nat.ltb_lt; lia).
  now rewrite H1.
Qed.

Lemma mid_clause_nonempty (tokens : list pystr) :
  3 < length tokens ->
  exists t rest,
    nth_error tokens 1 = Some t
    /\ fold_left add_mid_token (interior tokens) [] = regex_or t ++ rest.
Proof.
  intros H. destruct tokens as [|a [|b [|c l]]]; simpl in H; try lia.
  unfold interior. simpl tl.
  change (removelast (b :: c :: l)) with (b :: removelast (c :: l)).
  destruct (add_mid_tokens_first b (removelast (c :: l))) as (rest & E).
  exists b, rest. split; [reflexivity | exact E].
Qed.

Lemma starts_with_app (n b : pystr) : starts_with n (n ++ b) = true.
Proof. induction n as [|c n IH]; simpl; [reflexivity | now rewrite N.eqb_refl]. Qed.

Lemma starts_with_mono (n h s : pystr) :
  starts_with n h = true -> starts_with n (h ++ s) = true.
Proof.
  revert h; induction n as [|c n IH]; intros [|d h]; simpl; try congruence.
  intros H. apply andb_true_iff in H as [H1 H2]. rewrite H1. now apply IH.
Qed.

Lemma contains_mono_r (n h s : pystr) :
  contains n h = true -> contains n (h ++ s) = true.
Proof.
  induction h as [|d h IH]; simpl.
  - rewrite orb_false_r. intros H. destruct n; [|discriminate].
    destruct s; reflexivity.
  - intros H. apply orb_true_iff in H as [H|H].
    + apply (starts_with_mono n (d :: h) s) in H. simpl in H. now rewrite H.
    + rewrite (IH H). apply orb_true_r.
Qed.

Lemma contains_mono_l (n p h : pystr) :
  contains n h = true -> contains n (p ++ h) = true.
Proof.
  intros H. induction p as [|d p IH]; [exact H|].
  simpl. rewrite IH. apply orb_true_r.
Qed.

(** [needle in hay] holds for every string that has the needle inside. *)
Lemma contains_inside (n a b : pystr) : contains n (a ++ n ++ b) = true.
Proof.
  apply contains_mono_l. destruct (n ++ b) eqn:E; simpl.
  - destruct n; [reflexivity | discriminate].
  - rewrite <- E, starts_with_app. reflexivity.
Qed.

Lemma regex_first_test (t : pystr) : regex_first t = str " " ++ label_test t ++ str " ".
Proof. unfold regex_first, label_test. now rewrite <- !app_assoc. Qed.

Lemma regex_and_test (t : pystr) : regex_and t = str " && " ++ label_test t ++ str " ".
Proof. unfold regex_and, label_test. now rewrite <- !app_assoc. Qed.

Lemma regex_or_test (t : pystr) : regex_or t = str " || " ++ label_test t ++ str " ".
Proof. unfold regex_or, label_test. now rewrite <- !app_assoc. Qed.

Lemma label_test_regex (t : pystr) : contains (str "regex") (label_test t) = true.
Proof. apply (contains_inside (str "regex") []). Qed.

Lemma clause_regex (sparql t : pystr) :
  contains (str "regex") (sparql ++ regex_first t) = true
  /\ contains (str "regex") (sparql ++ regex_and t) = true
  /\ contains (str "regex") (sparql ++ regex_or t) = true.
Proof.
  rewrite regex_first_test, regex_and_test, regex_or_test.
  repeat split; apply contains_mono_l, contains_mono_l, contains_mono_r,
    label_test_regex.
Qed.

(** Once a clause is there, every further token is conjoined. *)
Lemma add_tokens_after (tokens : list pystr) (sparql : pystr) :
  contains (str "regex") sparql = true ->
  fold_left add_token tokens sparql = sparql ++ concat (map regex_and tokens)
  /\ fold_left add_mid_token tokens sparql = sparql ++ concat (map regex_and tokens).
Proof.
  revert sparql; induction tokens as [|t ts IH]; intros sparql H;
    cbn [fold_left map concat].
  - now rewrite app_nil_r.
  - assert (Ea : add_token sparql t = sparql ++ regex_and t)
      by (unfold add_token; now rewrite H).
    assert (Em : add_mid_token sparql t = sparql ++ regex_and t)
      by (unfold add_mid_token; now rewrite H).
    rewrite Ea, Em.
    destruct (IH (sparql ++ regex_and t)) as [H1 H2]; [apply clause_regex|].
    rewrite H1, H2, <- !app_assoc. split; reflexivity.
Qed.

Lemma add_tokens_conjunction (tokens : list pystr) (sparql : pystr) :
  contains (str "regex") sparql = false ->
  fold_left add_token tokens sparql = sparql ++ conjunction tokens.
Proof.
  intros H. destruct tokens as [|t ts]; cbn [fold_left conjunction];
    [now rewrite app_nil_r|].
  assert (Ea : add_token sparql t = sparql ++ regex_first t)
    by (unfold add_token; now rewrite H).
  rewrite Ea.
  destruct (add_tokens_after ts (sparql ++ regex_first t)) as [H1 _];
    [apply clause_regex|].
  now rewrite H1, <- app_assoc.
Qed.

Lemma add_mid_tokens_clause (tokens : list pystr) :
  fold_left add_mid_token tokens [] = mid_clause tokens.
Proof.
  destruct tokens as [|t ts]; cbn [fold_left mid_clause]; [reflexivity|].
  change (add_mid_token [] t) with ([] ++ regex_or t).
  destruct (add_tokens_after ts ([] ++ regex_or t)) as [_ H2];
    [apply (clause_regex [] t)|].
  now rewrite H2.
Qed.

Lemma conjunction_tests (tokens : list pystr) (t : pystr) :
  In t tokens -> contains (label_test t) (conjunction tokens) = true.
Proof.
  destruct tokens as [|t0 ts]; [intros []|]. cbn [conjunction]. intros [->|H].
  - rewrite regex_first_test, <- !app_assoc. apply contains_inside.
  - apply contains_mono_l. induction ts as [|u ts IH]; [destruct H|].
    cbn [map concat]. destruct H as [->|H].
    + rewrite regex_and_test, <- !app_assoc. apply contains_inside.
    + now apply contains_mono_l, IH.
Qed.

(** C3, as the claim words it, at a query of three tokens: Relation Search
    builds no interior clause, and the token between the first and the
    last occurs in no disjunct of the query. *)
Lemma semiRelationQuery_three_tokens_no_interior :
  length (tokenizer (str "aaa bbb ccc")) = 3
  /\ semiRelation_sparql3 (tokenizer (str "aaa bbb ccc")) = []
  /\ contains (regex_or (str "bbb"))
       (semiRelationQuery_text (tokenizer (str "aaa bbb ccc")) (str "fkgr") 10)
     = false.
Proof. repeat split; vm_compute; reflexivity. Qed.

(** The text of the two semi-tier queries. *)
Lemma semiRelationQuery_text_closed (tokens : list pystr) (entity : pystr)
    (limit : Z) :
  semiRelationQuery_text tokens entity limit
  = str "SELECT ?o (COUNT(DISTINCT ?r) AS ?relationCount) WHERE {?o rdfs:label ?label . FILTER(("
    ++ conjunction (start_tokens tokens) ++ str " || "
    ++ conjunction (end_tokens tokens)
    ++ (if 3 <? length tokens then mid_clause (interior tokens) else [])
    ++ str ") && regex(str(?o), CONCAT(" ++ [dquote] ++ str "^" ++ [dquote]
    ++ str ", STR(" ++ entity
    ++ str ":))) ) ?s ?r ?o . } GROUP BY ?o ORDER BY DESC(?relationCount) LIMIT "
    ++ str_of_int limit.
Proof.
  unfold semiRelationQuery_text. cbv zeta.
  rewrite !(add_tokens_conjunction _ []) by reflexivity.
  rewrite semiRelation_sparql3_guard, add_mid_tokens_clause. reflexivity.
Qed.

Lemma semiLikeQuery_text_closed (tokens : list pystr) (entity : pystr)
    (limit : Z) :
  semiLikeQuery_text tokens entity limit
  = str "SELECT DISTINCT ?o WHERE {?o rdfs:label ?label . FILTER (("
    ++ conjunction (start_tokens tokens) ++ str " || "
    ++ conjunction (end_tokens tokens)
    ++ (if 3 <? length tokens then mid_clause (interior tokens) else [])
    ++ str ") && regex(str(?o), CONCAT(" ++ [dquote] ++ str "^" ++ [dquote]
    ++ str ", STR(" ++ entity ++ str ":))) ) } LIMIT " ++ str_of_int limit.
Proof.
  unfold semiLikeQuery_text. cbv zeta.
  rewrite !(add_tokens_conjunction _ []) by reflexivity.
  rewrite semiLike_sparql3_guard, add_mid_tokens_clause. reflexivity.
Qed.

(** C3 (amended): in both semi tiers the interior clause (built from the
    tokens between the first and the last, opened by a disjunction on the
    second token) is part of the generated query exactly when the query has
    more than 3 tokens. Relation Search takes the interior tokens when
    there are more than 2 tokens but uses them only when there is more than 1
    of them; Text Search takes them only when there are more than 3 tokens;
    the two clauses are the same for every query. The generated query of
    either tier is its opening, the conjunction of all tokens but the last,
    a disjunction sign, the conjunction of all tokens but the first, that
    clause when there are more than 3 tokens and nothing otherwise, and its
    closing; with more than 3 tokens the disjunct of the second token
    stands in both queries. *)
Theorem semi_interior_clause (tokens : list pystr) (entity : pystr) (limit : Z) :
  semiRelation_sparql3 tokens
  = (if 3 <? length tokens then fold_left add_mid_token (interior tokens) [] else [])
  /\ semiLike_sparql3 tokens
     = (if 3 <? length tokens then fold_left add_mid_token (interior tokens) [] else [])
  /\ (semiRelation_sparql3 tokens <> [] <-> 3 < length tokens)
  /\ (semiLike_sparql3 tokens <> [] <-> 3 < length tokens)
  /\ semiRelationQuery_text tokens entity limit
     = str "SELECT ?o (COUNT(DISTINCT ?r) AS ?relationCount) WHERE {?o rdfs:label ?label . FILTER(("
       ++ conjunction (start_tokens tokens) ++ str " || "
       ++ conjunction (end_tokens tokens)
       ++ (if 3 <? length tokens then mid_clause (interior tokens) else [])
       ++ str ") && regex(str(?o), CONCAT(" ++ [dquote] ++ str "^" ++ [dquote]
       ++ str ", STR(" ++ entity
       ++ str ":))) ) ?s ?r ?o . } GROUP BY ?o ORDER BY DESC(?relationCount) LIMIT "
       ++ str_of_int limit
  /\ semiLikeQuery_text tokens entity limit
     = str "SELECT DISTINCT ?o WHERE {?o rdfs:label ?label . FILTER (("
       ++ conjunction (start_tokens tokens) ++ str " || "
       ++ conjunction (end_tokens tokens)
       ++ (if 3 <? length tokens then mid_clause (interior tokens) else [])
       ++ str ") && regex(str(?o), CONCAT(" ++ [dquote] ++ str "^" ++ [dquote]
       ++ str ", STR(" ++ entity ++ str ":))) ) } LIMIT " ++ str_of_int limit
  /\ (3 < length tokens ->
      exists first last t rest,
        tokens = first :: interior tokens ++ [last]
        /\ nth_error tokens 1 = Some t
        /\ semiRelation_sparql3 tokens = regex_or t ++ rest
        /\ semiLike_sparql3 tokens = regex_or t ++ rest
        /\ mid_clause (interior tokens) = regex_or t ++ rest
        /\ contains (regex_or t) (semiRelationQuery_text tokens entity limit) = true
        /\ contains (regex_or t) (semiLikeQuery_text tokens entity limit) = true).
Proof.
  pose proof (semiRelation_sparql3_guard tokens) as HR.
  pose proof (semiLike_sparql3_guard tokens) as HL.
  pose proof (semiRelationQuery_text_closed tokens entity limit) as TR.
  pose proof (semiLikeQuery_text_closed tokens entity limit) as TL.
  assert (Hne : 3 < length tokens ->
                fold_left add_mid_token (interior tokens) [] <> []).
  { intros H. destruct (mid_clause_nonempty tokens H) as (t & rest & _ & E).
    rewrite E. discriminate. }
  split; [exact HR|]. split; [exact HL|].
  split; [|split; [|split; [exact TR|split; [exact TL|]]]].
  - rewrite HR. destruct (Nat.ltb_spec 3 (length tokens)) as [H|H];
      [tauto | split; [congruence | lia]].
  - rewrite HL. destruct (Nat.ltb_spec 3 (length tokens)) as [H|H];
      [tauto | split; [congruence | lia]].
  - intros H.
    destruct (interior_between tokens) as (first & last & Et); [lia|].
    destruct (mid_clause_nonempty tokens H) as (t & rest & Hn & E).
    assert (H3 : (3 <? length tokens) = true) by now apply Nat.ltb_lt.
    assert (Em : mid_clause (interior tokens) = regex_or t ++ rest)
      by now rewrite <- add_mid_tokens_clause.
    exists first, last, t, rest.
    split; [exact Et|]. split; [exact Hn|].
    split; [now rewrite HR, H3|]. split; [now rewrite HL, H3|].
    split; [exact Em|].
    rewrite TR, TL, H3, Em.
    split; apply contains_mono_l, contains_mono_l, contains_mono_l,
      contains_mono_l; rewrite <- app_assoc; apply (contains_inside _ []).
Qed.

Lemma semi_interior_clause_witness :
  contains (regex_or (str "bbb"))
    (semiRelationQuery_text (tokenizer (str "aaa bbb ccc ddd")) (str "fkgr") 10)
  = true
  /\ contains (regex_or (str "bbb"))
       (semiLikeQuery_text (tokenizer (str "aaa bbb ccc ddd")) (str "fkgr") 10)
     = true.
Proof.
  destruct (semi_interior_clause (tokenizer (str "aaa bbb ccc ddd")) (str "fkgr") 10)
    as (_ & _ & _ & _ & _ & _ & H).
  destruct H as (first & last & t & rest & _ & Hn & _ & _ & _ & HR & HL);
    [vm_compute; lia|].
  vm_compute in Hn. injection Hn as <-. split; [exact HR | exact HL].
Defined.

(** ** The two strategies *)

Lemma relationQuery_run (ep : endpoint) (text : pystr) (limit : Z) (w : world)
    (entity : pystr) :
  dict_get (str "entity") (prefixes (query_handler w)) = Ret entity ->
  relationQuery ep text limit w
  = (tier ep (relationQuery_text (tokenizer text) entity limit),
     issue [relationQuery_text (tokenizer text) entity limit] w).
Proof.
  intros H. unfold relationQuery, prefix, runSPARQL, query_convert, bind, get_self, lift, tier.
  rewrite H. destruct (ep _); reflexivity.
Qed.

Lemma semiRelationQuery_run (ep : endpoint) (text : pystr) (limit : Z) (w : world)
    (entity : pystr) :
  dict_get (str "entity") (prefixes (query_handler w)) = Ret entity ->
  semiRelationQuery ep text limit w
  = (tier ep (semiRelationQuery_text (tokenizer text) entity limit),
     issue [semiRelationQuery_text (tokenizer text) entity limit] w).
Proof.
  intros H. unfold semiRelationQuery, prefix, runSPARQL, query_convert, bind, get_self, lift, tier.
  rewrite H. destruct (ep _); reflexivity.
Qed.

Lemma likeQuery_run (ep : endpoint) (text : pystr) (limit : Z) (w : world)
    (entity : pystr) :
  dict_get (str "entity") (prefixes (query_handler w)) = Ret entity ->
  likeQuery ep text limit w
  = (tier ep (likeQuery_text (tokenizer text) entity limit),
     issue [likeQuery_text (tokenizer text) entity limit] w).
Proof.
  intros H. unfold likeQuery, prefix, runSPARQL, query_convert, bind, get_self, lift, tier.
  rewrite H. destruct (ep _); reflexivity.
Qed.

Lemma semiLikeQuery_run (ep : endpoint) (text : pystr) (limit : Z) (w : world)
    (entity : pystr) :
  dict_get (str "entity") (prefixes (query_handler w)) = Ret entity ->
  semiLikeQuery ep text limit w
  = (tier ep (semiLikeQuery_text (tokenizer text) entity limit),
     issue [semiLikeQuery_text (tokenizer text) entity limit] w).
Proof.
  intros H. unfold semiLikeQuery, prefix, runSPARQL, query_convert, bind, get_self, lift, tier.
  rewrite H. destruct (ep _); reflexivity.
Qed.

Lemma issue_issue (a b : list pystr) (w : world) :
  issue b (issue a w) = issue (a ++ b) w.
Proof. unfold issue; simpl; now rewrite app_assoc. Qed.

(** Relation Search, from what its two queries yield. *)
Lemma relationSearch_run (ep : endpoint) (query_text : pystr) (limit : Z)
    (w : world) (entity : pystr) :
  dict_get (str "entity") (prefixes (query_handler w)) = Ret entity ->
  let exact_query := relationQuery_text (tokenizer query_text) entity limit in
  let semi_query := semiRelationQuery_text (tokenizer query_text) entity limit in
  let r := strategy_outcome "relationQuery" "semiRelationQuery"
             (tier ep exact_query) (tier ep semi_query) in
  relationSearch ep query_text limit w
  = (Ret r,
     snd (set_relation_results r
            (issue (strategy_queries exact_query semi_query (tier ep exact_query)) w))).
Proof.
  intros H exact_query semi_query r. subst r.
  unfold relationSearch, try_except, relationSearch_try, bind.
  rewrite (relationQuery_run ep query_text limit w entity H).
  fold exact_query.
  destruct (tier ep exact_query) as [[|row rows]|e];
    cbn [length Nat.eqb strategy_outcome strategy_queries]; try reflexivity.
  rewrite (semiRelationQuery_run ep query_text limit (issue [exact_query] w) entity H).
  fold semi_query. rewrite issue_issue.
  destruct (tier ep semi_query) as [rows|e]; reflexivity.
Qed.

(** Text Search, from what its two queries yield. *)
Lemma textSearch_run (ep : endpoint) (query_text : pystr) (limit : Z)
    (w : world) (entity : pystr) :
  dict_get (str "entity") (prefixes (query_handler w)) = Ret entity ->
  let exact_query := likeQuery_text (tokenizer query_text) entity limit in
  let semi_query := semiLikeQuery_text (tokenizer query_text) entity limit in
  let r := strategy_outcome "likeQuery" "semiLikeQuery"
             (tier ep exact_query) (tier ep semi_query) in
  textSearch ep query_text limit w
  = (Ret r,
     snd (set_text_results r
            (issue (strategy_queries exact_query semi_query (tier ep exact_query)) w))).
Proof.
  intros H exact_query semi_query r. subst r.
  unfold textSearch, try_except, textSearch_try, bind.
  rewrite (likeQuery_run ep query_text limit w entity H).
  fold exact_query.
  destruct (tier ep exact_query) as [[|row rows]|e];
    cbn [length Nat.eqb strategy_outcome strategy_queries]; try reflexivity.
  rewrite (semiLikeQuery_run ep query_text limit (issue [exact_query] w) entity H).
  fold semi_query. rewrite issue_issue.
  destruct (tier ep semi_query) as [rows|e]; reflexivity.
Qed.

(** Without an entity prefix no query is issued. *)
Lemma relationSearch_no_prefix (ep : endpoint) (query_text : pystr) (limit : Z)
    (w : world) (e : exn) :
  dict_get (str "entity") (prefixes (query_handler w)) = Raise e ->
  relationSearch ep query_text limit w
  = (Ret error_result, snd (set_relation_results error_result w)).
Proof.
  intros H. unfold relationSearch, try_except, relationSearch_try, bind,
    relationQuery, prefix, bind, get_self, lift.
  rewrite H. destruct w; reflexivity.
Qed.

Lemma textSearch_no_prefix (ep : endpoint) (query_text : pystr) (limit : Z)
    (w : world) (e : exn) :
  dict_get (str "entity") (prefixes (query_handler w)) = Raise e ->
  textSearch ep query_text limit w
  = (Ret error_result, snd (set_text_results error_result w)).
Proof.
  intros H. unfold textSearch, try_except, textSearch_try, bind,
    likeQuery, prefix, bind, get_self, lift.
  rewrite H. destruct w; reflexivity.
Qed.

(** The loop over the tokens only ever appends. *)
Lemma add_tokens_prefix (tokens : list pystr) (sparql : pystr) :
  exists rest, fold_left add_token tokens sparql = sparql ++ rest.
Proof.
  revert sparql; induction tokens as [|t l IH]; intros sparql; simpl.
  - exists []; now rewrite app_nil_r.
  - destruct (IH (add_token sparql t)) as (rest & E). rewrite E.
    unfold add_token. destruct (contains (str "regex") sparql);
      rewrite <- app_assoc; eexists; reflexivity.
Qed.

(** The two tiers of a strategy never send the same text. *)
Lemma relation_tiers_differ (tokens : list pystr) (entity : pystr) (limit : Z) :
  semiRelationQuery_text tokens entity limit <> relationQuery_text tokens entity limit.
Proof.
  intros E. apply (f_equal (firstn 60)) in E.
  unfold relationQuery_text, semiRelationQuery_text in E.
  destruct (add_tokens_prefix tokens
              (str "SELECT ?o (COUNT(DISTINCT ?r) AS ?relationCount) WHERE { ?o rdfs:label ?label . FILTER ("))
    as (rest & Er).
  cbv zeta in E. rewrite Er in E. rewrite <- !app_assoc in E.
  vm_compute in E. discriminate E.
Qed.

Lemma like_tiers_differ (tokens : list pystr) (entity : pystr) (limit : Z) :
  semiLikeQuery_text tokens entity limit <> likeQuery_text tokens entity limit.
Proof.
  intros E. apply (f_equal (firstn 58)) in E.
  unfold likeQuery_text, semiLikeQuery_text in E. cbv zeta in E.
  destruct tokens as [|t tokens].
  - vm_compute in E. discriminate E.
  - simpl fold_left in E.
    destruct (add_tokens_prefix tokens
                (add_token (str "SELECT DISTINCT ?o WHERE {?o rdfs:label ?label . FILTER (") t))
      as (rest & Er).
    rewrite Er in E.
    change (add_token (str "SELECT DISTINCT ?o WHERE {?o rdfs:label ?label . FILTER (") t)
      with (str "SELECT DISTINCT ?o WHERE {?o rdfs:label ?label . FILTER (" ++ regex_first t) in E.
    unfold regex_first in E. rewrite <- !app_assoc in E.
    vm_compute in E. discriminate E.
Qed.

(** C2, as the claim words it: the exact tier of Relation Search yields no
    row, the semi-tier query is issued and fails, and the reported mode is
    [error], not the semi-tier label; the same for Text Search. *)
Lemma semi_tier_failure_reports_error :
  let w := initial_world [] in
  let exact := relationQuery_text (tokenizer (str "tehran")) (str "fkgr") 10 in
  let semi := semiRelationQuery_text (tokenizer (str "tehran")) (str "fkgr") 10 in
  tier endpoint_semi_down exact = Ret []
  /\ log (snd (relationSearch endpoint_semi_down (str "tehran") 10 w)) = [exact; semi]
  /\ fst (relationSearch endpoint_semi_down (str "tehran") 10 w)
     = Ret {| mode := str "error"; answer := [] |}
  /\ fst (relationSearch endpoint_semi_down (str "tehran") 10 w)
     <> Ret {| mode := str "semiRelationQuery"; answer := [] |}
  /\ fst (textSearch endpoint_semi_down (str "tehran") 20 w)
     = Ret {| mode := str "error"; answer := [] |}.
Proof.
  repeat split; try (vm_compute; reflexivity). vm_compute. discriminate.
Qed.

(** C2 (amended): in each strategy, when the exact-tier query yields at
    least one row, only that query is issued (and the semi-tier query is a
    different text) and the result carries the exact-tier label and those
    rows; when it yields no row, the semi-tier
    query is issued next, and the result carries the semi-tier label and
    the semi tier's rows if that query succeeds, and mode [error] with an
    empty answer if it fails. *)
Theorem tier_fallback (ep : endpoint) (query_text : pystr) (limit : Z)
    (w : world) (entity : pystr) :
  dict_get (str "entity") (prefixes (query_handler w)) = Ret entity ->
  let tokens := tokenizer query_text in
  let issued m := log (snd (m w)) in
  (forall rows,
      tier ep (relationQuery_text tokens entity limit) = Ret rows ->
      rows <> [] ->
      fst (relationSearch ep query_text limit w)
      = Ret {| mode := str "relationQuery"; answer := rows |}
      /\ issued (relationSearch ep query_text limit)
         = log w ++ [relationQuery_text tokens entity limit]
      /\ semiRelationQuery_text tokens entity limit
         <> relationQuery_text tokens entity limit)
  /\ (tier ep (relationQuery_text tokens entity limit) = Ret [] ->
      issued (relationSearch ep query_text limit)
      = log w ++ [relationQuery_text tokens entity limit;
                  semiRelationQuery_text tokens entity limit]
      /\ (forall rows,
            tier ep (semiRelationQuery_text tokens entity limit) = Ret rows ->
            fst (relationSearch ep query_text limit w)
            = Ret {| mode := str "semiRelationQuery"; answer := rows |})
      /\ (forall e,
            tier ep (semiRelationQuery_text tokens entity limit) = Raise e ->
            fst (relationSearch ep query_text limit w) = Ret error_result))
  /\ (forall rows,
      tier ep (likeQuery_text tokens entity limit) = Ret rows ->
      rows <> [] ->
      fst (textSearch ep query_text limit w)
      = Ret {| mode := str "likeQuery"; answer := rows |}
      /\ issued (textSearch ep query_text limit)
         = log w ++ [likeQuery_text tokens entity limit]
      /\ semiLikeQuery_text tokens entity limit
         <> likeQuery_text tokens entity limit)
  /\ (tier ep (likeQuery_text tokens entity limit) = Ret [] ->
      issued (textSearch ep query_text limit)
      = log w ++ [likeQuery_text tokens entity limit;
                  semiLikeQuery_text tokens entity limit]
      /\ (forall rows,
            tier ep (semiLikeQuery_text tokens entity limit) = Ret rows ->
            fst (textSearch ep query_text limit w)
            = Ret {| mode := str "semiLikeQuery"; answer := rows |})
      /\ (forall e,
            tier ep (semiLikeQuery_text tokens entity limit) = Raise e ->
            fst (textSearch ep query_text limit w) = Ret error_result)).
Proof.
  intros H tokens issued. subst issued tokens. cbv beta.
  rewrite (relationSearch_run ep query_text limit w entity H).
  rewrite (textSearch_run ep query_text limit w entity H).
  cbv zeta. split; [|split; [|split]].
  - intros rows Ht Hne. rewrite Ht. destruct rows; [congruence|].
    split; [reflexivity|]. split; [reflexivity | apply relation_tiers_differ].
  - intros Ht. rewrite Ht. split; [reflexivity|]. split.
    + intros rows Hs; rewrite Hs; reflexivity.
    + intros e Hs; rewrite Hs; reflexivity.
  - intros rows Ht Hne. rewrite Ht. destruct rows; [congruence|].
    split; [reflexivity|]. split; [reflexivity | apply like_tiers_differ].
  - intros Ht. rewrite Ht. split; [reflexivity|]. split.
    + intros rows Hs; rewrite Hs; reflexivity.
    + intros e Hs; rewrite Hs; reflexivity.
Qed.

Lemma tier_fallback_witness :
  fst (relationSearch endpoint_tehran (str "Tehran") 10 (initial_world []))
  = Ret {| mode := str "relationQuery"; answer := [tehran] |}
  /\ log (snd (relationSearch endpoint_tehran (str "Tehran") 10 (initial_world [])))
     = [relationQuery_text (tokenizer (str "Tehran")) (str "fkgr") 10].
Proof.
  destruct (tier_fallback endpoint_tehran (str "Tehran") 10 (initial_world [])
              (str "fkgr") eq_refl) as (H1 & _).
  destruct (H1 [tehran]) as (Hr & Hl & _); [vm_compute; reflexivity | discriminate |].
  split; [exact Hr | exact Hl].
Defined.

(** ** Computations that leave the handler alone *)

Lemma preserves_ret {A} (a : A) : preserves_handler (ret a).
Proof. intros w; reflexivity. Qed.

Lemma preserves_throw {A} (e : exn) : preserves_handler (@throw A e).
Proof. intros w; reflexivity. Qed.

Lemma preserves_lift {A} (o : outcome A) : preserves_handler (lift o).
Proof. intros w; reflexivity. Qed.

Lemma preserves_get_self : preserves_handler get_self.
Proof. intros w; reflexivity. Qed.

Lemma preserves_bind {A B} (m : M A) (k : A -> M B) :
  preserves_handler m -> (forall a, preserves_handler (k a)) ->
  preserves_handler (bind m k).
Proof.
  intros Hm Hk w. unfold bind. specialize (Hm w).
  destruct (m w) as [[a|e] w']; simpl in *; [|assumption].
  now rewrite Hk.
Qed.

Lemma preserves_query_convert (ep : endpoint) (query : pystr) :
  preserves_handler (query_convert ep query).
Proof. intros w; reflexivity. Qed.

Create HintDb frame.
#[local] Hint Resolve preserves_ret preserves_throw preserves_lift
  preserves_get_self preserves_query_convert : frame.

Ltac frame :=
  repeat first [ solve [auto with frame] | apply preserves_bind; [|intro] ].

Lemma preserves_runSPARQL (ep : endpoint) (query : pystr) :
  preserves_handler (runSPARQL ep query).
Proof. unfold runSPARQL; frame. Qed.

Lemma preserves_prefix (key : string) : preserves_handler (prefix key).
Proof. unfold prefix; frame. Qed.

#[local] Hint Resolve preserves_runSPARQL preserves_prefix : frame.

Lemma preserves_relax (ep : endpoint) (list_of_set : list pystr -> list pystr)
    (categoriesQL0 : pystr) (category : list (pystr * Q)) (entity : pystr)
    (num : nat) (sim_ents : list pystr) :
  preserves_handler (relax ep list_of_set categoriesQL0 category entity num sim_ents).
Proof.
  revert sim_ents; induction num as [|num IH]; intros sim_ents; simpl; frame.
  destruct (1 <? _); [frame | apply IH].
Qed.

#[local] Hint Resolve preserves_relax : frame.

Lemma preserves_getSimilarEntries (ep : endpoint)
    (list_of_set : list pystr -> list pystr) (ontology : list pystr)
    (category : list (pystr * Q)) (entity : pystr) :
  preserves_handler (getSimilarEntries ep list_of_set ontology category entity).
Proof. unfold getSimilarEntries; destruct (3 <? _); frame. Qed.

#[local] Hint Resolve preserves_getSimilarEntries : frame.

Lemma preserves_getEntityInformation (ep : endpoint)
    (list_of_set : list pystr -> list pystr) (entity_uri : pystr) :
  preserves_handler (getEntityInformation ep list_of_set entity_uri).
Proof. unfold getEntityInformation; frame. Qed.

#[local] Hint Resolve preserves_getEntityInformation : frame.

Lemma preserves_mapM {A B} (f : A -> M B) (l : list A) :
  (forall a, preserves_handler (f a)) -> preserves_handler (mapM f l).
Proof. intros Hf; induction l as [|a l IH]; simpl; frame. Qed.

(** ** The search stage *)

Lemma relationSearch_handler (ep : endpoint) (query_text : pystr) (limit : Z)
    (w : world) :
  let h := query_handler w in
  let r := relation_outcome ep (prefixes h) query_text limit in
  fst (relationSearch ep query_text limit w) = Ret r
  /\ query_handler (snd (relationSearch ep query_text limit w))
     = {| instance2labels := instance2labels h;
          prefixes := prefixes h;
          relation_results := Some r;
          text_results := text_results h |}.
Proof.
  intros h r. subst h r. unfold relation_outcome.
  destruct (dict_get (str "entity") (prefixes (query_handler w))) as [entity|e] eqn:H.
  - rewrite (relationSearch_run ep query_text limit w entity H). split; reflexivity.
  - rewrite (relationSearch_no_prefix ep query_text limit w e H). split; reflexivity.
Qed.

Lemma textSearch_handler (ep : endpoint) (query_text : pystr) (limit : Z)
    (w : world) :
  let h := query_handler w in
  let r := text_outcome ep (prefixes h) query_text limit in
  fst (textSearch ep query_text limit w) = Ret r
  /\ query_handler (snd (textSearch ep query_text limit w))
     = {| instance2labels := instance2labels h;
          prefixes := prefixes h;
          relation_results := relation_results h;
          text_results := Some r |}.
Proof.
  intros h r. subst h r. unfold text_outcome.
  destruct (dict_get (str "entity") (prefixes (query_handler w))) as [entity|e] eqn:H.
  - rewrite (textSearch_run ep query_text limit w entity H). split; reflexivity.
  - rewrite (textSearch_no_prefix ep query_text limit w e H). split; reflexivity.
Qed.

(** The search stage never raises and stores both results. *)
Lemma dispatch_run (ep : endpoint) (query_text : pystr) (w : world) :
  let h := query_handler w in
  fst (dispatch ep query_text w) = Ret tt
  /\ query_handler (snd (dispatch ep query_text w))
     = with_results h (relation_outcome ep (prefixes h) query_text 10)
         (text_outcome ep (prefixes h) query_text 20).
Proof.
  intros h. subst h. unfold dispatch, bind, run_thread. simpl.
  destruct (textSearch_handler ep query_text 20
              (snd (relationSearch ep query_text 10 w))) as [_ Ht].
  destruct (relationSearch_handler ep query_text 10 w) as [_ Hr].
  split; [reflexivity|]. rewrite Ht, Hr. reflexivity.
Qed.

(** Whichever thread runs first, the stored results are the same. *)
Lemma dispatch_order_irrelevant (ep : endpoint) (query_text : pystr) (w : world) :
  query_handler (snd (dispatch_text_first ep query_text w))
  = query_handler (snd (dispatch ep query_text w)).
Proof.
  destruct (dispatch_run ep query_text w) as [_ ->].
  unfold dispatch_text_first, bind, run_thread. simpl.
  destruct (relationSearch_handler ep query_text 10
              (snd (textSearch ep query_text 20 w))) as [_ Hr].
  destruct (textSearch_handler ep query_text 20 w) as [_ Ht].
  rewrite Hr, Ht. reflexivity.
Qed.

Lemma relationSearch_try_raises (ep : endpoint) (query_text : pystr) (limit : Z)
    (w : world) (e : exn) :
  fst (relationSearch_try ep query_text limit w) = Raise e ->
  relation_outcome ep (prefixes (query_handler w)) query_text limit = error_result.
Proof.
  intros H. destruct (relationSearch_handler ep query_text limit w) as [Hr _].
  unfold relationSearch, try_except in Hr.
  destruct (relationSearch_try ep query_text limit w) as [[r|e'] w']; simpl in *;
    [discriminate|].
  cbv in Hr. injection Hr as Hr. symmetry; exact Hr.
Qed.

Lemma textSearch_try_raises (ep : endpoint) (query_text : pystr) (limit : Z)
    (w : world) (e : exn) :
  fst (textSearch_try ep query_text limit w) = Raise e ->
  text_outcome ep (prefixes (query_handler w)) query_text limit = error_result.
Proof.
  intros H. destruct (textSearch_handler ep query_text limit w) as [Hr _].
  unfold textSearch, try_except in Hr.
  destruct (textSearch_try ep query_text limit w) as [[r|e'] w']; simpl in *;
    [discriminate|].
  cbv in Hr. injection Hr as Hr. symmetry; exact Hr.
Qed.

(** A strategy's result depends on the endpoint only through the
    strategy's own two queries. *)
Lemma text_outcome_ext (ep ep' : endpoint) (prefixes : dict pystr)
    (query_text : pystr) (limit : Z) :
  (forall entity,
      ep (likeQuery_text (tokenizer query_text) entity limit)
      = ep' (likeQuery_text (tokenizer query_text) entity limit)
      /\ ep (semiLikeQuery_text (tokenizer query_text) entity limit)
         = ep' (semiLikeQuery_text (tokenizer query_text) entity limit)) ->
  text_outcome ep prefixes query_text limit
  = text_outcome ep' prefixes query_text limit.
Proof.
  intros H. unfold text_outcome, tier.
  destruct (dict_get (str "entity") prefixes) as [entity|]; [|reflexivity].
  destruct (H entity) as [-> ->]. reflexivity.
Qed.

Lemma relation_outcome_ext (ep ep' : endpoint) (prefixes : dict pystr)
    (query_text : pystr) (limit : Z) :
  (forall entity,
      ep (relationQuery_text (tokenizer query_text) entity limit)
      = ep' (relationQuery_text (tokenizer query_text) entity limit)
      /\ ep (semiRelationQuery_text (tokenizer query_text) entity limit)
         = ep' (semiRelationQuery_text (tokenizer query_text) entity limit)) ->
  relation_outcome ep prefixes query_text limit
  = relation_outcome ep' prefixes query_text limit.
Proof.
  intros H. unfold relation_outcome, tier.
  destruct (dict_get (str "entity") prefixes) as [entity|]; [|reflexivity].
  destruct (H entity) as [-> ->]. reflexivity.
Qed.

Lemma bind_run {A B} (m : M A) (k : A -> M B) (w w' : world) (a : A) :
  m w = (Ret a, w') -> bind m k w = k a w'.
Proof. intros H; unfold bind; now rewrite H. Qed.

Lemma bind_raise {A B} (m : M A) (k : A -> M B) (w w' : world) (e : exn) :
  m w = (Raise e, w') -> bind m k w = (Raise e, w').
Proof. intros H; unfold bind; now rewrite H. Qed.

Lemma get_relation_results_run (w : world) (r : result_set) :
  relation_results (query_handler w) = Some r ->
  get_relation_results w = (Ret r, w).
Proof.
  intros H. unfold get_relation_results, bind, get_self. now rewrite H.
Qed.

Lemma get_text_results_run (w : world) (r : result_set) :
  text_results (query_handler w) = Some r ->
  get_text_results w = (Ret r, w).
Proof.
  intros H. unfold get_text_results, bind, get_self. now rewrite H.
Qed.

(** The modes of a final answer are the modes the search stage stored. *)
Lemma runQuery_modes (ep : endpoint) (list_of_set : list pystr -> list pystr)
    (query_text : pystr) (w : world) (fa : final_answer) :
  fst (runQuery ep list_of_set query_text w) = Ret fa ->
  let h := query_handler w in
  relation_mode fa = mode (relation_outcome ep (prefixes h) query_text 10)
  /\ text_mode fa = mode (text_outcome ep (prefixes h) query_text 20).
Proof.
  intros H h. subst h.
  destruct (dispatch_run ep query_text w) as [Hd Hh].
  unfold runQuery in H.
  destruct (dispatch ep query_text w) as [o w1] eqn:Ed; simpl in Hd, Hh; subst o.
  rewrite (bind_run _ _ _ _ _ Ed) in H.
  assert (Hr : forall w', query_handler w' = query_handler w1 ->
                 get_relation_results w'
                 = (Ret (relation_outcome ep (prefixes (query_handler w)) query_text 10), w')).
  { intros w' E. apply get_relation_results_run. rewrite E, Hh. reflexivity. }
  assert (Ht : forall w', query_handler w' = query_handler w1 ->
                 get_text_results w'
                 = (Ret (text_outcome ep (prefixes (query_handler w)) query_text 20), w')).
  { intros w' E. apply get_text_results_run. rewrite E, Hh. reflexivity. }
  rewrite (bind_run _ _ _ _ _ (Hr w1 eq_refl)) in H.
  rewrite (bind_run _ _ _ _ _ (Ht w1 eq_refl)) in H.
  unfold bind at 1 in H. unfold lift at 1 in H.
  destruct (mergeResults _ _ _) as [merge_results|e]; [|discriminate].
  pose proof (preserves_mapM
                (fun entity =>
                   bind (getEntityInformation ep list_of_set entity)
                     (fun info => ret (entity, info)))
                (removeBadLinks merge_results query_text)) as Hm.
  specialize (Hm ltac:(intro; frame) w1).
  destruct (mapM _ _ w1) as [[answer|e] w2] eqn:Em; simpl in Hm.
  - rewrite (bind_run _ _ _ _ _ Em) in H.
    rewrite (bind_run _ _ _ _ _ (Hr w2 Hm)) in H.
    rewrite (bind_run _ _ _ _ _ (Ht w2 Hm)) in H.
    simpl in H. injection H as <-. split; reflexivity.
  - rewrite (bind_raise _ _ _ _ _ Em) in H. discriminate.
Qed.

(** Failure containment without interleaving: on the schedule that runs the
    relation thread to its end before the text thread takes a step, the
    search stage never raises. When the [try] block of one strategy raises,
    that strategy's stored result is mode [error] with an empty answer, and
    the other strategy's stored result is what it is for any endpoint that
    answers the other strategy's two queries alike (so also for one where
    the first strategy succeeds); a final answer reports exactly these
    modes. The schedules on which the threads interleave are the subject of
    [dispatch_threads]. *)
Theorem strategy_failure_is_contained (ep ep' : endpoint)
    (list_of_set : list pystr -> list pystr) (query_text : pystr) (w : world) :
  let stored e := query_handler (snd (dispatch e query_text w)) in
  fst (dispatch ep query_text w) = Ret tt
  /\ ((exists e, fst (relationSearch_try ep query_text 10 w) = Raise e) ->
      (forall entity,
          ep (likeQuery_text (tokenizer query_text) entity 20)
          = ep' (likeQuery_text (tokenizer query_text) entity 20)
          /\ ep (semiLikeQuery_text (tokenizer query_text) entity 20)
             = ep' (semiLikeQuery_text (tokenizer query_text) entity 20)) ->
      relation_results (stored ep) = Some error_result
      /\ text_results (stored ep) = text_results (stored ep')
      /\ forall fa,
           fst (runQuery ep list_of_set query_text w) = Ret fa ->
           relation_mode fa = str "error"
           /\ option_map mode (text_results (stored ep')) = Some (text_mode fa))
  /\ ((exists e, fst (textSearch_try ep query_text 20 w) = Raise e) ->
      (forall entity,
          ep (relationQuery_text (tokenizer query_text) entity 10)
          = ep' (relationQuery_text (tokenizer query_text) entity 10)
          /\ ep (semiRelationQuery_text (tokenizer query_text) entity 10)
             = ep' (semiRelationQuery_text (tokenizer query_text) entity 10)) ->
      text_results (stored ep) = Some error_result
      /\ relation_results (stored ep) = relation_results (stored ep')
      /\ forall fa,
           fst (runQuery ep list_of_set query_text w) = Ret fa ->
           text_mode fa = str "error"
           /\ option_map mode (relation_results (stored ep')) = Some (relation_mode fa)).
Proof.
  intros stored. subst stored. cbv beta.
  destruct (dispatch_run ep query_text w) as [Hd Hh].
  destruct (dispatch_run ep' query_text w) as [_ Hh'].
  rewrite Hh, Hh'. simpl.
  split; [exact Hd|]. split.
  - intros [e He] Hagree.
    rewrite (relationSearch_try_raises ep query_text 10 w e He).
    rewrite (text_outcome_ext ep ep' _ _ _ Hagree).
    split; [reflexivity|]. split; [reflexivity|].
    intros fa Hfa. destruct (runQuery_modes ep list_of_set query_text w fa Hfa) as [Hr Ht].
    rewrite Hr, Ht, (relationSearch_try_raises ep query_text 10 w e He).
    rewrite (text_outcome_ext ep ep' _ _ _ Hagree). split; reflexivity.
  - intros [e He] Hagree.
    rewrite (textSearch_try_raises ep query_text 20 w e He).
    rewrite (relation_outcome_ext ep ep' _ _ _ Hagree).
    split; [reflexivity|]. split; [reflexivity|].
    intros fa Hfa. destruct (runQuery_modes ep list_of_set query_text w fa Hfa) as [Hr Ht].
    rewrite Hr, Ht, (textSearch_try_raises ep query_text 20 w e He).
    rewrite (relation_outcome_ext ep ep' _ _ _ Hagree). split; reflexivity.
Qed.

Lemma strategy_failure_is_contained_witness :
  let w := initial_world [(city, str "City")] in
  fst (relationSearch_try endpoint_relation_down (str "Tehran") 10 w)
  = Raise EndpointFailure
  /\ relation_results
       (query_handler (snd (dispatch endpoint_relation_down (str "Tehran") w)))
     = Some error_result
  /\ text_results
       (query_handler (snd (dispatch endpoint_relation_down (str "Tehran") w)))
     = text_results
         (query_handler (snd (dispatch endpoint_tehran (str "Tehran") w))).
Proof.
  intros w.
  assert (Hraise : fst (relationSearch_try endpoint_relation_down (str "Tehran") 10 w)
                   = Raise EndpointFailure) by (vm_compute; reflexivity).
  split; [exact Hraise|].
  destruct (strategy_failure_is_contained endpoint_relation_down endpoint_tehran
              (fun l => l) (str "Tehran") w) as (_ & H & _).
  destruct H as (H1 & H2 & _).
  - exists EndpointFailure; exact Hraise.
  - intros entity; split; reflexivity.
  - split; [exact H1 | exact H2].
Defined.

(** ** Construction and mode update *)

Lemma QueryRunner_init_run (ep : endpoint) (prefixes : dict pystr) (w : world) :
  QueryRunner_init ep prefixes w
  = (match index_build ep with
     | Ret index => Ret (fresh_instance index prefixes)
     | Raise e => Raise e
     end,
     issue [instance2labels_query] w).
Proof.
  unfold QueryRunner_init, QueryRunner_instance2labels, runSPARQL_raw,
    query_convert, bind, lift, index_build.
  destruct (ep instance2labels_query) as [results|]; [|reflexivity].
  destruct (collect_labels (bindings results) []); reflexivity.
Qed.

Lemma update_mode_run (ep : endpoint) (mode : dict pystr) (w : world) :
  update_mode ep mode w
  = match index_build ep with
    | Ret index =>
        (Ret tt,
         {| log := log w ++ [instance2labels_query];
            query_handler := fresh_instance index mode |})
    | Raise e => (Raise e, issue [instance2labels_query] w)
    end.
Proof.
  unfold update_mode, bind. rewrite QueryRunner_init_run.
  destruct (index_build ep); reflexivity.
Qed.

Lemma set_mode_run (ep : endpoint) (mode : dict pystr) (w : world) :
  set_mode ep mode w
  = match index_build ep with
    | Ret index =>
        (Ret {| content := json_dumps (str "success"); status_code := 200 |},
         {| log := log w ++ [instance2labels_query];
            query_handler := fresh_instance index mode |})
    | Raise e =>
        (Ret {| content := json_dumps (str "failed"); status_code := 401 |},
         issue [instance2labels_query] w)
    end.
Proof.
  unfold set_mode, try_except, bind. rewrite update_mode_run.
  destruct (index_build ep); reflexivity.
Qed.

(** C9: when the construction of the new instance raises (as it does when
    the index-build query fails), [update_mode] raises the same exception,
    [set_mode] answers [failed] with status 401, and the active instance is
    the one that was active before, unchanged; when the construction
    returns an instance, that instance, holding the complete index and the
    requested prefixes, is the active one, and [set_mode] answers
    [success]. *)
Theorem update_mode_atomic (ep : endpoint) (mode : dict pystr) (w : world) :
  (ep instance2labels_query = None ->
   fst (QueryRunner_init ep mode w) = Raise EndpointFailure)
  /\ (forall e,
        fst (QueryRunner_init ep mode w) = Raise e ->
        fst (update_mode ep mode w) = Raise e
        /\ query_handler (snd (update_mode ep mode w)) = query_handler w
        /\ fst (set_mode ep mode w)
           = Ret {| content := json_dumps (str "failed"); status_code := 401 |}
        /\ query_handler (snd (set_mode ep mode w)) = query_handler w)
  /\ (forall h,
        fst (QueryRunner_init ep mode w) = Ret h ->
        fst (update_mode ep mode w) = Ret tt
        /\ query_handler (snd (update_mode ep mode w)) = h
        /\ index_build ep = Ret (instance2labels h)
        /\ prefixes h = mode
        /\ fst (set_mode ep mode w)
           = Ret {| content := json_dumps (str "success"); status_code := 200 |}
        /\ query_handler (snd (set_mode ep mode w)) = h).
Proof.
  rewrite QueryRunner_init_run, update_mode_run, set_mode_run. simpl fst.
  split; [|split].
  - intros H. unfold index_build. now rewrite H.
  - intros e H. destruct (index_build ep) as [index|e']; [discriminate|].
    injection H as ->. repeat split.
  - intros h H. destruct (index_build ep) as [index|e']; [|discriminate].
    injection H as <-. repeat split.
Qed.

Lemma update_mode_atomic_witness :
  (fst (update_mode endpoint_down other_prefixes (initial_world [])) = Raise EndpointFailure
   /\ query_handler (snd (update_mode endpoint_down other_prefixes (initial_world [])))
      = query_handler (initial_world []))
  /\ query_handler (snd (update_mode endpoint_index other_prefixes (initial_world [])))
     = fresh_instance [(city, str "City")] other_prefixes.
Proof.
  destruct (update_mode_atomic endpoint_down other_prefixes (initial_world []))
    as (H0 & Hfail & _).
  destruct (Hfail EndpointFailure (H0 eq_refl)) as (H1 & H2 & _).
  destruct (update_mode_atomic endpoint_index other_prefixes (initial_world []))
    as (_ & _ & Hok).
  destruct (Hok (fresh_instance [(city, str "City")] other_prefixes))
    as (_ & H3 & _); [vm_compute; reflexivity|].
  split; [split; [exact H1 | exact H2] | exact H3].
Defined.

(** ** Float rounding *)

Section FloatRounding.

Local Open Scope Q_scope.

Lemma pow2_pos (k : Z) : 0 < pow2 k.
Proof. apply Qpower_0_lt. reflexivity. Qed.

Lemma pow2_add (a b : Z) : pow2 (a + b) == pow2 a * pow2 b.
Proof. apply Qpower_plus. discriminate. Qed.

Lemma pow2_le (a b : Z) : (a <= b)%Z -> pow2 a <= pow2 b.
Proof. intros H. apply Qpower_le_compat_l; [exact H | discriminate]. Qed.

Lemma pow2_inject (a : Z) : (0 <= a)%Z -> inject_Z (2 ^ a) == pow2 a.
Proof. intros H. apply (Zpower_Qpower 2 a H). Qed.

Lemma floor_log2_spec (q : Q) :
  0 < q -> pow2 (floor_log2 q) <= q /\ q < pow2 (floor_log2 q + 1).
Proof.
  intros Hq. destruct q as [n d]. unfold floor_log2. cbn [Qnum Qden].
  assert (Hn : (0 < n)%Z) by (unfold Qlt in Hq; simpl in Hq; lia).
  set (a := Z.log2 n). set (b := Z.log2 (Zpos d)).
  assert (Ha : (0 <= a)%Z) by apply Z.log2_nonneg.
  assert (Hb : (0 <= b)%Z) by apply Z.log2_nonneg.
  destruct (Z.log2_spec n Hn) as [Ha1 Ha2]. fold a in Ha1, Ha2.
  destruct (Z.log2_spec (Zpos d) eq_refl) as [Hb1 Hb2]. fold b in Hb1, Hb2.
  assert (HD : 0 < inject_Z (Zpos d)) by reflexivity.
  assert (Eq : (n # d) * inject_Z (Zpos d) == inject_Z n).
  { rewrite (Qmake_Qdiv n d). field. discriminate. }
  assert (Hup : n # d < pow2 (a - b + 1)).
  { apply (Qmult_lt_r _ _ _ HD). rewrite Eq.
    apply Qlt_le_trans with (pow2 (a + 1)).
    - rewrite <- pow2_inject by lia. rewrite <- Zlt_Qlt. exact Ha2.
    - replace (a + 1)%Z with ((a - b + 1) + b)%Z by lia. rewrite pow2_add.
      apply Qmult_le_l; [apply pow2_pos|].
      rewrite <- pow2_inject by lia. rewrite <- Zle_Qle. exact Hb1. }
  assert (Hlow : pow2 (a - b - 1) < n # d).
  { apply (Qmult_lt_r _ _ _ HD). rewrite Eq.
    apply Qlt_le_trans with (pow2 a).
    - replace a with ((a - b - 1) + (b + 1))%Z at 2 by lia. rewrite pow2_add.
      apply Qmult_lt_l; [apply pow2_pos|].
      rewrite <- pow2_inject by lia. rewrite <- Zlt_Qlt. exact Hb2.
    - rewrite <- pow2_inject by lia. rewrite <- Zle_Qle. exact Ha1. }
  destruct (Qle_bool (pow2 (a - b)) (n # d)) eqn:E.
  - apply Qle_bool_iff in E. split; assumption.
  - assert (Hlt : n # d < pow2 (a - b)).
    { apply Qnot_le_lt. intros H. apply Qle_bool_iff in H. congruence. }
    split; [apply Qlt_le_weak; exact Hlow|].
    replace (a - b - 1 + 1)%Z with (a - b)%Z by lia. exact Hlt.
Qed.

Lemma round_half_even_range (x : Q) :
  (Qfloor x <= round_half_even x <= Qfloor x + 1)%Z.
Proof.
  unfold round_half_even.
  destruct (Qcompare (x - inject_Z (Qfloor x)) (1 # 2)); [|lia|lia].
  destruct (Z.even (Qfloor x)); lia.
Qed.

Lemma round_half_even_Z (n : Z) : round_half_even (inject_Z n) = n.
Proof.
  unfold round_half_even. rewrite Qfloor_Z.
  assert (E : inject_Z n - inject_Z n == 0) by ring.
  rewrite E. reflexivity.
Qed.

Lemma round_half_even_mono (t u : Q) :
  t <= u -> (round_half_even t <= round_half_even u)%Z.
Proof.
  intros H. pose proof (Qfloor_resp_le _ _ H) as Hf.
  pose proof (round_half_even_range t) as Rt.
  pose proof (round_half_even_range u) as Ru.
  destruct (Z.eq_dec (Qfloor t) (Qfloor u)) as [E|NE]; [|lia].
  unfold round_half_even in *. rewrite E in *.
  destruct (Qcompare (t - inject_Z (Qfloor u)) (1 # 2)) eqn:Ct;
    destruct (Qcompare (u - inject_Z (Qfloor u)) (1 # 2)) eqn:Cu;
    try lia; try (destruct (Z.even (Qfloor u)); lia).
  - (* t at the half, u below *)
    apply Qeq_alt in Ct. apply Qlt_alt in Cu. exfalso.
    assert (u < t) by lra. lra.
  - (* t above, u at the half *)
    apply Qgt_alt in Ct. apply Qeq_alt in Cu. exfalso. lra.
  - apply Qgt_alt in Ct. apply Qlt_alt in Cu. exfalso. lra.
Qed.

Lemma round_half_even_nonneg (x : Q) : 0 <= x -> (0 <= round_half_even x)%Z.
Proof.
  intros H. rewrite <- (round_half_even_Z 0). now apply round_half_even_mono.
Qed.

Lemma round_pos_unfold (q : Q) :
  round_pos q = inject_Z (mantissa q) * pow2 (exponent q).
Proof. reflexivity. Qed.

Lemma pow2_lt_inv (a b : Z) : pow2 a < pow2 b -> (a < b)%Z.
Proof.
  intros H. destruct (Z_lt_le_dec a b) as [L|L]; [exact L|].
  apply pow2_le in L. exfalso. apply (Qlt_irrefl (pow2 a)).
  now apply Qlt_le_trans with (pow2 b).
Qed.

Lemma floor_log2_mono (x y : Q) : 0 < x -> x <= y -> (floor_log2 x <= floor_log2 y)%Z.
Proof.
  intros Hx Hxy. destruct (floor_log2_spec x Hx) as [Lx _].
  destruct (floor_log2_spec y) as [_ Uy]; [now apply Qlt_le_trans with x|].
  assert (H : pow2 (floor_log2 x) < pow2 (floor_log2 y + 1)).
  { apply Qle_lt_trans with x; [exact Lx|]. now apply Qle_lt_trans with y. }
  apply pow2_lt_inv in H. lia.
Qed.

Lemma exponent_mono (x y : Q) : 0 < x -> x <= y -> (exponent x <= exponent y)%Z.
Proof.
  intros Hx Hxy. pose proof (floor_log2_mono x y Hx Hxy). unfold exponent. lia.
Qed.

Lemma scaled_le (x : Q) (e : Z) (b : Q) : x <= b * pow2 e -> x / pow2 e <= b.
Proof.
  intros H. apply Qle_shift_div_r; [apply pow2_pos | exact H].
Qed.

Lemma scaled_ge (x : Q) (e : Z) (b : Q) : b * pow2 e <= x -> b <= x / pow2 e.
Proof.
  intros H. apply Qle_shift_div_l; [apply pow2_pos | exact H].
Qed.

(** The mantissa has at most 53 bits. *)
Lemma mantissa_upper (q : Q) : 0 < q -> (mantissa q <= 2 ^ 53)%Z.
Proof.
  intros Hq. unfold mantissa.
  rewrite <- (round_half_even_Z (2 ^ 53)). apply round_half_even_mono.
  apply scaled_le. rewrite (pow2_inject 53) by lia. rewrite <- pow2_add.
  destruct (floor_log2_spec q Hq) as [_ U].
  apply Qlt_le_weak, Qlt_le_trans with (pow2 (floor_log2 q + 1)); [exact U|].
  apply pow2_le. unfold exponent. lia.
Qed.

Lemma round_pos_upper (q : Q) : 0 < q -> round_pos q <= pow2 (53 + exponent q).
Proof.
  intros Hq. rewrite round_pos_unfold, pow2_add.
  apply Qmult_le_compat_r; [|apply Qlt_le_weak, pow2_pos].
  rewrite <- (pow2_inject 53) by lia. rewrite <- Zle_Qle.
  now apply mantissa_upper.
Qed.

(** Above the subnormal range the mantissa has its leading bit. *)
Lemma normal_lower (q : Q) :
  0 < q -> (-1074 < exponent q)%Z -> pow2 (52 + exponent q) <= q.
Proof.
  intros Hq He. destruct (floor_log2_spec q Hq) as [L _].
  apply Qle_trans with (pow2 (floor_log2 q)); [|exact L].
  apply pow2_le. unfold exponent in *. lia.
Qed.

Lemma round_pos_normal_lower (q : Q) :
  0 < q -> (-1074 < exponent q)%Z -> pow2 (52 + exponent q) <= round_pos q.
Proof.
  intros Hq He. rewrite round_pos_unfold, pow2_add.
  apply Qmult_le_compat_r; [|apply Qlt_le_weak, pow2_pos].
  rewrite <- (pow2_inject 52) by lia. rewrite <- Zle_Qle.
  unfold mantissa. rewrite <- (round_half_even_Z (2 ^ 52)) at 1.
  apply round_half_even_mono. apply scaled_ge.
  rewrite (pow2_inject 52) by lia. rewrite <- pow2_add. now apply normal_lower.
Qed.

Lemma round_pos_nonneg (q : Q) : 0 < q -> 0 <= round_pos q.
Proof.
  intros Hq. rewrite round_pos_unfold.
  apply Qmult_le_0_compat; [|apply Qlt_le_weak, pow2_pos].
  change 0 with (inject_Z 0). rewrite <- Zle_Qle.
  apply round_half_even_nonneg. apply Qle_shift_div_l; [apply pow2_pos|].
  rewrite Qmult_0_l. now apply Qlt_le_weak.
Qed.

(** Rounding is monotone. *)
Lemma round_pos_mono (x y : Q) : 0 < x -> x <= y -> round_pos x <= round_pos y.
Proof.
  intros Hx Hxy. assert (Hy : 0 < y) by now apply Qlt_le_trans with x.
  pose proof (exponent_mono x y Hx Hxy) as He.
  destruct (Z.eq_dec (exponent x) (exponent y)) as [E|NE].
  - rewrite !round_pos_unfold, E.
    apply Qmult_le_compat_r; [|apply Qlt_le_weak, pow2_pos].
    rewrite <- Zle_Qle. unfold mantissa. rewrite E.
    apply round_half_even_mono.
    apply Qmult_le_compat_r; [exact Hxy|].
    apply Qlt_le_weak, Qinv_lt_0_compat, pow2_pos.
  - apply Qle_trans with (pow2 (53 + exponent x)); [now apply round_pos_upper|].
    apply Qle_trans with (pow2 (52 + exponent y)); [apply pow2_le; lia|].
    apply round_pos_normal_lower; [exact Hy|].
    unfold exponent in *. lia.
Qed.

(** Rounding never crosses a float: what lies at or below a float rounds to
    at most that float. *)
Lemma round_pos_below (x q : Q) :
  0 < x -> 0 < q -> x <= round_pos q -> round_pos x <= round_pos q.
Proof.
  intros Hx Hq H.
  destruct (Z_le_gt_dec (exponent x) (exponent q)) as [He|He].
  - assert (EM : round_pos q
                 == inject_Z (mantissa q * 2 ^ (exponent q - exponent x))
                    * pow2 (exponent x)).
    { rewrite round_pos_unfold, inject_Z_mult, pow2_inject by lia.
      rewrite <- Qmult_assoc, <- pow2_add.
      replace (exponent q - exponent x + exponent x)%Z with (exponent q) by lia.
      reflexivity. }
    set (N := (mantissa q * 2 ^ (exponent q - exponent x))%Z) in *.
    rewrite EM in *. rewrite round_pos_unfold.
    apply Qmult_le_compat_r; [|apply Qlt_le_weak, pow2_pos].
    rewrite <- Zle_Qle. unfold mantissa.
    rewrite <- (round_half_even_Z N).
    apply round_half_even_mono. now apply scaled_le.
  - assert (Hn : (-1074 < exponent x)%Z) by (unfold exponent in *; lia).
    pose proof (normal_lower x Hx Hn) as Hlow.
    apply Qle_trans with x; [|exact H].
    apply Qle_trans with (pow2 (52 + exponent x)); [|exact Hlow].
    rewrite round_pos_unfold, pow2_add.
    apply Qmult_le_compat_r; [|apply Qlt_le_weak, pow2_pos].
    rewrite <- (pow2_inject 52) by lia. rewrite <- Zle_Qle.
    unfold mantissa. rewrite <- (round_half_even_Z (2 ^ 52)).
    apply round_half_even_mono. apply scaled_le.
    rewrite (pow2_inject 52) by lia. rewrite <- pow2_add.
    apply Qle_trans with (round_pos q); [exact H|].
    apply Qle_trans with (pow2 (53 + exponent q)); [now apply round_pos_upper|].
    apply pow2_le. lia.
Qed.

(** Nor from below: what lies at or above a float rounds to at least that
    float. *)
Lemma round_pos_above (y q : Q) :
  0 < y -> 0 < q -> round_pos q <= y -> round_pos q <= round_pos y.
Proof.
  intros Hy Hq H.
  destruct (Z_le_gt_dec (exponent y) (exponent q)) as [He|He].
  - assert (EM : round_pos q
                 == inject_Z (mantissa q * 2 ^ (exponent q - exponent y))
                    * pow2 (exponent y)).
    { rewrite round_pos_unfold, inject_Z_mult, pow2_inject by lia.
      rewrite <- Qmult_assoc, <- pow2_add.
      replace (exponent q - exponent y + exponent y)%Z with (exponent q) by lia.
      reflexivity. }
    set (N := (mantissa q * 2 ^ (exponent q - exponent y))%Z) in *.
    rewrite EM in *. rewrite (round_pos_unfold y).
    apply Qmult_le_compat_r; [|apply Qlt_le_weak, pow2_pos].
    rewrite <- Zle_Qle. unfold mantissa.
    rewrite <- (round_half_even_Z N) at 1.
    apply round_half_even_mono. now apply scaled_ge.
  - assert (Hn : (-1074 < exponent y)%Z) by (unfold exponent in *; lia).
    apply Qle_trans with (pow2 (53 + exponent q)); [now apply round_pos_upper|].
    apply Qle_trans with (pow2 (52 + exponent y)); [apply pow2_le; lia|].
    now apply round_pos_normal_lower.
Qed.

Lemma float_round_pos (q : Q) : 0 < q -> float_round q = round_pos q.
Proof.
  intros H. unfold float_round. now rewrite (proj1 (Qgt_alt q 0) H).
Qed.

Lemma float_round_neg (q : Q) : q < 0 -> float_round q = - round_pos (- q).
Proof.
  intros H. unfold float_round. now rewrite (proj1 (Qlt_alt q 0) H).
Qed.

Lemma float_round_zero (q : Q) : q == 0 -> float_round q = 0.
Proof.
  intros H. unfold float_round. now rewrite (proj1 (Qeq_alt q 0) H).
Qed.

Lemma float_round_nonneg (q : Q) : 0 <= q -> 0 <= float_round q.
Proof.
  intros H. destruct (Qlt_le_dec 0 q) as [P|P].
  - rewrite float_round_pos by exact P. now apply round_pos_nonneg.
  - rewrite float_round_zero by now apply Qle_antisym. apply Qle_refl.
Qed.

Lemma float_round_nonpos (q : Q) : q <= 0 -> float_round q <= 0.
Proof.
  intros H. destruct (Qlt_le_dec q 0) as [P|P].
  - rewrite float_round_neg by exact P.
    assert (0 <= round_pos (- q)) by (apply round_pos_nonneg; lra). lra.
  - rewrite float_round_zero by now apply Qle_antisym. apply Qle_refl.
Qed.

(** Conversion to a float is monotone. *)
Lemma float_round_mono (x y : Q) : x <= y -> float_round x <= float_round y.
Proof.
  intros H. destruct (Qlt_le_dec 0 x) as [Px|Px].
  - rewrite (float_round_pos x), (float_round_pos y) by lra.
    now apply round_pos_mono.
  - destruct (Qlt_le_dec y 0) as [Ny|Ny].
    + rewrite (float_round_neg x), (float_round_neg y) by lra.
      assert (round_pos (- y) <= round_pos (- x)) by (apply round_pos_mono; lra).
      lra.
    + apply Qle_trans with 0;
        [now apply float_round_nonpos | now apply float_round_nonneg].
Qed.

(** Equal fractions convert to the same float. *)
Lemma float_round_compat (x y : Q) : x == y -> float_round x == float_round y.
Proof.
  intros H. apply Qle_antisym; apply float_round_mono; rewrite H; apply Qle_refl.
Qed.

(** A fraction at or below a float converts to at most that float. *)
Lemma float_round_below (x q : Q) :
  x <= float_round q -> float_round x <= float_round q.
Proof.
  intros H. destruct (Qlt_le_dec 0 x) as [Px|Px].
  - assert (Pq : 0 < q).
    { apply Qnot_le_lt. intros Nq. apply float_round_nonpos in Nq. lra. }
    rewrite (float_round_pos x) by exact Px.
    rewrite (float_round_pos q) in * by exact Pq.
    now apply round_pos_below.
  - destruct (Qlt_le_dec q 0) as [Nq|Nq].
    + rewrite (float_round_neg q) in * by exact Nq.
      destruct (Qlt_le_dec x 0) as [Nx|Zx].
      * rewrite (float_round_neg x) by exact Nx.
        assert (round_pos (- q) <= round_pos (- x))
          by (apply round_pos_above; lra).
        lra.
      * rewrite (float_round_zero x) by now apply Qle_antisym.
        lra.
    + apply Qle_trans with 0;
        [now apply float_round_nonpos | now apply float_round_nonneg].
Qed.

(** Rounding commutes with negation. *)
Lemma float_round_opp (q : Q) : float_round (- q) == - float_round q.
Proof.
  destruct (Qlt_le_dec 0 q) as [P|P].
  - rewrite (float_round_neg (- q)), (float_round_pos q) by lra.
    assert (E : round_pos (- - q) = round_pos q).
    { destruct q as [n d]. unfold Qopp. cbn [Qnum Qden]. now rewrite Z.opp_involutive. }
    rewrite E. reflexivity.
  - destruct (Qlt_le_dec q 0) as [N|N].
    + rewrite (float_round_pos (- q)), (float_round_neg q) by lra. ring.
    + rewrite (float_round_zero (- q)), (float_round_zero q) by lra. reflexivity.
Qed.

(** A fraction at or above a float converts to at least that float. *)
Lemma float_round_above (y q : Q) :
  float_round q <= y -> float_round q <= float_round y.
Proof.
  intros H.
  assert (H' : - y <= float_round (- q)) by (rewrite float_round_opp; lra).
  apply float_round_below in H'. rewrite !float_round_opp in H'. lra.
Qed.

(** A float converts to itself. *)
Lemma float_round_idempotent (q : Q) : float_round (float_round q) == float_round q.
Proof.
  apply Qle_antisym.
  - apply float_round_below, Qle_refl.
  - apply float_round_above, Qle_refl.
Qed.

(** The rounding on some fractions, with the values of the floats that
    CPython computes for them: 1/10, 1/3, the quotients 7/51, 3/36 and 1/34,
    and the mean of the last three as floats. *)
Lemma float_round_examples :
  float_round (1 # 10) == 3602879701896397 # 36028797018963968
  /\ float_round (1 # 3) == 6004799503160661 # 18014398509481984
  /\ float_round (7 # 51) == 2472564501301449 # 18014398509481984
  /\ float_round (3 # 36) == 6004799503160661 # 72057594037927936
  /\ float_round (1 # 34) == 4238682002231055 # 144115188075855872
  /\ float_round
       (exact_mean
          [float_round (7 # 51); float_round (3 # 36); float_round (1 # 34)])
     == 3002399751580331 # 36028797018963968.
Proof.
  repeat split; vm_compute; reflexivity.
Qed.

End FloatRounding.

(** ** Top categories *)

Lemma Qsum_le_bound (l : list Q) (s : Q) :
  (forall x, In x l -> (x <= s)%Q) ->
  (fold_right Qplus 0 l <= s * inject_Z (Z.of_nat (length l)))%Q.
Proof.
  induction l as [|x l IH]; intros H.
  - simpl. rewrite Qmult_0_r. apply Qle_refl.
  - change (length (x :: l)) with (S (length l)).
    rewrite Nat2Z.inj_succ, <- Z.add_1_r, inject_Z_plus.
    simpl fold_right.
    setoid_replace (s * (inject_Z (Z.of_nat (length l)) + inject_Z 1))%Q
      with (s + s * inject_Z (Z.of_nat (length l)))%Q by (simpl; ring).
    apply Qplus_le_compat; [apply H; now left|].
    apply IH. intros y Hy; apply H; now right.
Qed.

Lemma length_positive_Q {A} (l : list A) :
  l <> [] -> (0 < inject_Z (Z.of_nat (length l)))%Q.
Proof.
  intros H. destruct l as [|a l]; [congruence|].
  change 0%Q with (inject_Z 0). rewrite <- Zlt_Qlt. simpl length. lia.
Qed.

(** The defining equation of the mean of a non-empty list. *)
Lemma exact_mean_spec (data : list Q) :
  data <> [] ->
  (exact_mean data * inject_Z (Z.of_nat (length data))
   == fold_right Qplus 0 data)%Q.
Proof.
  intros H. pose proof (length_positive_Q data H) as Hpos.
  unfold exact_mean. field.
  intros E. rewrite E in Hpos. now apply Qlt_irrefl in Hpos.
Qed.

(** The mean is at most any bound of the data. *)
Lemma exact_mean_le_bound (data : list Q) (s : Q) :
  data <> [] ->
  (forall x, In x data -> (x <= s)%Q) ->
  (exact_mean data <= s)%Q.
Proof.
  intros Hne Hs. pose proof (length_positive_Q data Hne) as Hpos.
  pose proof (Qsum_le_bound data s Hs) as Hsum.
  rewrite <- (exact_mean_spec data Hne) in Hsum.
  apply Qmult_le_r in Hsum; assumption.
Qed.

(** [statistics.mean] of a non-empty list is its mean, rounded once. *)
Lemma mean_defined (data : list Q) :
  data <> [] -> mean data = Ret (float_round (exact_mean data)).
Proof.
  intros H. destruct data as [|x data]; [congruence | reflexivity].
Qed.

(** The computed mean is at most any float that bounds the data: the
    rounding of the mean never crosses a float. *)
Lemma mean_le_float (data : list Q) (q : Q) :
  data <> [] ->
  (forall x, In x data -> (x <= float_round q)%Q) ->
  (float_round (exact_mean data) <= float_round q)%Q.
Proof.
  intros Hne Hs. apply float_round_below.
  now apply exact_mean_le_bound.
Qed.

Lemma float_scores_nonempty (sorted_category : list (pystr * Q)) :
  sorted_category <> [] -> float_scores sorted_category <> [].
Proof.
  destruct sorted_category; [congruence | discriminate].
Qed.

Lemma float_scores_In (sorted_category : list (pystr * Q)) (x : Q) :
  In x (float_scores sorted_category) ->
  exists c s, In (c, s) sorted_category /\ x = float_round s.
Proof.
  unfold float_scores. intros H.
  apply in_map_iff in H as ([c s] & <- & H). now exists c, s.
Qed.

(** The categories kept for a threshold [m]. *)
Lemma reaching_In (m : Q) (sorted_category : list (pystr * Q)) (c : pystr) :
  In c (map fst (filter (fun i => Qle_bool m (float_round (snd i)))
                   sorted_category))
  <-> exists s, In (c, s) sorted_category /\ (m <= float_round s)%Q.
Proof.
  rewrite in_map_iff. split.
  - intros ([c' s] & <- & H). apply filter_In in H as [H1 H2].
    exists s. split; [exact H1 | now apply Qle_bool_iff].
  - intros (s & H1 & H2). exists (c, s). split; [reflexivity|].
    apply filter_In. split; [exact H1 | now apply Qle_bool_iff].
Qed.

(** C6, as the claim words it, at three categories scored against a
    seven-letter label: the scores are 7/51, 3/36 and 1/34, and the second
    is the mean of the three. As floats, the mean of the three scores is one
    unit in the last place above the second score, and the second category
    is dropped. *)
Lemma top_category_drops_score_at_mean :
  let sorted_category :=
    [(category_51, 7 # 51); (category_36, 3 # 36); (category_34, 1 # 34)]%Q in
  categoryScoring (fresh_instance [(city, seven_letters)] []) [city]
    [category_51; category_36; category_34] = Ret sorted_category
  /\ (exact_mean (map snd sorted_category) == 3 # 36)%Q
  /\ top_category_exact sorted_category = [category_51; category_36]
  /\ top_category sorted_category = Ret [category_51]
  /\ top_category sorted_category <> Ret (top_category_exact sorted_category).
Proof.
  cbv zeta. repeat split; try (vm_compute; reflexivity).
  vm_compute. discriminate.
Qed.

(** C6: for a non-empty list of scored categories the mean exists and is
    the mean of the float scores, rounded to a float; the top categories are
    exactly the categories whose float score is greater than or equal to
    that computed mean. Every category whose float score is the maximum is
    among them, and so is every category whose float score reaches the
    unrounded mean of the float scores; no category whose scores are all
    strictly below the computed mean is. *)
Theorem top_category_spec (sorted_category : list (pystr * Q)) :
  sorted_category <> [] ->
  exists m top,
    mean (float_scores sorted_category) = Ret m
    /\ m = float_round (exact_mean (float_scores sorted_category))
    /\ top_category sorted_category = Ret top
    /\ top = map fst (filter (fun i => Qle_bool m (float_round (snd i)))
                        sorted_category)
    /\ (forall c,
          In c top
          <-> exists s, In (c, s) sorted_category /\ (m <= float_round s)%Q)
    /\ (forall c s,
          In (c, s) sorted_category ->
          (forall c' s',
              In (c', s') sorted_category ->
              (float_round s' <= float_round s)%Q) ->
          In c top)
    /\ (forall c s,
          In (c, s) sorted_category ->
          (forall c' s', In (c', s') sorted_category -> (s' <= s)%Q) ->
          In c top)
    /\ (forall c s,
          In (c, s) sorted_category ->
          (exact_mean (float_scores sorted_category) <= float_round s)%Q ->
          In c top)
    /\ (forall c,
          (forall s, In (c, s) sorted_category -> (float_round s < m)%Q) ->
          ~ In c top).
Proof.
  intros Hne.
  pose proof (float_scores_nonempty _ Hne) as Hne'.
  pose proof (mean_defined _ Hne') as Hmean.
  set (m := float_round (exact_mean (float_scores sorted_category))) in *.
  pose proof (reaching_In m sorted_category) as Hin.
  assert (Hmax : forall c s,
             In (c, s) sorted_category ->
             (forall c' s',
                 In (c', s') sorted_category ->
                 (float_round s' <= float_round s)%Q) ->
             In c (map fst (filter (fun i => Qle_bool m (float_round (snd i)))
                              sorted_category))).
  { intros c s Hc Hmax. apply Hin. exists s. split; [exact Hc|].
    apply mean_le_float; [exact Hne'|].
    intros x Hx. apply float_scores_In in Hx as (c' & s' & Hx & ->).
    now apply (Hmax c'). }
  exists m, (map fst (filter (fun i => Qle_bool m (float_round (snd i)))
                        sorted_category)).
  split; [exact Hmean|]. split; [reflexivity|].
  split; [unfold top_category; rewrite Hmean; reflexivity|].
  split; [reflexivity|]. split; [exact Hin|].
  split; [exact Hmax|]. split; [|split].
  - intros c s Hc Hle. apply (Hmax c s Hc).
    intros c' s' H'. apply float_round_mono. now apply (Hle c').
  - intros c s Hc Hle. apply Hin. exists s. split; [exact Hc|].
    now apply float_round_below.
  - intros c Hlow Hc. apply Hin in Hc as (s & Hs & Hle).
    apply (Qlt_not_le _ _ (Hlow s Hs)). exact Hle.
Qed.

Lemma top_category_spec_witness :
  exists top,
    top_category [(str "c1", 1 # 2); (str "c2", 1 # 4); (str "c3", 0)]%Q = Ret top
    /\ In (str "c1") top.
Proof.
  destruct (top_category_spec [(str "c1", 1 # 2); (str "c2", 1 # 4); (str "c3", 0)]%Q)
    as (m & top & _ & _ & H & _ & _ & _ & Hmax & _); [discriminate|].
  exists top. split; [exact H|].
  apply (Hmax (str "c1") (1 # 2)%Q); [now left|].
  intros c' s' Hin. simpl in Hin.
  destruct Hin as [E|[E|[E|[]]]]; injection E as _ <-; vm_compute; discriminate.
Defined.

(** ** Similarity finder *)

Lemma runSPARQL_run (ep : endpoint) (query : pystr) (w : world) :
  runSPARQL ep query w = (tier ep query, issue [query] w).
Proof.
  unfold runSPARQL, query_convert, bind, lift, tier, issue.
  destruct (ep query); reflexivity.
Qed.

Lemma set_iteration_first_occurrences : set_iteration first_occurrences.
Proof.
  intros l. split; [apply first_occurrences_NoDup|].
  intros x; apply first_occurrences_In.
Qed.

(** The length test of the loop counts the distinct results. *)
Lemma enough_list_of_set (list_of_set : list pystr -> list pystr)
    (entity : pystr) (rows : list pystr) :
  set_iteration list_of_set ->
  (1 <? length (other_than entity (list_of_set rows))) = enough entity rows.
Proof.
  intros Hset. unfold enough. f_equal. apply Permutation_length.
  destruct (Hset rows) as [Hnd Hin].
  apply NoDup_Permutation.
  - unfold other_than; now apply NoDup_filter.
  - apply first_occurrences_NoDup.
  - intros x. rewrite first_occurrences_In. unfold other_than.
    rewrite !filter_In, Hin. reflexivity.
Qed.

Lemma relax_log (ep : endpoint) (list_of_set : list pystr -> list pystr)
    (ontology : list pystr) (category : list (pystr * Q)) (entity : pystr)
    (num : nat) (sim_ents : list pystr) (w : world) :
  set_iteration list_of_set ->
  log (snd (relax ep list_of_set (ontology_triples ontology) category entity
              num sim_ents w))
  = log w ++ issued_until_enough ep entity (countdown ontology category num).
Proof.
  intros Hset. revert sim_ents w; induction num as [|num IH]; intros sim_ents w.
  - simpl. now rewrite app_nil_r.
  - cbn [relax countdown issued_until_enough]. unfold bind.
    rewrite runSPARQL_run. fold (relaxed_query ontology category (S num)).
    destruct (tier ep (relaxed_query ontology category (S num))) as [rows|e];
      [|reflexivity].
    rewrite (enough_list_of_set list_of_set entity rows Hset).
    destruct (enough entity rows); [reflexivity|].
    rewrite IH. simpl. now rewrite <- app_assoc.
Qed.

Lemma cap10_length (sim_ents : list pystr) : length (cap10 sim_ents) <= 10.
Proof.
  unfold cap10. destruct (Nat.ltb_spec 10 (length sim_ents)) as [H|H]; [|exact H].
  rewrite length_firstn. lia.
Qed.

Lemma bind_ret_inv {A B} (m : M A) (f : A -> B) (w : world) (b : B) :
  fst (bind m (fun a => ret (f a)) w) = Ret b ->
  exists a, fst (m w) = Ret a /\ b = f a.
Proof.
  unfold bind, ret. destruct (m w) as [[a|e] w']; simpl; [|discriminate].
  intros H; injection H as <-. now exists a.
Qed.

Lemma bind_ret_log {A B} (m : M A) (f : A -> B) (w : world) :
  log (snd (bind m (fun a => ret (f a)) w)) = log (snd (m w)).
Proof. unfold bind, ret. now destruct (m w) as [[a|e] w']. Qed.

(** C4, as the claim words it (top 3, top 2, top 1, then top 0): with four
    categories and an endpoint that finds nothing, the three constrained
    queries are issued and the search ends there; the query with the
    ontology constraints only is never issued. *)
Lemma relaxation_never_drops_to_zero :
  let out := getSimilarEntries endpoint_tehran first_occurrences [city]
               four_categories tehran (initial_world []) in
  log (snd out)
  = [relaxed_query [city] four_categories 3;
     relaxed_query [city] four_categories 2;
     relaxed_query [city] four_categories 1]
  /\ ~ In (similar_query (ontology_triples [city])) (log (snd out))
  /\ fst out = Ret [].
Proof.
  split; [vm_compute; reflexivity|]. split; [|vm_compute; reflexivity].
  vm_compute. intros [H|[H|[H|[]]]]; discriminate.
Qed.

(** C4 (amended): with more than 3 scored categories the similarity finder
    queries with the top 3 categories, then the top 2, then the top 1, and
    stops after the first of these queries that fails or yields more than 1
    distinct result other than the entity, at the latest after the query
    with the top 1 category; it does not go on to a query with the ontology
    constraints only. With 3 or fewer scored categories it issues the one
    query with the ontology constraints only. A returned list has at most
    10 elements. *)
Theorem similar_entries_relaxation (ep : endpoint)
    (list_of_set : list pystr -> list pystr) (ontology : list pystr)
    (category : list (pystr * Q)) (entity : pystr) (w : world) :
  set_iteration list_of_set ->
  let out := getSimilarEntries ep list_of_set ontology category entity w in
  (3 < length category ->
   log (snd out)
   = log w ++ issued_until_enough ep entity
                [relaxed_query ontology category 3;
                 relaxed_query ontology category 2;
                 relaxed_query ontology category 1])
  /\ (length category <= 3 ->
      log (snd out) = log w ++ [similar_query (ontology_triples ontology)]
      /\ fst out
         = match tier ep (similar_query (ontology_triples ontology)) with
           | Ret rows => Ret (cap10 rows)
           | Raise e => Raise e
           end)
  /\ relaxed_query ontology category 0 = similar_query (ontology_triples ontology)
  /\ (forall sim_ents, fst out = Ret sim_ents -> length sim_ents <= 10).
Proof.
  intros Hset out. subst out. unfold getSimilarEntries.
  split; [|split; [|split]].
  - intros H. apply Nat.ltb_lt in H. rewrite H.
    rewrite bind_ret_log. now rewrite relax_log.
  - intros H. apply Nat.ltb_ge in H. rewrite H.
    unfold bind. rewrite runSPARQL_run.
    destruct (tier ep _); split; reflexivity.
  - reflexivity.
  - intros sim_ents H.
    destruct (3 <? length category);
      apply bind_ret_inv in H as (l & _ & ->); apply cap10_length.
Qed.

Lemma similar_entries_relaxation_witness :
  log (snd (getSimilarEntries endpoint_tehran first_occurrences [city]
              four_categories tehran (initial_world [])))
  = [relaxed_query [city] four_categories 3;
     relaxed_query [city] four_categories 2;
     relaxed_query [city] four_categories 1].
Proof.
  destruct (similar_entries_relaxation endpoint_tehran first_occurrences [city]
              four_categories tehran (initial_world [])
              set_iteration_first_occurrences) as (H & _).
  rewrite H; [vm_compute; reflexivity | vm_compute; lia].
Defined.

(** ** Entity enrichment *)

Lemma prefix_run (key : string) (w : world) :
  prefix key w = (dict_get (str key) (prefixes (query_handler w)), w).
Proof. reflexivity. Qed.

Lemma bind_inv {A B} (m : M A) (k : A -> M B) (w : world) (b : B) :
  fst (bind m k w) = Ret b ->
  exists a w', m w = (Ret a, w') /\ fst (k a w') = Ret b.
Proof.
  unfold bind. destruct (m w) as [[a|e] w']; simpl; [|discriminate].
  intros H. now exists a, w'.
Qed.

Lemma categoryScoring_no_category (self : QueryRunner) (ontology : list pystr)
    (sorted_category : list (pystr * Q)) :
  categoryScoring self ontology [] = Ret sorted_category -> sorted_category = [].
Proof.
  unfold categoryScoring. destruct ontology as [|o ontology]; [discriminate|].
  destruct (dict_get o (instance2labels self)); [|discriminate].
  simpl. congruence.
Qed.

(** Enrichment cannot return for an entity without categories. *)
Lemma getEntityInformation_no_category (ep : endpoint)
    (list_of_set : list pystr -> list pystr) (entity_uri : pystr) (w : world)
    (category_prefix : pystr) (info : entity_info) :
  dict_get (str "category") (prefixes (query_handler w)) = Ret category_prefix ->
  tier ep (category_query entity_uri category_prefix) = Ret [] ->
  fst (getEntityInformation ep list_of_set entity_uri w) <> Ret info.
Proof.
  intros Hc Hq E. unfold getEntityInformation in E.
  apply bind_inv in E as (entity & w1 & E1 & E).
  rewrite prefix_run in E1. injection E1 as _ <-.
  apply bind_inv in E as (entity' & w1 & E1 & E).
  rewrite prefix_run in E1. injection E1 as _ <-.
  apply bind_inv in E as (cp & w1 & E1 & E).
  rewrite prefix_run, Hc in E1. injection E1 as <- <-.
  apply bind_inv in E as (type & w1 & E1 & E).
  rewrite prefix_run in E1. injection E1 as _ <-.
  apply bind_inv in E as (category_links & w1 & E1 & E).
  rewrite runSPARQL_run, Hq in E1. injection E1 as <- <-.
  apply bind_inv in E as (ontology_links & w2 & _ & E).
  apply bind_inv in E as (income_links & w3 & _ & E).
  apply bind_inv in E as (outcome_links & w4 & _ & E).
  apply bind_inv in E as (self & w5 & _ & E).
  apply bind_inv in E as (sorted_category & w6 & E1 & E).
  unfold lift in E1. injection E1 as E1 _.
  apply categoryScoring_no_category in E1. subst sorted_category.
  apply bind_inv in E as (sim_ents & w7 & _ & E).
  apply bind_inv in E as (top & w8 & E1 & _).
  discriminate E1.
Qed.

(** With every other step succeeding, the failure is the mean of no score. *)
Lemma getEntityInformation_no_score (ep : endpoint)
    (list_of_set : list pystr -> list pystr) (entity_uri : pystr) (w : world)
    (entity category type o labels : pystr)
    (ontology_links income outcome sim_ents : list pystr) :
  let p := prefixes (query_handler w) in
  dict_get (str "entity") p = Ret entity ->
  dict_get (str "category") p = Ret category ->
  dict_get (str "type") p = Ret type ->
  tier ep (category_query entity_uri category) = Ret [] ->
  tier ep (ontology_query entity_uri type) = Ret (o :: ontology_links) ->
  tier ep (income_query entity_uri entity) = Ret income ->
  tier ep (outcome_query entity_uri entity) = Ret outcome ->
  dict_get o (instance2labels (query_handler w)) = Ret labels ->
  tier ep (similar_query (ontology_triples (o :: ontology_links))) = Ret sim_ents ->
  fst (getEntityInformation ep list_of_set entity_uri w) = Raise StatisticsError.
Proof.
  intros p He Hc Ht Hcat Hont Hinc Hout Hidx Hsim. subst p.
  unfold getEntityInformation.
  erewrite bind_run by (rewrite prefix_run, He; reflexivity).
  erewrite bind_run by (rewrite prefix_run, He; reflexivity).
  erewrite bind_run by (rewrite prefix_run, Hc; reflexivity).
  erewrite bind_run by (rewrite prefix_run, Ht; reflexivity).
  erewrite bind_run by (rewrite runSPARQL_run, Hcat; reflexivity).
  erewrite bind_run by (rewrite runSPARQL_run, Hont; reflexivity).
  erewrite bind_run by (rewrite runSPARQL_run, Hinc; reflexivity).
  erewrite bind_run by (rewrite runSPARQL_run, Hout; reflexivity).
  erewrite bind_run by reflexivity.
  erewrite bind_run
    by (unfold lift, categoryScoring; simpl query_handler; rewrite Hidx; reflexivity).
  erewrite bind_run
    by (unfold getSimilarEntries; simpl; unfold bind;
        rewrite runSPARQL_run, Hsim; reflexivity).
  reflexivity.
Qed.

(** A comprehension raises when one of its elements does, whatever the
    elements before it do. *)
Lemma mapM_raises {A B} (f : A -> M B) (P : world -> Prop) (a : A) (l : list A) :
  (forall x w, P w -> P (snd (f x w))) ->
  (forall w b, P w -> fst (f a w) <> Ret b) ->
  In a l ->
  forall w bs, P w -> fst (mapM f l w) <> Ret bs.
Proof.
  intros Hpres Hfail. induction l as [|x l IH]; intros Hin w bs Hw E; [destruct Hin|].
  simpl in E. apply bind_inv in E as (b & w1 & E1 & E).
  apply bind_inv in E as (bs' & w2 & E2 & _).
  destruct Hin as [->|Hin].
  - apply (Hfail w b Hw). now rewrite E1.
  - apply (IH Hin w1 bs').
    + specialize (Hpres x w Hw). now rewrite E1 in Hpres.
    + now rewrite E2.
Qed.

Lemma runQuery_no_category (ep : endpoint) (list_of_set : list pystr -> list pystr)
    (query_text entity_uri : pystr) (w : world) (category_prefix : pystr)
    (merged : list pystr) (fa : final_answer) :
  let p := prefixes (query_handler w) in
  dict_get (str "category") p = Ret category_prefix ->
  tier ep (category_query entity_uri category_prefix) = Ret [] ->
  mergeResults query_text (answer (relation_outcome ep p query_text 10))
    (answer (text_outcome ep p query_text 20)) = Ret merged ->
  In entity_uri (removeBadLinks merged query_text) ->
  fst (runQuery ep list_of_set query_text w) <> Ret fa.
Proof.
  intros p Hc Hq Hmerge Hin E. subst p.
  destruct (dispatch_run ep query_text w) as [_ Hh].
  unfold runQuery in E.
  apply bind_inv in E as ([] & w1 & E1 & E). rewrite E1 in Hh. simpl in Hh.
  apply bind_inv in E as (relation & w' & E2 & E).
  rewrite (get_relation_results_run w1 _ ltac:(rewrite Hh; reflexivity)) in E2.
  injection E2 as <- <-.
  apply bind_inv in E as (text & w' & E2 & E).
  rewrite (get_text_results_run w1 _ ltac:(rewrite Hh; reflexivity)) in E2.
  injection E2 as <- <-.
  apply bind_inv in E as (merge_results & w' & E2 & E).
  unfold lift in E2. rewrite Hmerge in E2. injection E2 as <- <-.
  apply bind_inv in E as (answer & w2 & E2 & _).
  refine (mapM_raises
            (fun entity =>
               bind (getEntityInformation ep list_of_set entity)
                 (fun info => ret (entity, info)))
            (fun w' => prefixes (query_handler w') = prefixes (query_handler w))
            entity_uri _ _ _ Hin w1 answer _ _).
  - intros x w' Hw'. rewrite <- Hw'.
    assert (Hp : preserves_handler
                   (bind (getEntityInformation ep list_of_set x)
                      (fun info => ret (x, info)))) by frame.
    now rewrite Hp.
  - intros w' [e info] Hw' E'.
    apply bind_inv in E' as (info' & w3 & E3 & _).
    apply (getEntityInformation_no_category ep list_of_set entity_uri w'
             category_prefix info'); [now rewrite Hw' | exact Hq | now rewrite E3].
  - now rewrite Hh.
  - now rewrite E2.
Qed.

(** C10: when the category query of an entity yields no row, its
    enrichment raises; with every other step succeeding (in particular with
    a non-empty ontology list whose first class is in the index) the
    exception is the one [statistics.mean] raises on no data; and a request
    whose filtered answer contains such an entity raises as a whole. *)
Theorem no_category_entity_fails (ep : endpoint)
    (list_of_set : list pystr -> list pystr) (entity_uri : pystr) (w : world)
    (category_prefix : pystr) :
  let p := prefixes (query_handler w) in
  dict_get (str "category") p = Ret category_prefix ->
  tier ep (category_query entity_uri category_prefix) = Ret [] ->
  (exists e, fst (getEntityInformation ep list_of_set entity_uri w) = Raise e)
  /\ (forall entity type o labels ontology_links income outcome sim_ents,
        dict_get (str "entity") p = Ret entity ->
        dict_get (str "type") p = Ret type ->
        tier ep (ontology_query entity_uri type) = Ret (o :: ontology_links) ->
        tier ep (income_query entity_uri entity) = Ret income ->
        tier ep (outcome_query entity_uri entity) = Ret outcome ->
        dict_get o (instance2labels (query_handler w)) = Ret labels ->
        tier ep (similar_query (ontology_triples (o :: ontology_links))) = Ret sim_ents ->
        fst (getEntityInformation ep list_of_set entity_uri w) = Raise StatisticsError)
  /\ (forall query_text merged,
        mergeResults query_text (answer (relation_outcome ep p query_text 10))
          (answer (text_outcome ep p query_text 20)) = Ret merged ->
        In entity_uri (removeBadLinks merged query_text) ->
        exists e, fst (runQuery ep list_of_set query_text w) = Raise e).
Proof.
  intros p Hc Hq. split; [|split].
  - destruct (fst (getEntityInformation ep list_of_set entity_uri w)) as [info|e] eqn:E.
    + exfalso. now apply (getEntityInformation_no_category ep list_of_set entity_uri
                            w category_prefix info Hc Hq).
    + now exists e.
  - intros entity type o labels ontology_links income outcome sim_ents
      He Ht Hont Hinc Hout Hidx Hsim.
    now apply (getEntityInformation_no_score ep list_of_set entity_uri w entity
                 category_prefix type o labels ontology_links income outcome sim_ents).
  - intros query_text merged Hmerge Hin.
    destruct (fst (runQuery ep list_of_set query_text w)) as [fa|e] eqn:E.
    + exfalso. now apply (runQuery_no_category ep list_of_set query_text entity_uri w
                            category_prefix merged fa Hc Hq Hmerge Hin).
    + now exists e.
Qed.

Lemma no_category_entity_fails_witness :
  let w := initial_world [(city, str "City")] in
  fst (getEntityInformation endpoint_tehran first_occurrences tehran w)
  = Raise StatisticsError
  /\ exists e, fst (runQuery endpoint_tehran first_occurrences (str "Tehran") w) = Raise e.
Proof.
  intros w.
  destruct (no_category_entity_fails endpoint_tehran first_occurrences tehran w
              (str "fkgc")) as (_ & Hmean & Hrun);
    [reflexivity | vm_compute; reflexivity |].
  split.
  - apply (Hmean (str "fkgr") (str "rdf:instanceOf") city (str "City") [] [] [] []);
      vm_compute; reflexivity.
  - apply (Hrun (str "Tehran") [tehran]); [vm_compute; reflexivity|].
    vm_compute. now left.
Defined.

(** The request of the scenario above fails with the mean of no score. *)
Example runQuery_tehran_fails :
  fst (runQuery endpoint_tehran first_occurrences (str "Tehran")
         (initial_world [(city, str "City")]))
  = Raise StatisticsError.
Proof. vm_compute. reflexivity. Qed.

(** ** The two threads on the shared wrapper *)

Lemma thread_step_set (ep : endpoint) (query_text : pystr) (st : threads)
    (id : thread_id) (entity : pystr) :
  dict_get (str "entity") (prefixes (query_handler (process st))) = Ret entity ->
  (position_of id st = at_start ->
   thread_step ep query_text st id
   = move id exact_set (setQuery (exact_text id query_text entity) st))
  /\ (position_of id st = exact_empty ->
      thread_step ep query_text st id
      = move id semi_set (setQuery (semi_text id query_text entity) st)).
Proof.
  intros H. split; intros P; unfold thread_step; rewrite P; unfold set_tier;
    rewrite prefix_run; cbn [fst]; now rewrite H.
Qed.

Lemma thread_step_send (ep : endpoint) (query_text : pystr) (st : threads)
    (id : thread_id) :
  (position_of id st = exact_set ->
   thread_step ep query_text st id
   = match tier ep (queryString st) with
     | Ret [] => move id exact_empty (sent st)
     | Ret answer => store id {| mode := exact_mode id; answer := answer |} (sent st)
     | Raise _ => store id error_result (sent st)
     end)
  /\ (position_of id st = semi_set ->
      thread_step ep query_text st id
      = match tier ep (queryString st) with
        | Ret answer => store id {| mode := semi_mode id; answer := answer |} (sent st)
        | Raise _ => store id error_result (sent st)
        end).
Proof.
  split; intros P; unfold thread_step; rewrite P; unfold send, on_process;
    rewrite runSPARQL_run; cbn [fst snd]; fold (sent st);
    destruct (tier ep (queryString st)) as [[|row rows]|e]; reflexivity.
Qed.

Lemma thread_step_finished (ep : endpoint) (query_text : pystr) (st : threads)
    (id : thread_id) :
  position_of id st = finished -> thread_step ep query_text st id = st.
Proof. intros P. unfold thread_step. now rewrite P. Qed.


Lemma thread_step_no_prefix (ep : endpoint) (query_text : pystr) (st : threads)
    (id : thread_id) (e : exn) :
  dict_get (str "entity") (prefixes (query_handler (process st))) = Raise e ->
  position_of id st = at_start \/ position_of id st = exact_empty ->
  thread_step ep query_text st id = store id error_result st.
Proof.
  intros H [P|P]; unfold thread_step; rewrite P; unfold set_tier;
    rewrite prefix_run; cbn [fst]; now rewrite H.
Qed.

Ltac thread_state :=
  cbn [move setQuery store sent on_process process queryString relation_at
       text_at position_of exact_text semi_text fst snd].

Ltac thread_prefix H :=
  cbn [process issue query_handler prefixes set_relation_results
       set_text_results snd]; exact H.

(** One step of the innermost thread whose state is known. *)
Ltac step_thread entity H :=
  match goal with
  | |- context [thread_step ?ep ?q (Build_threads ?w ?h ?pr ?pt) ?id] =>
      let st := constr:(Build_threads w h pr pt) in
      first
        [ rewrite (thread_step_finished ep q st id eq_refl)
        | rewrite (proj1 (thread_step_send ep q st id) eq_refl)
        | rewrite (proj2 (thread_step_send ep q st id) eq_refl)
        | rewrite (proj1 (thread_step_set ep q st id entity
                            ltac:(thread_prefix H)) eq_refl)
        | rewrite (proj2 (thread_step_set ep q st id entity
                            ltac:(thread_prefix H)) eq_refl) ]
  end; thread_state.

Lemma thread_alone (ep : endpoint) (query_text : pystr) (id : thread_id)
    (st : threads) :
  position_of id st = at_start ->
  let st' := run_schedule ep query_text (repeat id 4) st in
  process st' = snd (strategy_of ep query_text id (process st))
  /\ relation_at st'
     = match id with relation_thread => finished | text_thread => relation_at st end
  /\ text_at st'
     = match id with relation_thread => text_at st | text_thread => finished end.
Proof.
  intros P. cbv zeta. unfold run_schedule. cbn [repeat fold_left].
  destruct st as [w held pr pt]. cbn [process relation_at text_at].
  destruct (dict_get (str "entity") (prefixes (query_handler w))) as [entity|e] eqn:H.
  - destruct id; cbn [position_of relation_at text_at] in P; subst;
      unfold strategy_of.
    + rewrite (relationSearch_run ep query_text 10 w entity H). cbv zeta.
      do 2 step_thread entity H.
      destruct (tier ep (relationQuery_text (tokenizer query_text) entity 10))
        as [[|row rows]|e]; thread_state.
      * do 2 step_thread entity H. rewrite issue_issue.
        destruct (tier ep (semiRelationQuery_text (tokenizer query_text) entity 10))
          as [rows|e]; repeat split; reflexivity.
      * do 2 step_thread entity H. repeat split; reflexivity.
      * do 2 step_thread entity H. repeat split; reflexivity.
    + rewrite (textSearch_run ep query_text 20 w entity H). cbv zeta.
      do 2 step_thread entity H.
      destruct (tier ep (likeQuery_text (tokenizer query_text) entity 20))
        as [[|row rows]|e]; thread_state.
      * do 2 step_thread entity H. rewrite issue_issue.
        destruct (tier ep (semiLikeQuery_text (tokenizer query_text) entity 20))
          as [rows|e]; repeat split; reflexivity.
      * do 2 step_thread entity H. repeat split; reflexivity.
      * do 2 step_thread entity H. repeat split; reflexivity.
  - destruct id; cbn [position_of relation_at text_at] in P; subst;
      unfold strategy_of.
    + rewrite (relationSearch_no_prefix ep query_text 10 w e H).
      rewrite (thread_step_no_prefix ep query_text
                 (Build_threads w held at_start pt) relation_thread e H)
        by (left; reflexivity).
      thread_state.
      rewrite !thread_step_finished by reflexivity. repeat split; reflexivity.
    + rewrite (textSearch_no_prefix ep query_text 20 w e H).
      rewrite (thread_step_no_prefix ep query_text
                 (Build_threads w held pr at_start) text_thread e H)
        by (left; reflexivity).
      thread_state.
      rewrite !thread_step_finished by reflexivity. repeat split; reflexivity.
Qed.

(** The thread model on the schedule that lets the relation thread end
    before the text thread starts is [dispatch]. *)
Lemma dispatch_threads_sequential (ep : endpoint) (held query_text : pystr)
    (w : world) :
  dispatch_threads ep [] held query_text w = dispatch ep query_text w.
Proof.
  unfold dispatch_threads, join_threads, run_schedule. cbn [fold_left].
  rewrite fold_left_app.
  set (st0 := {| process := w; queryString := held;
                 relation_at := at_start; text_at := at_start |}).
  destruct (thread_alone ep query_text relation_thread st0 eq_refl)
    as (Hp & Hr & Ht).
  fold (run_schedule ep query_text (repeat relation_thread 4) st0).
  set (st1 := run_schedule ep query_text (repeat relation_thread 4) st0) in *.
  destruct (thread_alone ep query_text text_thread st1) as (Hp' & _ & _);
    [exact Ht|].
  fold (run_schedule ep query_text (repeat text_thread 4) st1).
  rewrite Hp', Hp. reflexivity.
Qed.

Lemma dispatch_threads_text_first (ep : endpoint) (held query_text : pystr)
    (w : world) :
  dispatch_threads ep (repeat text_thread 4) held query_text w
  = dispatch_text_first ep query_text w.
Proof.
  unfold dispatch_threads, join_threads.
  set (st0 := {| process := w; queryString := held;
                 relation_at := at_start; text_at := at_start |}).
  destruct (thread_alone ep query_text text_thread st0 eq_refl)
    as (Hp & Hr & Ht).
  set (st1 := run_schedule ep query_text (repeat text_thread 4) st0) in *.
  unfold run_schedule at 1. rewrite fold_left_app.
  fold (run_schedule ep query_text (repeat relation_thread 4) st1).
  destruct (thread_alone ep query_text relation_thread st1) as (Hp' & Hr' & Ht');
    [exact Hr|].
  set (st2 := run_schedule ep query_text (repeat relation_thread 4) st1) in *.
  assert (E : fold_left (thread_step ep query_text) (repeat text_thread 4) st2 = st2).
  { assert (F : position_of text_thread st2 = finished)
      by (cbn [position_of]; rewrite Ht'; exact Ht).
    cbn [repeat fold_left].
    now rewrite !(thread_step_finished ep query_text st2 text_thread F). }
  rewrite E, Hp', Hp. reflexivity.
Qed.

Ltac step_cases :=
  unfold thread_step, set_tier, send, on_process;
  cbn [position_of relation_at text_at];
  rewrite ?runSPARQL_run, ?prefix_run; cbn [fst snd process queryString];
  try (destruct (dict_get _ _)); try (destruct (tier _ _) as [[|? ?]|?]).

(** Every step takes a thread forward. *)
Lemma thread_step_advances (ep : endpoint) (query_text : pystr) (st : threads)
    (id : thread_id) :
  Nat.min 4 (S (rank (position_of id st)))
  <= rank (position_of id (thread_step ep query_text st id)).
Proof.
  destruct st as [w held pr pt].
  destruct id; cbn [position_of relation_at text_at].
  - destruct pr; unfold thread_step; cbn [position_of relation_at]; 
      unfold set_tier, send, on_process;
      rewrite ?runSPARQL_run, ?prefix_run; cbn [fst snd process queryString];
      try (destruct (dict_get _ _)); try (destruct (tier _ _) as [[|? ?]|?]);
      cbn; lia.
  - destruct pt; unfold thread_step; cbn [position_of text_at]; 
      unfold set_tier, send, on_process;
      rewrite ?runSPARQL_run, ?prefix_run; cbn [fst snd process queryString];
      try (destruct (dict_get _ _)); try (destruct (tier _ _) as [[|? ?]|?]);
      cbn; lia.
Qed.

(** A step of one thread leaves the other where it stands, with the result
    it has stored. *)
Lemma thread_step_other (ep : endpoint) (query_text : pystr) (st : threads)
    (id id' : thread_id) :
  id <> id' ->
  position_of id' (thread_step ep query_text st id) = position_of id' st
  /\ stored id' (thread_step ep query_text st id) = stored id' st.
Proof.
  intros N. destruct st as [w held pr pt].
  destruct id, id'; try congruence; clear N.
  - destruct pr; step_cases; split; reflexivity.
  - destruct pt; step_cases; split; reflexivity.
Qed.

(** A thread ends with its result stored. *)
Lemma thread_step_stores (ep : endpoint) (query_text : pystr) (st : threads)
    (id : thread_id) :
  (position_of id st = finished -> stored id st <> None) ->
  position_of id (thread_step ep query_text st id) = finished ->
  stored id (thread_step ep query_text st id) <> None.
Proof.
  destruct st as [w held pr pt]. destruct id.
  - destruct pr; step_cases; cbn; intros H F; try discriminate; auto.
  - destruct pt; step_cases; cbn; intros H F; try discriminate; auto.
Qed.

Lemma thread_step_ended (ep : endpoint) (query_text : pystr) (st : threads)
    (id : thread_id) :
  ended_with_result st -> ended_with_result (thread_step ep query_text st id).
Proof.
  intros I id' F.
  assert (D : id = id' \/ id <> id') by (destruct id, id'; (now left) || (now right)).
  destruct D as [<-|N].
  - apply thread_step_stores; [apply I | exact F].
  - destruct (thread_step_other ep query_text st id id' N) as [P S].
    rewrite S. apply I. now rewrite <- P.
Qed.

Lemma run_schedule_ended (ep : endpoint) (query_text : pystr)
    (schedule : list thread_id) (st : threads) :
  ended_with_result st -> ended_with_result (run_schedule ep query_text schedule st).
Proof.
  unfold run_schedule. revert st; induction schedule as [|id schedule IH];
    intros st I; [exact I|].
  cbn [fold_left]. apply IH. now apply thread_step_ended.
Qed.

(** Four steps end a thread, wherever it stands. *)
Lemma four_steps_finish (ep : endpoint) (query_text : pystr) (id : thread_id)
    (st : threads) :
  position_of id (run_schedule ep query_text (repeat id 4) st) = finished.
Proof.
  unfold run_schedule. cbn [repeat fold_left].
  pose proof (thread_step_advances ep query_text st id) as H1.
  set (st1 := thread_step ep query_text st id) in *.
  pose proof (thread_step_advances ep query_text st1 id) as H2.
  set (st2 := thread_step ep query_text st1 id) in *.
  pose proof (thread_step_advances ep query_text st2 id) as H3.
  set (st3 := thread_step ep query_text st2 id) in *.
  pose proof (thread_step_advances ep query_text st3 id) as H4.
  set (st4 := thread_step ep query_text st3 id) in *.
  destruct (position_of id st4); cbn [rank] in H4; try lia; reflexivity.
Qed.

Lemma run_schedule_other (ep : endpoint) (query_text : pystr) (id id' : thread_id)
    (n : nat) (st : threads) :
  id <> id' ->
  position_of id' (run_schedule ep query_text (repeat id n) st) = position_of id' st.
Proof.
  intros N. unfold run_schedule. revert st; induction n as [|n IH]; intros st;
    [reflexivity|].
  cbn [repeat fold_left]. rewrite IH.
  apply (thread_step_other ep query_text st id id' N).
Qed.

(** Whatever the schedule, the joins return with both threads ended and
    both results stored: the search stage never raises, and the reads of
    [self.relation_results] and [self.text_results] that follow it find
    their attribute. *)
Lemma dispatch_threads_joined (ep : endpoint) (schedule : list thread_id)
    (held query_text : pystr) (w : world) :
  let w' := snd (dispatch_threads ep schedule held query_text w) in
  fst (dispatch_threads ep schedule held query_text w) = Ret tt
  /\ relation_results (query_handler w') <> None
  /\ text_results (query_handler w') <> None.
Proof.
  cbv zeta. unfold dispatch_threads, join_threads. cbn [fst snd].
  set (st0 := run_schedule ep query_text schedule _).
  assert (I0 : ended_with_result st0).
  { apply run_schedule_ended. intros [|]; discriminate. }
  unfold run_schedule at 1 2. rewrite fold_left_app.
  fold (run_schedule ep query_text (repeat relation_thread 4) st0).
  set (st1 := run_schedule ep query_text (repeat relation_thread 4) st0).
  fold (run_schedule ep query_text (repeat text_thread 4) st1).
  set (st2 := run_schedule ep query_text (repeat text_thread 4) st1).
  assert (I2 : ended_with_result st2) by (do 2 apply run_schedule_ended; exact I0).
  split; [reflexivity|]. split.
  - apply (I2 relation_thread). unfold st2.
    rewrite (run_schedule_other ep query_text text_thread relation_thread)
      by discriminate.
    apply four_steps_finish.
  - apply (I2 text_thread). apply four_steps_finish.
Qed.

(** The search stage on the racing schedule, when the endpoint fails on the
    exact-tier query of Relation Search: the text thread sends that query
    too. *)
Lemma dispatch_threads_racing (ep : endpoint) (held query_text : pystr)
    (w : world) (entity : pystr) :
  dict_get (str "entity") (prefixes (query_handler w)) = Ret entity ->
  ep (relationQuery_text (tokenizer query_text) entity 10) = None ->
  dispatch_threads ep racing_schedule held query_text w
  = (Ret tt,
     {| log := log w ++ [relationQuery_text (tokenizer query_text) entity 10;
                         relationQuery_text (tokenizer query_text) entity 10];
        query_handler := with_results (query_handler w) error_result error_result |}).
Proof.
  intros H Hep.
  unfold dispatch_threads, join_threads, run_schedule, racing_schedule.
  cbn [repeat app fold_left].
  assert (T : tier ep (relationQuery_text (tokenizer query_text) entity 10)
              = Raise EndpointFailure) by (unfold tier; now rewrite Hep).
  do 3 step_thread entity H. rewrite T. thread_state.
  step_thread entity H. rewrite T. thread_state.
  do 8 step_thread entity H.
  cbn [set_relation_results set_text_results snd query_handler log issue
       relation_results text_results instance2labels prefixes].
  unfold with_results. now rewrite <- app_assoc.
Qed.

(** C8: the failure of one strategy's query is not contained. Both threads
    use the one wrapper [self.sparql_server]; on the schedule where each
    thread sets its exact-tier query before either sends, the text thread
    sends the query the relation thread has set. When the endpoint fails on
    that query, both strategies store mode [error] with an empty answer,
    the endpoint has received the relation query twice and no query of Text
    Search, and the request returns mode [error] for both strategies with
    an empty answer, whatever the endpoint answers to the queries of Text
    Search. On the schedule without interleaving the same failure leaves
    Text Search with the outcome of its own two queries. *)
Theorem shared_wrapper_race (ep : endpoint)
    (list_of_set : list pystr -> list pystr) (held query_text : pystr)
    (w : world) (entity : pystr) :
  dict_get (str "entity") (prefixes (query_handler w)) = Ret entity ->
  ep (relationQuery_text (tokenizer query_text) entity 10) = None ->
  let raced := snd (dispatch_threads ep racing_schedule held query_text w) in
  let alone := snd (dispatch_threads ep [] held query_text w) in
  relation_results (query_handler raced) = Some error_result
  /\ text_results (query_handler raced) = Some error_result
  /\ log raced
     = log w ++ [relationQuery_text (tokenizer query_text) entity 10;
                 relationQuery_text (tokenizer query_text) entity 10]
  /\ fst (runQuery_threads ep list_of_set racing_schedule held query_text w)
     = Ret error_answer
  /\ alone = snd (dispatch ep query_text w)
  /\ relation_results (query_handler alone) = Some error_result
  /\ text_results (query_handler alone)
     = Some (text_outcome ep (prefixes (query_handler w)) query_text 20).
Proof.
  intros H Hep raced alone. subst raced alone.
  rewrite (dispatch_threads_racing ep held query_text w entity H Hep).
  rewrite dispatch_threads_sequential.
  destruct (dispatch_run ep query_text w) as [_ Hh]. rewrite Hh.
  cbn [snd query_handler log with_results relation_results text_results].
  repeat split.
  - unfold runQuery_threads.
    rewrite (bind_run _ _ _ _ _
               (dispatch_threads_racing ep held query_text w entity H Hep)).
    erewrite bind_run by (apply get_relation_results_run; reflexivity).
    erewrite bind_run by (apply get_text_results_run; reflexivity).
    reflexivity.
  - unfold relation_outcome, tier. now rewrite H, Hep.
Qed.

(** The query [Tehran] on an endpoint that fails on the queries of Relation
    Search and finds the entity for Text Search. Without interleaving the
    request reports mode [likeQuery] for Text Search and the entity; on the
    racing schedule it reports mode [error] and nothing. On the same
    schedule with the queries of Relation Search answered, Text Search is
    not in mode [error]. *)
Lemma shared_wrapper_race_witness :
  let w := initial_world [(city, str "City")] in
  let held := instance2labels_query in
  text_results
    (query_handler
       (snd (dispatch_threads endpoint_text_only racing_schedule held
               (str "Tehran") w)))
  = Some error_result
  /\ text_results
       (query_handler
          (snd (dispatch_threads endpoint_text_only [] held (str "Tehran") w)))
     = Some {| mode := str "likeQuery"; answer := [tehran] |}
  /\ text_results
       (query_handler
          (snd (dispatch_threads endpoint_text_found racing_schedule held
                  (str "Tehran") w)))
     = Some {| mode := str "semiLikeQuery"; answer := [] |}
  /\ fst (runQuery_threads endpoint_text_only first_occurrences racing_schedule
            held (str "Tehran") w)
     = Ret error_answer
  /\ (exists info,
        fst (runQuery_threads endpoint_text_only first_occurrences [] held
               (str "Tehran") w)
        = Ret {| relation_mode := str "error";
                 text_mode := str "likeQuery";
                 enriched := [(tehran, info)] |}).
Proof.
  intros w held.
  destruct (shared_wrapper_race endpoint_text_only first_occurrences held
              (str "Tehran") w (str "fkgr"))
    as (_ & Ht & _ & Hq & _); [reflexivity | reflexivity |].
  split; [exact Ht|].
  split; [vm_compute; reflexivity|].
  split; [vm_compute; reflexivity|].
  split; [exact Hq|].
  eexists. vm_compute. reflexivity.
Defined.

(** * Further properties *)

(** ** Tokenizer *)

Lemma split_app (sep : char) (a b : pystr) :
  split sep (a ++ sep :: b) = split sep a ++ split sep b.
Proof.
  induction a as [|c a IH]; simpl.
  - now rewrite N.eqb_refl.
  - destruct (N.eqb c sep); [now rewrite IH|].
    rewrite IH. pose proof (split_nonempty sep a) as Hne.
    destruct (split sep a) as [|p ps]; [congruence | reflexivity].
Qed.

Lemma split_free (sep : char) (p : pystr) : ~ In sep p -> split sep p = [p].
Proof.
  induction p as [|c p IH]; intros H; [reflexivity|]. simpl.
  destruct (N.eqb_spec c sep) as [->|Hc]; [exfalso; apply H; now left|].
  rewrite IH; [reflexivity | intros Hin; apply H; now right].
Qed.

Lemma split_join (sep : char) (pieces : list pystr) :
  pieces <> [] ->
  Forall (fun piece => ~ In sep piece) pieces ->
  split sep (join sep pieces) = pieces.
Proof.
  induction pieces as [|p ps IH]; intros Hne Hfree; [congruence|].
  inversion Hfree as [|? ? Hp Hps]; subst.
  destruct ps as [|q ps]; [now apply split_free|].
  change (join sep (p :: q :: ps)) with (p ++ sep :: join sep (q :: ps)).
  rewrite split_app, (split_free sep p Hp), IH; [reflexivity | discriminate | assumption].
Qed.

Lemma tokenizer_free (text : pystr) :
  Forall (fun token => ~ In space token) (tokenizer text).
Proof.
  rewrite tokenizer_filter. apply Forall_forall. intros token H.
  apply filter_In in H as [H _].
  pose proof (split_pieces_free space text) as Hf.
  rewrite Forall_forall in Hf. now apply Hf.
Qed.

(** X1: tokenizing two texts joined by one space gives the tokens of the
    first followed by the tokens of the second. *)
Theorem tokenizer_app (a b : pystr) :
  tokenizer (a ++ space :: b) = tokenizer a ++ tokenizer b.
Proof.
  rewrite !tokenizer_filter, split_app. apply filter_app.
Qed.

(** X2: joining the tokens of a text with single spaces and tokenizing
    again gives the same tokens; more generally any list of space-free
    strings longer than 2 characters is the token list of its join. *)
Theorem tokenizer_join (text : pystr) :
  tokenizer (join space (tokenizer text)) = tokenizer text
  /\ (forall tokens,
        Forall (fun token => 2 < length token /\ ~ In space token) tokens ->
        tokenizer (join space tokens) = tokens).
Proof.
  assert (H : forall tokens,
             Forall (fun token => 2 < length token /\ ~ In space token) tokens ->
             tokenizer (join space tokens) = tokens).
  { intros tokens Hall. destruct tokens as [|t ts]; [reflexivity|].
    rewrite tokenizer_filter, split_join.
    - apply forallb_filter_id, forallb_forall. intros x Hx.
      rewrite Forall_forall in Hall. apply Nat.ltb_lt. now apply Hall.
    - discriminate.
    - eapply Forall_impl; [|exact Hall]. intros x [_ Hx]; exact Hx. }
  split; [|exact H].
  apply H. apply Forall_forall. intros token Hin. split.
  - now apply (tokenizer_long text).
  - pose proof (tokenizer_free text) as Hf. rewrite Forall_forall in Hf.
    now apply Hf.
Qed.

Lemma tokenizer_join_witness :
  tokenizer (join space [str "abc"; str "hello"]) = [str "abc"; str "hello"].
Proof.
  destruct (tokenizer_join []) as [_ H]. apply H.
  repeat constructor; simpl; try lia; intros H'; vm_compute in H';
    repeat (destruct H' as [H'|H']; [discriminate|]); exact H'.
Defined.

(** ** Query text *)

(** X3: the exact-tier query of either strategy is its fixed opening, the
    label tests of all tokens joined by conjunction, and its fixed closing
    with the entity prefix and the limit; every token's test stands in the
    query. The content of the tokens has no influence on the connectives. *)
Theorem exact_tier_text (tokens : list pystr) (entity : pystr) (limit : Z) :
  relationQuery_text tokens entity limit
  = str "SELECT ?o (COUNT(DISTINCT ?r) AS ?relationCount) WHERE { ?o rdfs:label ?label . FILTER ("
    ++ conjunction tokens
    ++ str " && regex(str(?o), CONCAT(" ++ [dquote] ++ str "^" ++ [dquote]
    ++ str ", STR(" ++ entity
    ++ str ":))) ) ?s ?r ?o . } GROUP BY ?o ORDER BY DESC(?relationCount) LIMIT "
    ++ str_of_int limit
  /\ likeQuery_text tokens entity limit
     = str "SELECT DISTINCT ?o WHERE {?o rdfs:label ?label . FILTER ("
       ++ conjunction tokens
       ++ str "&& regex(str(?o), CONCAT(" ++ [dquote] ++ str "^" ++ [dquote]
       ++ str ", STR(" ++ entity ++ str ":))) ) } LIMIT " ++ str_of_int limit
  /\ (forall t, In t tokens ->
        contains (label_test t) (relationQuery_text tokens entity limit) = true
        /\ contains (label_test t) (likeQuery_text tokens entity limit) = true).
Proof.
  assert (HR : relationQuery_text tokens entity limit
  = str "SELECT ?o (COUNT(DISTINCT ?r) AS ?relationCount) WHERE { ?o rdfs:label ?label . FILTER ("
    ++ conjunction tokens
    ++ str " && regex(str(?o), CONCAT(" ++ [dquote] ++ str "^" ++ [dquote]
    ++ str ", STR(" ++ entity
    ++ str ":))) ) ?s ?r ?o . } GROUP BY ?o ORDER BY DESC(?relationCount) LIMIT "
    ++ str_of_int limit).
  { unfold relationQuery_text. cbv zeta.
    rewrite add_tokens_conjunction by reflexivity. now rewrite <- !app_assoc. }
  assert (HL : likeQuery_text tokens entity limit
     = str "SELECT DISTINCT ?o WHERE {?o rdfs:label ?label . FILTER ("
       ++ conjunction tokens
       ++ str "&& regex(str(?o), CONCAT(" ++ [dquote] ++ str "^" ++ [dquote]
       ++ str ", STR(" ++ entity ++ str ":))) ) } LIMIT " ++ str_of_int limit).
  { unfold likeQuery_text. cbv zeta.
    rewrite add_tokens_conjunction by reflexivity. now rewrite <- !app_assoc. }
  split; [exact HR|]. split; [exact HL|].
  intros t Ht. rewrite HR, HL.
  split; apply contains_mono_l, contains_mono_r, conjunction_tests, Ht.
Qed.

Lemma exact_tier_text_witness :
  contains (label_test (str "bbb"))
    (relationQuery_text (tokenizer (str "aaa bbb")) (str "fkgr") 10) = true.
Proof.
  destruct (exact_tier_text (tokenizer (str "aaa bbb")) (str "fkgr") 10)
    as (_ & _ & H).
  apply (H (str "bbb")). vm_compute. right; now left.
Defined.

(** X4: the semi-tier query of either strategy is its fixed opening, the
    conjunction of all tokens but the last, a disjunction sign, the
    conjunction of all tokens but the first, the clause of the interior
    tokens when there are more than 3 tokens, and its fixed closing. For a
    query of one token or none, both conjunctions are empty: the semi-tier
    query is the same text whatever the token is. *)
Theorem semi_tier_text (tokens : list pystr) (entity : pystr) (limit : Z) :
  semiRelationQuery_text tokens entity limit
  = str "SELECT ?o (COUNT(DISTINCT ?r) AS ?relationCount) WHERE {?o rdfs:label ?label . FILTER(("
    ++ conjunction (start_tokens tokens) ++ str " || "
    ++ conjunction (end_tokens tokens)
    ++ (if 3 <? length tokens then mid_clause (interior tokens) else [])
    ++ str ") && regex(str(?o), CONCAT(" ++ [dquote] ++ str "^" ++ [dquote]
    ++ str ", STR(" ++ entity
    ++ str ":))) ) ?s ?r ?o . } GROUP BY ?o ORDER BY DESC(?relationCount) LIMIT "
    ++ str_of_int limit
  /\ semiLikeQuery_text tokens entity limit
     = str "SELECT DISTINCT ?o WHERE {?o rdfs:label ?label . FILTER (("
       ++ conjunction (start_tokens tokens) ++ str " || "
       ++ conjunction (end_tokens tokens)
       ++ (if 3 <? length tokens then mid_clause (interior tokens) else [])
       ++ str ") && regex(str(?o), CONCAT(" ++ [dquote] ++ str "^" ++ [dquote]
       ++ str ", STR(" ++ entity ++ str ":))) ) } LIMIT " ++ str_of_int limit
  /\ (length tokens <= 1 ->
      semiRelationQuery_text tokens entity limit
      = semiRelationQuery_text [] entity limit
      /\ semiLikeQuery_text tokens entity limit
         = semiLikeQuery_text [] entity limit).
Proof.
  split; [|split].
  - unfold semiRelationQuery_text. cbv zeta.
    rewrite !(add_tokens_conjunction _ []) by reflexivity.
    rewrite semiRelation_sparql3_guard, add_mid_tokens_clause. reflexivity.
  - unfold semiLikeQuery_text. cbv zeta.
    rewrite !(add_tokens_conjunction _ []) by reflexivity.
    rewrite semiLike_sparql3_guard, add_mid_tokens_clause. reflexivity.
  - intros H. destruct tokens as [|t [|u tokens]]; simpl in H; try lia;
      split; reflexivity.
Qed.

Lemma semi_tier_text_witness :
  semiRelationQuery_text (tokenizer (str "tehran")) (str "fkgr") 10
  = semiRelationQuery_text [] (str "fkgr") 10.
Proof.
  destruct (semi_tier_text (tokenizer (str "tehran")) (str "fkgr") 10)
    as (_ & _ & H).
  apply H. vm_compute. lia.
Defined.

(** ** Result merger *)

Lemma outside_In (relation text : list pystr) (x : pystr) :
  In x (outside relation text) <-> In x text /\ ~ In x relation.
Proof.
  unfold outside. rewrite filter_In, negb_true_iff, mem_false. reflexivity.
Qed.

(** What the merge evaluates to. *)
Lemma mergeResults_outcome (query : pystr) (relation text : list pystr) :
  mergeResults query relation text
  = if mem [] (outside relation text) then Raise ZeroDivisionError
    else Ret (merge_policy relation (text_purity query relation text)).
Proof.
  destruct (mem [] (outside relation text)) eqn:E.
  - apply mem_In in E. unfold mergeResults, sortingTextPurResults.
    now rewrite score_text_results_empty_uri.
  - apply mem_false in E. unfold mergeResults.
    rewrite sortingTextPurResults_text_purity by assumption.
    simpl. now rewrite merge_policy_branches.
Qed.

Lemma merge_policy_perm (relation textPurity : list pystr) :
  Permutation (merge_policy relation textPurity) (relation ++ textPurity).
Proof.
  destruct relation as [|r relation], textPurity as [|t textPurity];
    try reflexivity; [simpl; now rewrite app_nil_r|].
  unfold merge_policy.
  destruct ((2 <? length (r :: relation)) && (2 <? length (t :: textPurity))).
  - rewrite <- (firstn_skipn 2 (r :: relation)) at 3.
    rewrite <- (firstn_skipn 2 (t :: textPurity)) at 3.
    rewrite <- !app_assoc. apply Permutation_app_head, Permutation_app_swap_app.
  - destruct (2 <? length (r :: relation)); [|reflexivity].
    rewrite <- (firstn_skipn 2 (r :: relation)) at 3.
    rewrite <- !app_assoc. apply Permutation_app_head, Permutation_app_comm.
Qed.

Lemma text_purity_perm (query : pystr) (relation text : list pystr) :
  Permutation (text_purity query relation text)
    (first_occurrences (outside relation text)).
Proof. apply sorted_reverse_perm. Qed.

Lemma text_purity_In (query : pystr) (relation text : list pystr) (x : pystr) :
  In x (text_purity query relation text) <-> In x text /\ ~ In x relation.
Proof.
  rewrite <- outside_In. split; intros H.
  - apply (Permutation_in _ (text_purity_perm query relation text)) in H.
    exact (proj1 (first_occurrences_In _ _) H).
  - apply (Permutation_in _ (Permutation_sym (text_purity_perm query relation text))).
    exact (proj2 (first_occurrences_In _ _) H).
Qed.

(** X5: the merge raises exactly when the text list holds the empty string
    and the relation list does not, and then with a division by zero; in
    every other case it returns a list. *)
Theorem mergeResults_failure (query : pystr) (relation text : list pystr) :
  (mergeResults query relation text = Raise ZeroDivisionError
   <-> In [] text /\ ~ In [] relation)
  /\ (forall e, mergeResults query relation text = Raise e -> e = ZeroDivisionError)
  /\ (~ (In [] text /\ ~ In [] relation) ->
      exists merged, mergeResults query relation text = Ret merged).
Proof.
  rewrite mergeResults_outcome.
  destruct (mem [] (outside relation text)) eqn:E.
  - apply mem_In, outside_In in E.
    split; [split; auto|]. split; [intros e H; congruence | tauto].
  - apply mem_false in E. rewrite outside_In in E.
    split; [split; [discriminate | tauto]|].
    split; [discriminate | intros _; eexists; reflexivity].
Qed.

Lemma mergeResults_failure_witness :
  mergeResults (str "abc") [str "r"] [str "abcd"; []] = Raise ZeroDivisionError
  /\ exists merged, mergeResults (str "abc") [[]] [str "abcd"; []] = Ret merged.
Proof.
  split.
  - apply (mergeResults_failure (str "abc") [str "r"] [str "abcd"; []]).
    split; [right; now left | intros [H|[]]; discriminate].
  - apply (mergeResults_failure (str "abc") [[]] [str "abcd"; []]).
    intros [_ H]. apply H. now left.
Defined.

(** X6: a returned merge holds every relation result and every distinct
    text result that is not a relation result, each as often as the
    relation list or once: it is a rearrangement of the relation list
    followed by those text results, its members are exactly the members of
    the two lists, and it repeats nothing when the relation list repeats
    nothing. *)
Theorem mergeResults_members (query : pystr) (relation text merged : list pystr) :
  mergeResults query relation text = Ret merged ->
  Permutation merged (relation ++ first_occurrences (outside relation text))
  /\ (forall x, In x merged <-> In x relation \/ In x text)
  /\ length merged
     = length relation + length (first_occurrences (outside relation text))
  /\ (NoDup relation -> NoDup merged).
Proof.
  rewrite mergeResults_outcome.
  destruct (mem [] (outside relation text)); [discriminate|].
  intros H; injection H as <-.
  assert (Hp : Permutation (merge_policy relation (text_purity query relation text))
                 (relation ++ first_occurrences (outside relation text))).
  { rewrite merge_policy_perm. apply Permutation_app_head, text_purity_perm. }
  split; [exact Hp|]. split; [|split].
  - intros x. split.
    + intros H. apply (Permutation_in _ Hp) in H. apply in_app_or in H as [H|H];
        [now left|]. apply first_occurrences_In, outside_In in H. now right.
    + intros H. apply (Permutation_in _ (Permutation_sym Hp)). apply in_or_app.
      destruct (mem x relation) eqn:E; [left; now apply mem_In|].
      destruct H as [H|H]; [now left|]. right.
      apply first_occurrences_In, outside_In. split; [exact H | now apply mem_false].
  - rewrite (Permutation_length Hp). apply length_app.
  - intros Hnd. apply (Permutation_NoDup (Permutation_sym Hp)).
    apply NoDup_app; [exact Hnd | apply first_occurrences_NoDup|].
    intros a Ha Hb. apply first_occurrences_In, outside_In in Hb. tauto.
Qed.

Lemma mergeResults_members_witness :
  exists merged,
    mergeResults (str "abc") [str "r1"] [str "abcd"; str "r1"; str "abcd"] = Ret merged
    /\ length merged = 2.
Proof.
  exists [str "r1"; str "abcd"].
  assert (H : mergeResults (str "abc") [str "r1"] [str "abcd"; str "r1"; str "abcd"]
              = Ret [str "r1"; str "abcd"]) by (vm_compute; reflexivity).
  split; [exact H|].
  destruct (mergeResults_members _ _ _ _ H) as (_ & _ & Hl & _).
  rewrite Hl. reflexivity.
Defined.

Lemma filter_all {A} (p : A -> bool) (l : list A) :
  (forall x, In x l -> p x = true) -> filter p l = l.
Proof. intros H. apply forallb_filter_id, forallb_forall, H. Qed.

Lemma filter_none {A} (p : A -> bool) (l : list A) :
  (forall x, In x l -> p x = false) -> filter p l = [].
Proof.
  induction l as [|a l IH]; intros H; [reflexivity|]. simpl.
  rewrite (H a) by now left. apply IH. intros x Hx; apply H; now right.
Qed.

Lemma filter_firstn_skipn {A} (p : A -> bool) (n : nat) (l : list A) :
  filter p (firstn n l) ++ filter p (skipn n l) = filter p l.
Proof. now rewrite <- filter_app, firstn_skipn. Qed.

(** Filtering a merge by a test that holds on the relation list and fails
    on the text-purity list gives the relation list back, and conversely. *)
Lemma merge_policy_unmerge (p : pystr -> bool) (relation textPurity : list pystr) :
  (forall x, In x relation -> p x = true) ->
  (forall x, In x textPurity -> p x = false) ->
  filter p (merge_policy relation textPurity) = relation
  /\ filter (fun x => negb (p x)) (merge_policy relation textPurity) = textPurity.
Proof.
  intros Hr Ht.
  assert (Hr' : forall x, In x relation -> negb (p x) = false)
    by (intros x Hx; now rewrite Hr).
  assert (Ht' : forall x, In x textPurity -> negb (p x) = true)
    by (intros x Hx; now rewrite Ht).
  pose proof (filter_all p relation Hr) as E1.
  pose proof (filter_none p textPurity Ht) as E2.
  pose proof (filter_none _ relation Hr') as E3.
  pose proof (filter_all _ textPurity Ht') as E4.
  pose proof (filter_firstn_skipn p 2 relation) as F1.
  pose proof (filter_firstn_skipn p 2 textPurity) as F2.
  pose proof (filter_firstn_skipn (fun x => negb (p x)) 2 relation) as F3.
  pose proof (filter_firstn_skipn (fun x => negb (p x)) 2 textPurity) as F4.
  rewrite E1 in F1. rewrite E2 in F2. rewrite E3 in F3. rewrite E4 in F4.
  apply app_eq_nil in F2 as [F2a F2b]. apply app_eq_nil in F3 as [F3a F3b].
  destruct relation as [|r relation], textPurity as [|t textPurity];
    try (split; [exact E1 || exact E2 | exact E3 || exact E4]).
  unfold merge_policy.
  destruct ((2 <? length (r :: relation)) && (2 <? length (t :: textPurity))).
  - rewrite !filter_app, F2a, F2b, F3a, F3b. simpl. rewrite !app_nil_r.
    split; [exact F1 | exact F4].
  - destruct (2 <? length (r :: relation)).
    + rewrite !filter_app, E2, E4, F3a, F3b. simpl. split; [exact F1 | now rewrite app_nil_r].
    + rewrite !filter_app, E1, E2, E3, E4. split; [now rewrite app_nil_r | reflexivity].
Qed.

Lemma merge_policy_top (relation textPurity : list pystr) :
  firstn (Nat.min 2 (length relation)) (merge_policy relation textPurity)
  = firstn 2 relation.
Proof.
  destruct relation as [|r1 [|r2 [|r3 relation]]];
    destruct textPurity as [|t1 [|t2 [|t3 textPurity]]]; reflexivity.
Qed.

(** X7: a returned merge reorders neither list: its entries that are
    relation results are the relation list in its order, its other entries
    are the text-purity list in its order, and the first two relation
    results (or the only one) stay at the top. *)
Theorem mergeResults_order (query : pystr) (relation text merged : list pystr) :
  mergeResults query relation text = Ret merged ->
  filter (fun x => mem x relation) merged = relation
  /\ filter (fun x => negb (mem x relation)) merged
     = text_purity query relation text
  /\ firstn (Nat.min 2 (length relation)) merged = firstn 2 relation.
Proof.
  rewrite mergeResults_outcome.
  destruct (mem [] (outside relation text)); [discriminate|].
  intros H; injection H as <-.
  destruct (merge_policy_unmerge (fun x => mem x relation) relation
              (text_purity query relation text)) as [H1 H2].
  - intros x Hx. now apply mem_In.
  - intros x Hx. apply text_purity_In in Hx. now apply mem_false.
  - split; [exact H1|]. split; [exact H2 | apply merge_policy_top].
Qed.

Lemma mergeResults_order_witness :
  exists merged,
    mergeResults (str "abc") [str "r1"; str "r2"; str "r3"]
      [str "xxabc"; str "abc"; str "zabc"] = Ret merged
    /\ firstn 2 merged = [str "r1"; str "r2"].
Proof.
  assert (H : mergeResults (str "abc") [str "r1"; str "r2"; str "r3"]
                [str "xxabc"; str "abc"; str "zabc"]
              = Ret [str "r1"; str "r2"; str "abc"; str "zabc"; str "r3"; str "xxabc"])
    by (vm_compute; reflexivity).
  eexists. split; [exact H|].
  destruct (mergeResults_order _ _ _ _ H) as (_ & _ & Ht). exact Ht.
Defined.

(** ** Link filter *)

(** X8: filtering links twice with one query changes nothing more, and a
    concatenation of candidate lists is filtered part by part. *)
Theorem removeBadLinks_compose (a b : list pystr) (query : pystr) :
  removeBadLinks (removeBadLinks a query) query = removeBadLinks a query
  /\ removeBadLinks (a ++ b) query
     = removeBadLinks a query ++ removeBadLinks b query.
Proof.
  rewrite !removeBadLinks_filter. split; [|apply filter_app].
  rewrite filter_filter_and. apply filter_ext.
  intros link. now destruct (shares_token query link).
Qed.

Lemma split_piece_length (sep : char) (s piece : pystr) :
  In piece (split sep s) -> length piece <= length s.
Proof.
  revert piece; induction s as [|c s IH]; intros piece; simpl.
  - intros [<-|[]]. reflexivity.
  - destruct (N.eqb c sep).
    + intros [<-|H]; [simpl; lia | specialize (IH piece H); lia].
    + pose proof (split_nonempty sep s) as Hne.
      destruct (split sep s) as [|p ps]; [congruence|].
      intros [<-|H].
      * specialize (IH p (or_introl eq_refl)). simpl. lia.
      * specialize (IH piece (or_intror H)). lia.
Qed.

Lemma clean_token_length (token : pystr) : length (clean_token token) <= length token.
Proof.
  unfold clean_token, remove_char.
  repeat (etransitivity; [apply filter_length_le|]). reflexivity.
Qed.

(** X9: a link that passes the filter has more than 33 characters (the 31
    of the cut-off prefix and a piece of at least the 3 a token has), and a
    query without a token longer than 2 characters lets no link pass. *)
Theorem removeBadLinks_bounds (links : list pystr) (query : pystr) :
  (forall link, In link (removeBadLinks links query) -> 33 < length link)
  /\ (tokenizer query = [] -> removeBadLinks links query = []).
Proof.
  rewrite removeBadLinks_filter. split.
  - intros link H. apply filter_In in H as [_ H].
    apply shares_token_iff in H as (piece & Hp & Ht).
    apply tokenizer_long in Ht.
    unfold local_pieces in Hp. apply in_map_iff in Hp as (raw & <- & Hraw).
    pose proof (clean_token_length raw) as H1.
    pose proof (split_piece_length _ _ _ Hraw) as H2.
    rewrite length_skipn in H2. lia.
  - intros H. apply filter_none. intros link _.
    unfold shares_token. rewrite H.
    induction (local_pieces link) as [|p ps IH]; [reflexivity | exact IH].
Qed.

Lemma removeBadLinks_bounds_witness :
  removeBadLinks [tehran; str "http://fkg.iust.ac.ir/resource/Qom"] (str "in of") = [].
Proof.
  destruct (removeBadLinks_bounds
              [tehran; str "http://fkg.iust.ac.ir/resource/Qom"] (str "in of"))
    as [_ H].
  apply H. reflexivity.
Defined.

(** ** Result parser *)

Lemma dict_get_raise {V} (k : pystr) (d : dict V) (e : exn) :
  dict_get k d = Raise e -> e = KeyError.
Proof.
  induction d as [|[k' v] d IH]; simpl; [congruence|].
  destruct (str_eqb k k'); [discriminate | exact IH].
Qed.

Lemma mapO_Ret {A B} (f : A -> outcome B) (l : list A) (bs : list B) :
  mapO f l = Ret bs <-> Forall2 (fun a b => f a = Ret b) l bs.
Proof.
  revert bs; induction l as [|a l IH]; intros bs; simpl.
  - split; [intros H; injection H as <-; constructor | intros H; now inversion H].
  - destruct (f a) as [b|e] eqn:Ea; simpl.
    + destruct (mapO f l) as [bs'|e] eqn:El; simpl.
      * split.
        -- intros H; injection H as <-. constructor; [exact Ea | now apply IH].
        -- intros H; inversion H as [|? b0 ? bs0 Hb Hbs]; subst.
           apply IH in Hbs. congruence.
      * split; [discriminate|].
        intros H; inversion H as [|? b0 ? bs0 Hb Hbs]; subst.
        apply IH in Hbs. discriminate.
    + split; [discriminate|].
      intros H; inversion H as [|? b0 ? bs0 Hb Hbs]; subst. congruence.
Qed.

Lemma mapO_Raise {A B} (f : A -> outcome B) (l : list A) (e : exn) :
  mapO f l = Raise e -> exists a, In a l /\ f a = Raise e.
Proof.
  induction l as [|a l IH]; simpl; [discriminate|].
  destruct (f a) as [b|e'] eqn:Ea; simpl.
  - destruct (mapO f l) as [bs|e'] eqn:El; simpl; [discriminate|].
    intros H; injection H as ->. destruct (IH eq_refl) as (a' & Ha & Hf).
    exists a'. split; [now right | exact Hf].
  - intros H; injection H as ->. exists a. split; [now left | exact Ea].
Qed.

(** X10: the result parser raises [IndexError] on a response that declares
    no variable, even one without rows; otherwise it returns, row by row
    and in order, the value bound to the first declared variable, exactly
    when every row binds that variable, and raises [KeyError] when some row
    does not. The other variables play no part. *)
Theorem resultParser_spec (result : response) :
  (head_vars result = [] -> resultParser result = Raise IndexError)
  /\ (forall v vs, head_vars result = v :: vs ->
        (forall values,
            resultParser result = Ret values
            <-> Forall2 (fun row value => dict_get v row = Ret value)
                  (bindings result) values)
        /\ (forall e, resultParser result = Raise e ->
              e = KeyError
              /\ exists row, In row (bindings result)
                             /\ dict_get v row = Raise KeyError))
  /\ (forall values,
        resultParser result = Ret values ->
        length values = length (bindings result)).
Proof.
  unfold resultParser. destruct (head_vars result) as [|v vs].
  - split; [reflexivity|]. split; [discriminate | discriminate].
  - split; [discriminate|]. split.
    + intros v' vs' E; injection E as <- <-. split.
      * intros values. apply mapO_Ret.
      * intros e H. apply mapO_Raise in H as (row & Hin & Hrow).
        pose proof (dict_get_raise _ _ _ Hrow) as ->.
        split; [reflexivity | now exists row].
    + intros values H. apply mapO_Ret in H.
      symmetry. eapply Forall2_length, H.
Qed.

Lemma resultParser_spec_witness :
  resultParser {| head_vars := []; bindings := [] |} = Raise IndexError
  /\ resultParser {| head_vars := [str "o"; str "n"];
                     bindings := [[(str "n", str "3"); (str "o", tehran)]] |}
     = Ret [tehran].
Proof.
  split.
  - apply (resultParser_spec {| head_vars := []; bindings := [] |}). reflexivity.
  - eapply (resultParser_spec
              {| head_vars := [str "o"; str "n"];
                 bindings := [[(str "n", str "3"); (str "o", tehran)]] |});
      [reflexivity|].
    repeat constructor.
Defined.

(** ** The class index *)

Lemma dict_get_set_same {V} (k : pystr) (v : V) (d : dict V) :
  dict_get k (dict_set k v d) = Ret v.
Proof.
  induction d as [|[k' v'] d IH]; simpl; [now rewrite str_eqb_refl|].
  destruct (str_eqb k k') eqn:E; simpl; now rewrite E.
Qed.

Lemma dict_get_set_other {V} (k k' : pystr) (v : V) (d : dict V) :
  k <> k' -> dict_get k' (dict_set k v d) = dict_get k' d.
Proof.
  intros Hne. induction d as [|[k0 v0] d IH]; simpl.
  - destruct (str_eqb_spec k' k); [congruence | reflexivity].
  - destruct (str_eqb_spec k k0) as [->|Hk]; simpl.
    + destruct (str_eqb_spec k' k0); [congruence | reflexivity].
    + destruct (str_eqb k' k0); [reflexivity | exact IH].
Qed.

Lemma collect_labels_raise (rows : list row) (acc : dict pystr) (e : exn) :
  collect_labels rows acc = Raise e -> e = KeyError.
Proof.
  revert acc; induction rows as [|entry rows IH]; intros acc; simpl; [discriminate|].
  destruct (dict_get (str "instance") entry) as [i|e1] eqn:Ei; simpl.
  - destruct (dict_get (str "label") entry) as [l|e2] eqn:El; simpl; [apply IH|].
    intros H; injection H as <-. now apply dict_get_raise in El.
  - intros H; injection H as <-. now apply dict_get_raise in Ei.
Qed.

(** Rows about other classes leave a class's entry alone. *)
Lemma collect_labels_other (rows : list row) (acc index : dict pystr) (i : pystr) :
  collect_labels rows acc = Ret index ->
  (forall entry, In entry rows -> dict_get (str "instance") entry <> Ret i) ->
  dict_get i index = dict_get i acc.
Proof.
  revert acc; induction rows as [|entry rows IH]; intros acc H Hno; simpl in H.
  - now injection H as <-.
  - destruct (dict_get (str "instance") entry) as [i'|] eqn:Ei; [|discriminate].
    destruct (dict_get (str "label") entry) as [l|] eqn:El; [|discriminate].
    simpl in H. rewrite (IH _ H) by (intros r Hr; apply Hno; now right).
    apply dict_get_set_other. intros ->. apply (Hno entry); [now left | exact Ei].
Qed.

Lemma collect_labels_last (pre post : list row) (entry : row)
    (acc index : dict pystr) (i l : pystr) :
  collect_labels (pre ++ entry :: post) acc = Ret index ->
  dict_get (str "instance") entry = Ret i ->
  dict_get (str "label") entry = Ret l ->
  (forall later, In later post -> dict_get (str "instance") later <> Ret i) ->
  dict_get i index = Ret l.
Proof.
  revert acc; induction pre as [|r pre IH]; intros acc H Hi Hl Hno; simpl in H.
  - rewrite Hi, Hl in H. simpl in H.
    rewrite (collect_labels_other _ _ _ _ H Hno). apply dict_get_set_same.
  - destruct (dict_get (str "instance") r) as [i'|]; [|discriminate].
    destruct (dict_get (str "label") r) as [l'|]; [|discriminate].
    simpl in H. now apply (IH _ H).
Qed.

Lemma collect_labels_missing (rows : list row) (acc : dict pystr) (entry : row) :
  In entry rows ->
  dict_get (str "instance") entry = Raise KeyError
  \/ dict_get (str "label") entry = Raise KeyError ->
  collect_labels rows acc = Raise KeyError.
Proof.
  intros Hin Hmiss.
  destruct (collect_labels rows acc) as [index|e] eqn:E.
  - exfalso. revert acc E. induction rows as [|r rows IH]; intros acc E; [destruct Hin|].
    simpl in E.
    destruct (dict_get (str "instance") r) as [i'|] eqn:Ei; [|discriminate].
    destruct (dict_get (str "label") r) as [l'|] eqn:El; [|discriminate].
    destruct Hin as [->|Hin]; [destruct Hmiss; congruence|].
    simpl in E. now apply (IH Hin _ E).
  - now rewrite (collect_labels_raise _ _ _ E).
Qed.

(** X11: when the endpoint returns several labels for one class, the index
    a new instance is built with holds the label of the last such row; and
    when some row lacks the instance or the label, the construction raises
    [KeyError] and no instance is built. *)
Theorem instance2labels_last_label (ep : endpoint) (prefixes : dict pystr)
    (w : world) (results : response) :
  ep instance2labels_query = Some results ->
  (forall h pre entry post i l,
      fst (QueryRunner_init ep prefixes w) = Ret h ->
      bindings results = pre ++ entry :: post ->
      dict_get (str "instance") entry = Ret i ->
      dict_get (str "label") entry = Ret l ->
      (forall later, In later post -> dict_get (str "instance") later <> Ret i) ->
      dict_get i (instance2labels h) = Ret l)
  /\ (forall entry,
        In entry (bindings results) ->
        dict_get (str "instance") entry = Raise KeyError
        \/ dict_get (str "label") entry = Raise KeyError ->
        fst (QueryRunner_init ep prefixes w) = Raise KeyError).
Proof.
  intros Hep. rewrite QueryRunner_init_run. unfold index_build. rewrite Hep.
  simpl fst. split.
  - intros h pre entry post i l H Hb Hi Hl Hno.
    destruct (collect_labels (bindings results) []) as [index|] eqn:E; [|discriminate].
    injection H as <-. simpl. rewrite Hb in E.
    now apply (collect_labels_last pre post entry [] index i l).
  - intros entry Hin Hmiss.
    now rewrite (collect_labels_missing _ [] entry Hin Hmiss).
Qed.

Lemma instance2labels_last_label_witness :
  exists h,
    fst (QueryRunner_init endpoint_two_labels default_prefixes (initial_world [])) = Ret h
    /\ dict_get city (instance2labels h) = Ret (str "Shahr").
Proof.
  destruct (instance2labels_last_label endpoint_two_labels default_prefixes
              (initial_world []) _ eq_refl) as [H _].
  eexists. split; [vm_compute; reflexivity|].
  apply (H _ [[(str "instance", city); (str "label", str "City")]]
           [(str "instance", city); (str "label", str "Shahr")] []);
    try reflexivity.
  intros later [].
Defined.

(** ** Category scorer *)

Lemma score_categories_tagged (labels : pystr) (categories ks : list pystr) :
  ~ In [] categories ->
  score_categories labels categories (tagged (category_score labels) ks)
  = Ret (tagged (category_score labels) (fold_left add_key categories ks)).
Proof.
  revert ks; induction categories as [|c cs IH]; intros ks Hne; [reflexivity|].
  simpl in *. destruct c as [|x c]; [tauto|].
  change (divide (label_overlap labels (x :: c)) (length (x :: c)))
    with (Ret (category_score labels (x :: c))).
  simpl obind. rewrite dict_set_tagged. apply IH; tauto.
Qed.

Lemma score_categories_empty (labels : pystr) (categories : list pystr) (d : dict Q) :
  In [] categories ->
  score_categories labels categories d = Raise ZeroDivisionError.
Proof.
  revert d; induction categories as [|c cs IH]; intros d Hin; [destruct Hin|].
  simpl. destruct c as [|x c]; [reflexivity|].
  destruct Hin as [Hin|Hin]; [discriminate|]. simpl. now apply IH.
Qed.

Lemma label_overlap_le (labels category : pystr) :
  label_overlap labels category <= length labels.
Proof.
  unfold label_overlap. rewrite count_loop. simpl. apply filter_length_le.
Qed.

Lemma tagged_In {V} (f : pystr -> V) (ks : list pystr) (k : pystr) (v : V) :
  In (k, v) (tagged f ks) <-> In k ks /\ v = f k.
Proof.
  unfold tagged. rewrite in_map_iff. split.
  - intros (k' & E & H). injection E as <- <-. now split.
  - intros [H ->]. now exists k.
Qed.

(** What the category scorer returns when it returns. *)
Lemma categoryScoring_sorted (self : QueryRunner) (o labels : pystr)
    (ontology categories : list pystr) :
  dict_get o (instance2labels self) = Ret labels ->
  ~ In [] categories ->
  categoryScoring self (o :: ontology) categories
  = Ret (sorted_reverse snd
           (tagged (category_score labels) (first_occurrences categories))).
Proof.
  intros Hl Hne. unfold categoryScoring. rewrite Hl. simpl obind.
  pose proof (score_categories_tagged labels categories [] Hne) as H.
  change (tagged (category_score labels) []) with (@nil (pystr * Q)) in H.
  rewrite H. simpl obind. rewrite add_keys_first_occurrences. simpl.
  do 3 f_equal. apply filter_all. reflexivity.
Qed.

(** X12: the category scorer raises [IndexError] on an empty ontology
    list, [KeyError] when the first ontology class is not in the index, and
    a division by zero when a category is the empty string; otherwise it
    returns every distinct category once, with the number of characters of
    the class label (counted with repetition) that occur in the category,
    over the category's length, sorted by descending score. Only the first
    ontology class is consulted. *)
Theorem categoryScoring_outcome (self : QueryRunner) (ontology categories : list pystr) :
  (ontology = [] -> categoryScoring self ontology categories = Raise IndexError)
  /\ (forall o rest,
        ontology = o :: rest ->
        dict_get o (instance2labels self) = Raise KeyError ->
        categoryScoring self ontology categories = Raise KeyError)
  /\ (forall o rest labels,
        ontology = o :: rest ->
        dict_get o (instance2labels self) = Ret labels ->
        (In [] categories ->
         categoryScoring self ontology categories = Raise ZeroDivisionError)
        /\ (~ In [] categories ->
            exists sorted_categories,
              categoryScoring self ontology categories = Ret sorted_categories
              /\ categoryScoring self [o] categories = Ret sorted_categories
              /\ Permutation (map fst sorted_categories)
                   (first_occurrences categories)
              /\ StronglySorted (descending snd) sorted_categories
              /\ forall c s,
                   In (c, s) sorted_categories ->
                   s = category_score labels c
                   /\ label_overlap labels c
                      = length (filter (fun label => contains [label] c) labels))).
Proof.
  split; [intros ->; reflexivity|]. split.
  - intros o rest -> H. unfold categoryScoring. now rewrite H.
  - intros o rest labels -> Hl. split.
    + intros Hin. unfold categoryScoring. rewrite Hl. simpl obind.
      now rewrite score_categories_empty.
    + intros Hne.
      exists (sorted_reverse snd
                (tagged (category_score labels) (first_occurrences categories))).
      split; [apply categoryScoring_sorted; assumption|].
      split; [apply categoryScoring_sorted; assumption|].
      split; [|split].
      * rewrite sorted_reverse_perm. unfold tagged. rewrite map_map. simpl.
        now rewrite map_id.
      * apply sorted_reverse_sorted.
      * intros c s H.
        apply (Permutation_in _ (sorted_reverse_perm snd _)) in H.
        apply tagged_In in H as [_ ->]. split; [reflexivity|].
        unfold label_overlap. now rewrite count_loop.
Qed.

Lemma categoryScoring_outcome_witness :
  categoryScoring (query_handler (initial_world [(city, str "City")])) [] [str "c"]
  = Raise IndexError
  /\ categoryScoring (query_handler (initial_world [(city, str "City")])) [tehran] [str "c"]
     = Raise KeyError
  /\ categoryScoring (query_handler (initial_world [(city, str "City")])) [city] [str "c"; []]
     = Raise ZeroDivisionError.
Proof.
  pose proof (categoryScoring_outcome
                (query_handler (initial_world [(city, str "City")])) []
                [str "c"]) as (H1 & _).
  pose proof (categoryScoring_outcome
                (query_handler (initial_world [(city, str "City")])) [tehran]
                [str "c"]) as (_ & H2 & _).
  pose proof (categoryScoring_outcome
                (query_handler (initial_world [(city, str "City")])) [city]
                [str "c"; []]) as (_ & _ & H3).
  split; [now apply H1|]. split; [now apply (H2 tehran [])|].
  apply (H3 city [] (str "City")); [reflexivity | reflexivity | right; now left].
Defined.

(** ** Strategy results *)

Lemma strategy_outcome_cases (exact_label semi_label : string)
    (exact semi : outcome (list pystr)) :
  let r := strategy_outcome exact_label semi_label exact semi in
  (mode r = str exact_label /\ answer r <> [] /\ exact = Ret (answer r))
  \/ (mode r = str semi_label /\ exact = Ret [] /\ semi = Ret (answer r))
  \/ (r = error_result /\ (exact = Ret [] -> exists e, semi = Raise e)).
Proof.
  destruct exact as [[|row rows]|e]; simpl.
  - destruct semi as [rows|e]; simpl.
    + right; left. repeat split.
    + right; right. split; [reflexivity | intros _; now exists e].
  - left. repeat split. discriminate.
  - right; right. split; [reflexivity | discriminate].
Qed.

Lemma strategy_queries_length (exact_query semi_query : pystr)
    (exact : outcome (list pystr)) :
  length (strategy_queries exact_query semi_query exact) <= 2.
Proof. destruct exact as [[|row rows]|e]; simpl; lia. Qed.

(** X13: Relation Search always returns: it never raises. The result it
    returns is the one it stores; the other strategy's stored result, the
    prefixes and the index are left as they were. A result labelled with
    the exact tier has a non-empty answer, a result in mode [error] has an
    empty one, there is no fourth mode, and at most two queries are
    issued. *)
Theorem relationSearch_result (ep : endpoint) (query_text : pystr) (limit : Z)
    (w : world) :
  exists r,
    fst (relationSearch ep query_text limit w) = Ret r
    /\ query_handler (snd (relationSearch ep query_text limit w))
       = {| instance2labels := instance2labels (query_handler w);
            prefixes := prefixes (query_handler w);
            relation_results := Some r;
            text_results := text_results (query_handler w) |}
    /\ ((mode r = str "relationQuery" /\ answer r <> [])
        \/ mode r = str "semiRelationQuery"
        \/ r = error_result)
    /\ length (log (snd (relationSearch ep query_text limit w)))
       <= length (log w) + 2.
Proof.
  destruct (relationSearch_handler ep query_text limit w) as [Hr Hh].
  eexists. split; [exact Hr|]. split; [exact Hh|]. split.
  - unfold relation_outcome.
    destruct (dict_get (str "entity") (prefixes (query_handler w))) as [entity|e];
      [|right; right; reflexivity].
    destruct (strategy_outcome_cases "relationQuery" "semiRelationQuery"
                (tier ep (relationQuery_text (tokenizer query_text) entity limit))
                (tier ep (semiRelationQuery_text (tokenizer query_text) entity limit)))
      as [(H1 & H2 & _)|[(H1 & _)|(H1 & _)]]; tauto.
  - destruct (dict_get (str "entity") (prefixes (query_handler w))) as [entity|e] eqn:H.
    + rewrite (relationSearch_run ep query_text limit w entity H). simpl.
      rewrite length_app.
      pose proof (strategy_queries_length
                    (relationQuery_text (tokenizer query_text) entity limit)
                    (semiRelationQuery_text (tokenizer query_text) entity limit)
                    (tier ep (relationQuery_text (tokenizer query_text) entity limit))).
      lia.
    + rewrite (relationSearch_no_prefix ep query_text limit w e H). simpl. lia.
Qed.

(** X14: Text Search always returns: it never raises. The result it returns
    is the one it stores; the other strategy's stored result, the prefixes
    and the index are left as they were. A result labelled with the exact
    tier has a non-empty answer, a result in mode [error] has an empty
    one, there is no fourth mode, and at most two queries are issued. *)
Theorem textSearch_result (ep : endpoint) (query_text : pystr) (limit : Z)
    (w : world) :
  exists r,
    fst (textSearch ep query_text limit w) = Ret r
    /\ query_handler (snd (textSearch ep query_text limit w))
       = {| instance2labels := instance2labels (query_handler w);
            prefixes := prefixes (query_handler w);
            relation_results := relation_results (query_handler w);
            text_results := Some r |}
    /\ ((mode r = str "likeQuery" /\ answer r <> [])
        \/ mode r = str "semiLikeQuery"
        \/ r = error_result)
    /\ length (log (snd (textSearch ep query_text limit w)))
       <= length (log w) + 2.
Proof.
  destruct (textSearch_handler ep query_text limit w) as [Hr Hh].
  eexists. split; [exact Hr|]. split; [exact Hh|]. split.
  - unfold text_outcome.
    destruct (dict_get (str "entity") (prefixes (query_handler w))) as [entity|e];
      [|right; right; reflexivity].
    destruct (strategy_outcome_cases "likeQuery" "semiLikeQuery"
                (tier ep (likeQuery_text (tokenizer query_text) entity limit))
                (tier ep (semiLikeQuery_text (tokenizer query_text) entity limit)))
      as [(H1 & H2 & _)|[(H1 & _)|(H1 & _)]]; tauto.
  - destruct (dict_get (str "entity") (prefixes (query_handler w))) as [entity|e] eqn:H.
    + rewrite (textSearch_run ep query_text limit w entity H). simpl.
      rewrite length_app.
      pose proof (strategy_queries_length
                    (likeQuery_text (tokenizer query_text) entity limit)
                    (semiLikeQuery_text (tokenizer query_text) entity limit)
                    (tier ep (likeQuery_text (tokenizer query_text) entity limit))).
      lia.
    + rewrite (textSearch_no_prefix ep query_text limit w e H). simpl. lia.
Qed.

(** ** Similarity finder *)

Lemma In_firstn {A} (n : nat) (l : list A) (x : A) : In x (firstn n l) -> In x l.
Proof.
  intros H. rewrite <- (firstn_skipn n l). apply in_or_app. now left.
Qed.

Lemma NoDup_firstn {A} (n : nat) (l : list A) : NoDup l -> NoDup (firstn n l).
Proof.
  intros H. rewrite <- (firstn_skipn n l) in H. now apply NoDup_app_remove_r in H.
Qed.

Lemma cap10_sub (sim_ents : list pystr) :
  (forall x, In x (cap10 sim_ents) -> In x sim_ents)
  /\ (NoDup sim_ents -> NoDup (cap10 sim_ents)).
Proof.
  unfold cap10. destruct (10 <? length sim_ents); split; auto.
  - intros x. apply In_firstn.
  - apply NoDup_firstn.
Qed.

Lemma other_than_spec (entity x : pystr) (l : list pystr) :
  In x (other_than entity l) <-> In x l /\ x <> entity.
Proof.
  unfold other_than. rewrite filter_In, negb_true_iff.
  destruct (str_eqb_spec x entity); intuition congruence.
Qed.

(** The loop only ever holds distinct results other than the entity. *)
Lemma relax_result (ep : endpoint) (list_of_set : list pystr -> list pystr)
    (categoriesQL0 : pystr) (category : list (pystr * Q)) (entity : pystr)
    (num : nat) (sim_ents result : list pystr) (w : world) :
  set_iteration list_of_set ->
  ~ In entity sim_ents /\ NoDup sim_ents ->
  fst (relax ep list_of_set categoriesQL0 category entity num sim_ents w) = Ret result ->
  ~ In entity result /\ NoDup result.
Proof.
  intros Hset. revert sim_ents w; induction num as [|num IH]; intros sim_ents w Hinv H.
  - simpl in H. now injection H as <-.
  - cbn [relax] in H. apply bind_inv in H as (found & w1 & _ & H).
    assert (Hnew : ~ In entity (other_than entity (list_of_set found))
                   /\ NoDup (other_than entity (list_of_set found))).
    { split.
      - intros Hin. apply other_than_spec in Hin. tauto.
      - unfold other_than. apply NoDup_filter, Hset. }
    destruct (1 <? length (other_than entity (list_of_set found))).
    + simpl in H. now injection H as <-.
    + exact (IH _ w1 Hnew H).
Qed.

(** X15: with more than 3 scored categories a returned list of similar
    entities holds no entity twice, does not hold the entity itself, and
    has at most 10 elements. *)
Theorem getSimilarEntries_distinct (ep : endpoint)
    (list_of_set : list pystr -> list pystr) (ontology : list pystr)
    (category : list (pystr * Q)) (entity : pystr) (w : world)
    (sim_ents : list pystr) :
  set_iteration list_of_set ->
  3 < length category ->
  fst (getSimilarEntries ep list_of_set ontology category entity w) = Ret sim_ents ->
  ~ In entity sim_ents /\ NoDup sim_ents /\ length sim_ents <= 10.
Proof.
  intros Hset Hlen H. unfold getSimilarEntries in H.
  apply Nat.ltb_lt in Hlen. rewrite Hlen in H.
  apply bind_ret_inv in H as (l & Hl & ->).
  destruct (relax_result _ _ _ _ _ _ _ _ _ Hset
              (conj (fun H : In entity [] => H) (NoDup_nil _)) Hl) as [H1 H2].
  destruct (cap10_sub l) as [Hsub Hnd].
  split; [intros Hin; apply H1, Hsub, Hin|].
  split; [now apply Hnd | apply cap10_length].
Qed.

Lemma getSimilarEntries_distinct_witness :
  exists sim_ents,
    fst (getSimilarEntries endpoint_neighbours first_occurrences [city]
           four_categories tehran (initial_world [])) = Ret sim_ents
    /\ ~ In tehran sim_ents /\ NoDup sim_ents /\ length sim_ents <= 10.
Proof.
  exists [qom; shiraz].
  assert (H : fst (getSimilarEntries endpoint_neighbours first_occurrences [city]
                     four_categories tehran (initial_world []))
              = Ret [qom; shiraz]) by (vm_compute; reflexivity).
  split; [exact H|].
  apply (getSimilarEntries_distinct endpoint_neighbours first_occurrences [city]
           four_categories tehran (initial_world []) [qom; shiraz]
           set_iteration_first_occurrences); [vm_compute; lia | exact H].
Defined.

(** ** Entity enrichment *)

(** The head of a descending list of scores reaches the mean. *)
Lemma top_category_head (c : pystr) (s : Q) (rest : list (pystr * Q))
    (top : list pystr) :
  StronglySorted (descending snd) ((c, s) :: rest) ->
  top_category ((c, s) :: rest) = Ret top ->
  In c top.
Proof.
  intros Hs H. unfold top_category in H.
  assert (Hne : float_scores ((c, s) :: rest) <> []) by discriminate.
  pose proof (mean_defined _ Hne) as Hmean.
  set (m := float_round (exact_mean (float_scores ((c, s) :: rest)))) in *.
  assert (Hin : In c (map fst (filter (fun i => Qle_bool m (float_round (snd i)))
                                 ((c, s) :: rest)))).
  { apply reaching_In. exists s. split; [now left|].
    apply mean_le_float; [exact Hne|].
    intros x Hx. apply float_scores_In in Hx as (c' & s' & Hx & ->).
    apply float_round_mono.
    destruct Hx as [Hx|Hx]; [injection Hx as _ <-; apply Qle_refl|].
    inversion Hs as [|? ? _ Hall]; subst. rewrite Forall_forall in Hall.
    apply (Hall (c', s') Hx). }
  rewrite Hmean in H. cbn [obind] in H. injection H as <-. exact Hin.
Qed.

Lemma top_category_sub (sorted_category : list (pystr * Q)) (top : list pystr) :
  top_category sorted_category = Ret top ->
  forall c, In c top -> In c (map fst sorted_category).
Proof.
  unfold top_category. destruct (mean (float_scores sorted_category)); [|discriminate].
  simpl. intros H; injection H as <-. intros c Hc.
  apply in_map_iff in Hc as (p & <- & Hp). apply filter_In in Hp as [Hp _].
  now apply in_map.
Qed.

(** What a successful scoring followed by a successful top filter gives. *)
Lemma scored_top (self : QueryRunner) (ontology categories : list pystr)
    (sorted_category : list (pystr * Q)) (top : list pystr) :
  categoryScoring self ontology categories = Ret sorted_category ->
  top_category sorted_category = Ret top ->
  ontology <> [] /\ top <> [] /\ (forall c, In c top -> In c categories).
Proof.
  intros Hs Ht. destruct ontology as [|o ontology]; [discriminate|].
  split; [discriminate|].
  unfold categoryScoring in Hs.
  destruct (dict_get o (instance2labels self)) as [labels|] eqn:Hl; [|discriminate].
  simpl obind in Hs.
  destruct (mem [] categories) eqn:Hm.
  - apply mem_In in Hm. now rewrite score_categories_empty in Hs.
  - apply mem_false in Hm.
    pose proof (score_categories_tagged labels categories [] Hm) as E.
    change (tagged (category_score labels) []) with (@nil (pystr * Q)) in E.
    rewrite E in Hs. simpl obind in Hs. injection Hs as <-.
    pose proof (sorted_reverse_sorted snd
                  (tagged (category_score labels) (fold_left add_key categories [])))
      as Hsorted.
    pose proof (sorted_reverse_perm snd
                  (tagged (category_score labels) (fold_left add_key categories [])))
      as Hperm.
    split.
    + destruct (sorted_reverse snd _) as [|[c s] rest] eqn:Esc; [discriminate Ht|].
      intros ->. now apply (top_category_head c s rest []).
    + intros c Hc. apply (top_category_sub _ _ Ht) in Hc.
      apply in_map_iff in Hc as ([c' s'] & <- & Hc).
      apply (Permutation_in _ Hperm) in Hc. apply tagged_In in Hc as [Hc _].
      rewrite add_keys_first_occurrences in Hc. simpl in Hc.
      apply filter_In in Hc as [Hc _]. exact (proj1 (first_occurrences_In _ _) Hc).
Qed.

(** X16: when enrichment returns, the entity has at least one ontology
    class and at least one category, every reported category is one the
    category query yielded, the similar entities do not include the entity
    itself and are at most 10, and the ontology, incoming and outgoing
    lists are what their queries yielded. *)
Theorem getEntityInformation_returns (ep : endpoint)
    (list_of_set : list pystr -> list pystr) (entity_uri : pystr) (w : world)
    (info : entity_info) :
  fst (getEntityInformation ep list_of_set entity_uri w) = Ret info ->
  exists entity category type category_links,
    let p := prefixes (query_handler w) in
    dict_get (str "entity") p = Ret entity
    /\ dict_get (str "category") p = Ret category
    /\ dict_get (str "type") p = Ret type
    /\ tier ep (category_query entity_uri category) = Ret category_links
    /\ tier ep (ontology_query entity_uri type) = Ret (ontology info)
    /\ tier ep (income_query entity_uri entity) = Ret (income_entities info)
    /\ tier ep (outcome_query entity_uri entity) = Ret (outcome_entities info)
    /\ ontology info <> []
    /\ categories info <> []
    /\ (forall c, In c (categories info) -> In c category_links)
    /\ ~ In entity_uri (similar_entities info)
    /\ length (similar_entities info) <= 10.
Proof.
  intros E. unfold getEntityInformation in E.
  apply bind_inv in E as (entity & w1 & E1 & E).
  rewrite prefix_run in E1. injection E1 as He <-.
  apply bind_inv in E as (entity' & w1 & E1 & E).
  rewrite prefix_run, He in E1. injection E1 as <- <-.
  apply bind_inv in E as (category & w1 & E1 & E).
  rewrite prefix_run in E1. injection E1 as Hc <-.
  apply bind_inv in E as (type & w1 & E1 & E).
  rewrite prefix_run in E1. injection E1 as Ht <-.
  apply bind_inv in E as (category_links & w1 & E1 & E).
  rewrite runSPARQL_run in E1. injection E1 as Hcat <-.
  apply bind_inv in E as (ontology_links & w2 & E1 & E).
  rewrite runSPARQL_run in E1. injection E1 as Hont <-.
  apply bind_inv in E as (income_links & w3 & E1 & E).
  rewrite runSPARQL_run in E1. injection E1 as Hinc <-.
  apply bind_inv in E as (outcome_links & w4 & E1 & E).
  rewrite runSPARQL_run in E1. injection E1 as Hout <-.
  apply bind_inv in E as (self & w5 & E1 & E).
  injection E1 as <- <-.
  apply bind_inv in E as (sorted_category & w6 & E1 & E).
  unfold lift in E1. injection E1 as Hsc <-.
  apply bind_inv in E as (sim_ents & w7 & E1 & E).
  apply bind_inv in E as (top & w8 & E2 & E).
  unfold lift in E2. injection E2 as Htop <-.
  simpl in E. injection E as <-. simpl.
  destruct (scored_top _ _ _ _ _ Hsc Htop) as (Hne & Htne & Hsub).
  assert (Hcap : length sim_ents <= 10).
  { assert (E1' : fst (getSimilarEntries ep list_of_set ontology_links
                         sorted_category entity_uri
                         (issue [outcome_query entity_uri entity]
                            (issue [income_query entity_uri entity]
                               (issue [ontology_query entity_uri type]
                                  (issue [category_query entity_uri category] w)))))
                       = Ret sim_ents) by now rewrite E1.
    unfold getSimilarEntries in E1'.
    destruct (3 <? length sorted_category);
      apply bind_ret_inv in E1' as (l & _ & ->); apply cap10_length. }
  exists entity, category, type, category_links.
  repeat split; try assumption.
  - intros Hin. apply other_than_spec in Hin. tauto.
  - etransitivity; [apply filter_length_le | exact Hcap].
Qed.

Lemma getEntityInformation_returns_witness :
  exists info,
    fst (getEntityInformation endpoint_enriched first_occurrences tehran
           (initial_world [(city, str "City")])) = Ret info
    /\ categories info <> []
    /\ ~ In tehran (similar_entities info).
Proof.
  assert (H : fst (getEntityInformation endpoint_enriched first_occurrences tehran
                     (initial_world [(city, str "City")]))
              = Ret {| similar_entities := [qom];
                       categories := [category_a];
                       ontology := [city];
                       income_entities := [];
                       outcome_entities := [] |}) by (vm_compute; reflexivity).
  eexists. split; [exact H|].
  destruct (getEntityInformation_returns _ _ _ _ _ H)
    as (e & c & t & cl & _ & _ & _ & _ & _ & _ & _ & _ & Hc & _ & Hs & _).
  split; [exact Hc | exact Hs].
Defined.

(** ** The request *)






(** ** Requests under a prefix configuration without the entity key *)

Lemma dispatch_no_prefix (ep : endpoint) (query_text : pystr) (w : world) (e : exn) :
  dict_get (str "entity") (prefixes (query_handler w)) = Raise e ->
  dispatch ep query_text w
  = (Ret tt,
     {| log := log w;
        query_handler := with_results (query_handler w) error_result error_result |}).
Proof.
  intros H. unfold dispatch, bind, run_thread.
  rewrite (relationSearch_no_prefix ep query_text 10 w e H). simpl.
  rewrite (textSearch_no_prefix ep query_text 20 _ e); [reflexivity | exact H].
Qed.

Lemma runQuery_no_prefix (ep : endpoint) (list_of_set : list pystr -> list pystr)
    (query_text : pystr) (w : world) (e : exn) :
  dict_get (str "entity") (prefixes (query_handler w)) = Raise e ->
  runQuery ep list_of_set query_text w
  = (Ret error_answer,
     {| log := log w;
        query_handler := with_results (query_handler w) error_result error_result |}).
Proof.
  intros H. unfold runQuery.
  rewrite (bind_run _ _ _ _ _ (dispatch_no_prefix ep query_text w e H)).
  erewrite bind_run by (apply get_relation_results_run; reflexivity).
  erewrite bind_run by (apply get_text_results_run; reflexivity).
  reflexivity.
Qed.

(** X18: the mode update does not look at the keys of the configuration it
    is given. When the configuration has no entity key and the index build
    succeeds, the update is answered with [success]; from then on every
    request returns mode [error] for both strategies and an empty answer,
    and sends nothing to the endpoint. *)
Theorem update_without_entity_prefix (ep : endpoint)
    (list_of_set : list pystr -> list pystr) (mode index : dict pystr)
    (query_text : pystr) (w : world) :
  index_build ep = Ret index ->
  dict_get (str "entity") mode = Raise KeyError ->
  let w1 := snd (set_mode ep mode w) in
  fst (set_mode ep mode w)
  = Ret {| content := json_dumps (str "success"); status_code := 200 |}
  /\ fst (runQuery ep list_of_set query_text w1) = Ret error_answer
  /\ log (snd (runQuery ep list_of_set query_text w1)) = log w1.
Proof.
  intros Hi He w1. subst w1. rewrite set_mode_run, Hi. simpl fst. simpl snd.
  split; [reflexivity|].
  rewrite (runQuery_no_prefix ep list_of_set query_text
             {| log := log w ++ [instance2labels_query];
                query_handler := fresh_instance index mode |} KeyError He).
  split; reflexivity.
Qed.

Lemma update_without_entity_prefix_witness :
  fst (runQuery endpoint_enriched first_occurrences (str "Tehran")
         (snd (set_mode endpoint_enriched prefixes_without_entity
                 (initial_world [(city, str "City")]))))
  = Ret error_answer.
Proof.
  destruct (update_without_entity_prefix endpoint_enriched first_occurrences
              prefixes_without_entity [] (str "Tehran")
              (initial_world [(city, str "City")])) as (_ & H & _);
    [reflexivity | reflexivity | exact H].
Defined.

(** ** The routes *)

(** X19: the query route answers with status 200 whenever the engine
    returns an answer, whatever the answer holds: status 501 is never
    sent. It handles no exception: when the engine raises, the route raises
    the same exception. It adds no query of its own. *)
Theorem get_query_status (ep : endpoint) (list_of_set : list pystr -> list pystr)
    (dumps : final_answer -> pystr) (query_text : pystr) (w : world) :
  (forall fa,
      fst (runQuery ep list_of_set query_text w) = Ret fa ->
      fst (get_query ep list_of_set dumps query_text w)
      = Ret {| content := dumps fa; status_code := 200 |})
  /\ (forall e,
        fst (runQuery ep list_of_set query_text w) = Raise e ->
        fst (get_query ep list_of_set dumps query_text w) = Raise e)
  /\ (forall response,
        fst (get_query ep list_of_set dumps query_text w) = Ret response ->
        status_code response = 200)
  /\ snd (get_query ep list_of_set dumps query_text w)
     = snd (runQuery ep list_of_set query_text w).
Proof.
  unfold get_query, bind.
  destruct (runQuery ep list_of_set query_text w) as [[fa|e] w']; simpl.
  - repeat split; try discriminate.
    + intros fa' H; now injection H as <-.
    + intros response H; now injection H as <-.
  - repeat split; try discriminate. intros e' H; now injection H as <-.
Qed.

Lemma get_query_status_witness :
  fst (get_query endpoint_tehran first_occurrences (fun _ => []) (str "Tehran")
         (initial_world [(city, str "City")]))
  = Raise StatisticsError.
Proof.
  apply get_query_status. vm_compute. reflexivity.
Defined.

(** X20: the mode route always answers: it never raises. It sends exactly
    one query, the index query, whether the update succeeds or not; the
    answer is [success] with status 200 when the index build returns, and
    [failed] with status 401 when it raises, whatever the exception. *)
Theorem set_mode_total (ep : endpoint) (mode : dict pystr) (w : world) :
  log (snd (set_mode ep mode w)) = log w ++ [instance2labels_query]
  /\ (forall index,
        index_build ep = Ret index ->
        fst (set_mode ep mode w)
        = Ret {| content := json_dumps (str "success"); status_code := 200 |})
  /\ (forall e,
        index_build ep = Raise e ->
        fst (set_mode ep mode w)
        = Ret {| content := json_dumps (str "failed"); status_code := 401 |})
  /\ exists response,
       fst (set_mode ep mode w) = Ret response
       /\ (status_code response = 200 \/ status_code response = 401).
Proof.
  rewrite set_mode_run.
  destruct (index_build ep) as [index|e]; simpl.
  - repeat split; try discriminate. eexists. split; [reflexivity | now left].
  - repeat split; try discriminate. eexists. split; [reflexivity | now right].
Qed.

Lemma set_mode_total_witness :
  fst (set_mode endpoint_two_labels other_prefixes (initial_world []))
  = Ret {| content := json_dumps (str "success"); status_code := 200 |}.
Proof.
  destruct (set_mode_total endpoint_two_labels other_prefixes (initial_world []))
    as (_ & H & _).
  apply (H [(city, str "Shahr")]). vm_compute. reflexivity.
Defined.


